(** * Timeline clustering and repository-URL handling

    A shallow embedding of the timeline component ([clusterCommits], the
    per-cluster category selection and the row rendering guard), of
    [extractRepoNameFromUrl] and of the repository input form
    ([validateUrl], [handleSubmit]), with the properties the specification
    states about them. *)

From Stdlib Require Import List ZArith QArith Qround Bool Lia Lqa.
From Stdlib Require Import String Ascii.
From Stdlib Require Import Permutation Sorted.
Import ListNotations.
Close Scope Q_scope.

Set Implicit Arguments.

(** ** JavaScript numbers as far as the layout uses them

    A position is an IEEE double.  Every finite double is a rational, so the
    finite values are carried as [Q]; the three non-finite values are kept
    apart.  Negative zero is identified with zero: it prints as the same
    property key and compares equal. *)

Inductive number : Type :=
| NaN
| Infinity
| NegInfinity
| Finite (q : Q).

Definition of_Z (z : Z) : number := Finite (inject_Z z).

(** [Math.round]: the integer nearest to the argument, ties towards
    positive infinity; the non-finite values are returned unchanged. *)
Definition Math_round (x : number) : number :=
  match x with
  | Finite q => of_Z (Qfloor (q + (1 # 2))%Q)
  | other => other
  end.

Definition number_eq_dec (x y : number) : {x = y} + {x <> y}.
Proof.
  decide equality.
  destruct q as [n d], q0 as [n0 d0].
  destruct (Z.eq_dec n n0) as [-> | Hn]; [ | right; congruence ].
  destruct (Pos.eq_dec d d0) as [-> | Hd]; [ left; reflexivity | right; congruence ].
Defined.

Definition number_eqb (x y : number) : bool :=
  if number_eq_dec x y then true else false.

(** The value of an integral number, when it is one in canonical form. *)
Definition integer_value (x : number) : option Z :=
  match x with
  | Finite q => if Pos.eqb (Qden q) 1 then Some (Qnum q) else None
  | _ => None
  end.

(** The relational operator [<] on numbers: false as soon as one side is
    [NaN]. *)
Definition number_lt (x y : number) : Prop :=
  match x, y with
  | NaN, _ | _, NaN => False
  | NegInfinity, NegInfinity => False
  | NegInfinity, _ => True
  | _, NegInfinity => False
  | Infinity, _ => False
  | Finite _, Infinity => True
  | Finite p, Finite q => (p < q)%Q
  end.

(** ** Arrays

    [Array.prototype.sort] with a comparator is stable; the comparator puts
    [a] after [b] when its result is positive.  Insertion from the right
    keeps an element in front of every later element it does not have to
    follow. *)

Section ArraySort.
Context {A : Type}.
Variable cmp : A -> A -> Z.

Fixpoint sort_insert (x : A) (l : list A) : list A :=
  match l with
  | [] => [x]
  | y :: l' => if (0 <? cmp x y)%Z then y :: sort_insert x l' else x :: l
  end.

Fixpoint Array_sort (l : list A) : list A :=
  match l with
  | [] => []
  | x :: l' => sort_insert x (Array_sort l')
  end.
End ArraySort.

(** ** Plain objects used as dictionaries

    An object is kept as the list of its own properties in creation order.
    A property key is a string; the keys that occur here are either the
    decimal print of a number or the name of a commit type, so the key is
    represented by the value that prints it ([ToString] is injective on
    numbers once negative zero is identified with zero, and [Number]
    inverts it). *)

Section JSObject.
Context {K V : Type}.
Variable key_eq_dec : forall a b : K, {a = b} + {a <> b}.

Definition JSObject : Type := list (K * V).

(** [o[k]]: [None] stands for [undefined]. *)
Fixpoint obj_get (k : K) (o : JSObject) : option V :=
  match o with
  | [] => None
  | (k', v) :: o' => if key_eq_dec k k' then Some v else obj_get k o'
  end.

(** [o[k] = v]: an existing property keeps its place, a new one is
    created after all the others. *)
Fixpoint obj_set (k : K) (v : V) (o : JSObject) : JSObject :=
  match o with
  | [] => [(k, v)]
  | (k', v') :: o' =>
      if key_eq_dec k k' then (k', v) :: o' else (k', v') :: obj_set k v o'
  end.

(** In-place mutation of the value stored under [k] (the object holds a
    reference to it). *)
Fixpoint obj_mutate (k : K) (f : V -> V) (o : JSObject) : JSObject :=
  match o with
  | [] => []
  | (k', v) :: o' =>
      if key_eq_dec k k' then (k', f v) :: o' else (k', v) :: obj_mutate k f o'
  end.

(** Own property enumeration order: the keys that are array indices in
    ascending numeric order, then the other string keys in creation
    order. *)
Variable array_index : K -> option Z.

Definition is_index (e : K * V) : bool :=
  match array_index (fst e) with Some _ => true | None => false end.

Definition index_rank (e : K * V) : Z :=
  match array_index (fst e) with Some i => i | None => 0%Z end.

Definition index_cmp (a b : K * V) : Z := (index_rank a - index_rank b)%Z.

Definition Object_entries (o : JSObject) : list (K * V) :=
  Array_sort index_cmp (filter is_index o)
    ++ filter (fun e => negb (is_index e)) o.
End JSObject.

(** A canonical numeric string is an array index when it prints an integer
    from 0 to 2^32 - 2. *)
Definition number_array_index (x : number) : option Z :=
  match integer_value x with
  | Some z => if ((0 <=? z) && (z <? 2 ^ 32 - 1))%Z then Some z else None
  | None => None
  end.

(** [Number(key)] on a key that prints a number. *)
Definition Number (k : number) : number := k.

(** ** Data model of the timeline *)

(** Modelled from the spec: the declaration of [CommitType] (module
    [@/types]) is not among the source files.  The closed enumeration
    is the one of section 3, which is also the list of cases of
    [getCommitTypeIcon].  Every name is a non-empty string (so it is truthy)
    and none is an array index. *)
Inductive CommitType : Type := FEATURE | WARNING | MILESTONE | BUG | CHORE.

Definition CommitType_eq_dec (a b : CommitType) : {a = b} + {a <> b}.
Proof. decide equality. Defined.

(** Modelled from the spec: [TimeScale] and [GroupBy] are declared in
    [@/types] too; the component only passes them on. *)
Inductive TimeScale : Type := hour | day | week | month | year.
Inductive GroupBy : Type := by_type | by_author | by_date.

(** An instant, as the time value of a [Date] in milliseconds. *)
Definition Date : Type := Z.
Bind Scope Z_scope with Date.

Record CommitAnalysis : Type := {
  type : CommitType;
  title : string;
  idea : string
}.

(** A commit as the component reads it.  Each of the two alternately named
    analysis collections is either missing ([None], a falsy [undefined] or
    [null]) or an array, which is truthy even when it is empty. *)
Record Commit : Type := {
  sha : string;
  date : Date;
  author : string;
  message : string;
  description : option string;
  commit_analyses : option (list CommitAnalysis);
  commit_analises : option (list CommitAnalysis)
}.

Record TimeRange : Type := {
  range_start : Date;
  range_end : Date
}.

Record ClusteredCommit : Type := {
  position : number;
  commits : list Commit
}.

(** What a render pass of the component can read: its props and the
    current values of its state hooks. *)
Record TimelineState : Type := {
  timeScale : TimeScale;
  groupBy : GroupBy;
  selectedCommit : option string;
  timeRange : TimeRange;
  hoveredCommit : option string;
  openClusterDialog : bool;
  selectedCluster : option ClusteredCommit
}.

(** Modelled from the spec: [calculateCommitPosition] (module
    [@/utils/date-utils]) is not among the source files.  Section 4.4:
    position = 100 x (timestamp - start) / (end - start); a division by
    zero gives [NaN] or an infinity as it does on doubles.  The arithmetic
    is exact; the instances below use dates on which the double arithmetic
    is exact too. *)
Definition calculateCommitPosition_spec
    (d s e : Date) (_ : TimeScale) : number :=
  if (e - s =? 0)%Z then
    if (d - s =? 0)%Z then NaN
    else if (0 <? d - s)%Z then Infinity else NegInfinity
  else Finite (Qred (inject_Z (100 * (d - s)) / inject_Z (e - s))).

(** ** [clusterCommits] *)

Section Timeline.
(** [calculateCommitPosition] is imported from [@/utils/date-utils]; the
    component is modelled over any function of its signature. *)
Variable calculateCommitPosition :
  Date -> Date -> Date -> TimeScale -> number.

Definition roundedPosition (st : TimelineState) (commit : Commit) : number :=
  let position :=
    calculateCommitPosition
      (date commit)
      (range_start (timeRange st))
      (range_end (timeRange st))
      (timeScale st) in
  Math_round position.

(** The body of the [forEach] callback, acting on [positionMap].  The
    guard creates the bucket when the lookup is [undefined] (an array,
    even an empty one, is truthy); the [push] then mutates the array the
    map holds. *)
Definition cluster_step (st : TimelineState)
    (positionMap : JSObject (K:=number) (V:=list Commit)) (commit : Commit)
    : JSObject :=
  let roundedPosition := roundedPosition st commit in
  let positionMap :=
    match obj_get number_eq_dec roundedPosition positionMap with
    | None => obj_set number_eq_dec roundedPosition [] positionMap
    | Some _ => positionMap
    end in
  obj_mutate number_eq_dec roundedPosition
    (fun a => a ++ [commit]) positionMap.

Definition positionMap_of (st : TimelineState) (commits : list Commit)
    : JSObject :=
  fold_left (cluster_step st) commits [].

Definition clusterCommits (st : TimelineState)
    (commits : list Commit) (groupName : string) : list ClusteredCommit :=
  let positionMap := positionMap_of st commits in
  map (fun entry =>
         let '(pos, groupedCommits) := entry in
         {| position := Number pos; commits := groupedCommits |})
      (Object_entries number_array_index positionMap).
End Timeline.

(** ** [clusterCommits] on the store

    In the program a commit, an array and [positionMap] are objects held
    by reference: [commits] is a reference to an array of references to
    commit objects, [push] changes the array that [positionMap] holds, and
    the array of a returned cluster is that very array.  Here the objects
    live in a heap, next to whatever else the program can reach (module
    variables, the clock, the document), and every step of the function
    is a transition of that store. *)

Definition loc : Type := nat.

Inductive HeapObject : Type :=
| CommitObject (commit : Commit)
| ArrayObject (elements : list loc)
| RecordObject (properties : JSObject (K:=number) (V:=loc)).

(** What a call returns: an array of new [{ position, commits }] objects,
    whose [commits] is a reference.  The array and its objects are made by
    the [return] statement and nothing else holds them, so they are kept
    as a value and not placed in the heap; the arrays of the members
    are in the heap. *)
Record ClusteredCommitRef : Type := {
  ref_position : number;
  ref_commits : loc
}.

Fixpoint heap_update (h : list HeapObject) (l : loc) (o : HeapObject)
    : list HeapObject :=
  match h, l with
  | [], _ => []
  | _ :: h', O => o :: h'
  | x :: h', S l' => x :: heap_update h' l' o
  end.

(** Reading a value back from a heap. *)
Definition read_commit (h : list HeapObject) (l : loc) : option Commit :=
  match nth_error h l with
  | Some (CommitObject c) => Some c
  | _ => None
  end.

Fixpoint read_commits (h : list HeapObject) (ls : list loc)
    : option (list Commit) :=
  match ls with
  | [] => Some []
  | l :: ls' =>
      match read_commit h l, read_commits h ls' with
      | Some c, Some cs => Some (c :: cs)
      | _, _ => None
      end
  end.

Definition read_array (h : list HeapObject) (a : loc)
    : option (list Commit) :=
  match nth_error h a with
  | Some (ArrayObject elements) => read_commits h elements
  | _ => None
  end.

Definition read_cluster (h : list HeapObject) (r : ClusteredCommitRef)
    : option ClusteredCommit :=
  match read_array h (ref_commits r) with
  | Some cs => Some {| position := ref_position r; commits := cs |}
  | None => None
  end.

Fixpoint read_clusters (h : list HeapObject) (rs : list ClusteredCommitRef)
    : option (list ClusteredCommit) :=
  match rs with
  | [] => Some []
  | r :: rs' =>
      match read_cluster h r, read_clusters h rs' with
      | Some c, Some cs => Some (c :: cs)
      | _, _ => None
      end
  end.

Section Store.
(** Everything the program can reach besides the heap. *)
Variable External : Type.

Record Store : Type := {
  heap : list HeapObject;
  external : External
}.

(** A computation on the store; [None] is a thrown [TypeError]. *)
Definition M (A : Type) : Type := Store -> option (A * Store).

Definition ret {A : Type} (a : A) : M A := fun s => Some (a, s).

Definition bind {A B : Type} (m : M A) (k : A -> M B) : M B :=
  fun s =>
    match m s with
    | Some (a, s') => k a s'
    | None => None
    end.

Definition throw {A : Type} : M A := fun _ => None.

Notation "x <- m ;; k" := (bind m (fun x => k))
  (at level 61, m at next level, right associativity).
Notation "m ;; k" := (bind m (fun _ => k))
  (at level 61, right associativity).

Definition alloc (o : HeapObject) : M loc :=
  fun s =>
    Some (List.length (heap s),
          {| heap := heap s ++ [o]; external := external s |}).

Definition load (l : loc) : M HeapObject :=
  fun s =>
    match nth_error (heap s) l with
    | Some o => Some (o, s)
    | None => None
    end.

Definition store (l : loc) (o : HeapObject) : M unit :=
  fun s =>
    match nth_error (heap s) l with
    | Some _ =>
        Some (tt, {| heap := heap_update (heap s) l o;
                     external := external s |})
    | None => None
    end.

Definition load_commit (l : loc) : M Commit :=
  o <- load l ;;
  match o with CommitObject c => ret c | _ => throw end.

Definition load_array (l : loc) : M (list loc) :=
  o <- load l ;;
  match o with ArrayObject elements => ret elements | _ => throw end.

Definition load_record (l : loc) : M (JSObject (K:=number) (V:=loc)) :=
  o <- load l ;;
  match o with RecordObject properties => ret properties | _ => throw end.

(** [o[k]] and [o[k] = v] on a record. *)
Definition get_property (o : loc) (k : number) : M (option loc) :=
  properties <- load_record o ;;
  ret (obj_get number_eq_dec k properties).

Definition set_property (o : loc) (k : number) (v : loc) : M unit :=
  properties <- load_record o ;;
  store o (RecordObject (obj_set number_eq_dec k v properties)).

(** [a.push(x)] *)
Definition Array_push (a : loc) (x : loc) : M unit :=
  elements <- load_array a ;;
  store a (ArrayObject (elements ++ [x])).

(** [a.forEach(callback)]: the length is read once, each element when its
    turn comes; an index that is no longer there is skipped. *)
Fixpoint forEach_from (a : loc) (callback : loc -> M unit) (ks : list nat)
    : M unit :=
  match ks with
  | [] => ret tt
  | k :: ks' =>
      elements <- load_array a ;;
      match nth_error elements k with
      | Some v => callback v
      | None => ret tt
      end ;;
      forEach_from a callback ks'
  end.

Definition Array_forEach (a : loc) (callback : loc -> M unit) : M unit :=
  elements <- load_array a ;;
  forEach_from a callback (seq 0 (List.length elements)).

(** The imported [calculateCommitPosition], as a procedure that may read
    and change the store. *)
Variable calculateCommitPosition : Date -> Date -> Date -> TimeScale -> M number.

(** The [forEach] callback of [clusterCommits]; [positionMap] is the
    reference the closure holds. *)
Definition cluster_callback (st : TimelineState) (positionMap : loc)
    (commit : loc) : M unit :=
  c <- load_commit commit ;;
  position <-
    calculateCommitPosition
      (date c)
      (range_start (timeRange st))
      (range_end (timeRange st))
      (timeScale st) ;;
  let roundedPosition := Math_round position in
  bucket <- get_property positionMap roundedPosition ;;
  match bucket with
  | None =>
      bucket <- alloc (ArrayObject []) ;;
      set_property positionMap roundedPosition bucket
  | Some _ => ret tt
  end ;;
  bucket <- get_property positionMap roundedPosition ;;
  match bucket with
  | Some bucket => Array_push bucket commit
  | None => throw
  end.

Definition run_clusterCommits (st : TimelineState) (commits : loc)
    (groupName : string) : M (list ClusteredCommitRef) :=
  positionMap <- alloc (RecordObject []) ;;
  Array_forEach commits (cluster_callback st positionMap) ;;
  properties <- load_record positionMap ;;
  ret (map (fun entry =>
              let '(pos, groupedCommits) := entry in
              {| ref_position := Number pos; ref_commits := groupedCommits |})
           (Object_entries number_array_index properties)).

(** The imported procedure computes [f]: it returns the value of [f] at
    its arguments, in every store, and leaves the store as it is. *)
Definition computes
    (f : Date -> Date -> Date -> TimeScale -> number) : Prop :=
  forall (d s e : Date) (ts : TimeScale) (w : Store),
    calculateCommitPosition d s e ts w = Some (f d s e ts, w).
End Store.

(** A pure function as a procedure on the store. *)
Definition pure_call (External : Type)
    (f : Date -> Date -> Date -> TimeScale -> number)
    (d s e : Date) (ts : TimeScale) : M External number :=
  fun w => Some (f d s e ts, w).

(** A procedure that reads the clock, kept as the external state. *)
Definition clock_call (d s e : Date) (ts : TimeScale) : M Z number :=
  fun w => Some (of_Z (external w), w).

(** ** Relating a heap to the values it holds *)

(** [h'] has every object of [h]. *)
Definition keeps (h h' : list HeapObject) : Prop :=
  forall l o, nth_error h l = Some o -> nth_error h' l = Some o.

(** [h'] has every commit object of [h]. *)
Definition keeps_commits (h h' : list HeapObject) : Prop :=
  forall l c,
    nth_error h l = Some (CommitObject c) ->
    nth_error h' l = Some (CommitObject c).

(** A property of the position map in the heap and the property of the
    same key in the position map of [positionMap_of]: the array in the
    heap holds the commits of the list. *)
Definition bucket_holds (h : list HeapObject)
    (e1 : number * loc) (e2 : number * list Commit) : Prop :=
  fst e1 = fst e2 /\ read_array h (snd e1) = Some (snd e2).

(** What holds of the heap [h] between two calls of the callback, in a
    call of [clusterCommits] entered with the heap [h0]: the objects of
    [h0] are as they were, the position map is the object made on entry,
    and its buckets are distinct arrays, made after it, that hold the
    commits of [pm]. *)
Record cluster_invariant (h0 h : list HeapObject)
    (m : JSObject (K:=number) (V:=loc))
    (pm : JSObject (K:=number) (V:=list Commit)) : Prop := {
  inv_frame : keeps h0 h;
  inv_map : nth_error h (List.length h0) = Some (RecordObject m);
  inv_buckets : Forall2 (bucket_holds h) m pm;
  inv_distinct : NoDup (map snd m);
  inv_fresh : Forall (fun e => List.length h0 < snd e) m
}.

Definition store_of (External : Type) (h : list HeapObject) (x : External)
    : Store External :=
  {| heap := h; external := x |}.

(** ** Category of a marker *)

(** [commit.commit_analyses || commit.commit_analises || []] *)
Definition analyses_of (commit : Commit) : list CommitAnalysis :=
  match commit_analyses commit with
  | Some a => a
  | None =>
      match commit_analises commit with
      | Some a => a
      | None => []
      end
  end.

(** [x?.type || 'CHORE'] on an array element that may be [undefined]. *)
Definition type_or_CHORE (analysis : option CommitAnalysis) : CommitType :=
  match analysis with
  | Some a => type a
  | None => CHORE
  end.

(** The singleton branch: [commitType] of [cluster.commits[0]]. *)
Definition commitType (commit : Commit) : CommitType :=
  let analyses := analyses_of commit in
  let analysis := nth_error analyses 0 in
  type_or_CHORE analysis.

(** The multi-member branch: the [map] over [cluster.commits]. *)
Definition commitTypes (cluster : ClusteredCommit) : list CommitType :=
  map (fun commit =>
         let analyses := analyses_of commit in
         type_or_CHORE (nth_error analyses 0))
      (commits cluster).

(** The [reduce] that tallies the types: [acc[type] = (acc[type] || 0) + 1]. *)
Definition tally_step (acc : JSObject (K:=CommitType) (V:=Z)) (t : CommitType)
    : JSObject :=
  let old :=
    match obj_get CommitType_eq_dec t acc with
    | Some n => if (n =? 0)%Z then 0%Z else n
    | None => 0%Z
    end in
  obj_set CommitType_eq_dec t (old + 1)%Z acc.

Definition mostCommonType (commitTypes : list CommitType) : JSObject :=
  fold_left tally_step commitTypes [].

(** No commit type name is an array index. *)
Definition CommitType_array_index (_ : CommitType) : option Z := None.

(** [Object.entries(mostCommonType).sort((a, b) => b[1] - a[1])[0][0]];
    [None] stands for the [TypeError] of indexing [undefined]. *)
Definition dominantType_of (commitTypes : list CommitType) : option CommitType :=
  let sorted :=
    Array_sort (fun a b => (snd b - snd a)%Z)
      (Object_entries CommitType_array_index (mostCommonType commitTypes)) in
  match nth_error sorted 0 with
  | Some entry => Some (fst entry)
  | None => None
  end.

Definition dominantType (cluster : ClusteredCommit) : option CommitType :=
  dominantType_of (commitTypes cluster).

(** ** Rendering of rows and markers *)

Inductive Marker : Type :=
| CommitMarker (key : string) (color : CommitType) (left : number)
| ClusterMarker (left : number) (color : CommitType) (badge : nat).

(** One cluster of a row; [None] stands for a render that throws. *)
Definition renderCluster (cluster : ClusteredCommit) : option Marker :=
  if Nat.eqb (List.length (commits cluster)) 1 then
    match nth_error (commits cluster) 0 with
    | Some commit =>
        Some (CommitMarker (sha commit) (commitType commit) (position cluster))
    | None => None
    end
  else
    match dominantType cluster with
    | Some t =>
        Some (ClusterMarker (position cluster) t (List.length (commits cluster)))
    | None => None
    end.

Record Row : Type := {
  row_key : string;
  row_label : string;
  row_markers : list (option Marker)
}.

Section Rows.
Variable calculateCommitPosition :
  Date -> Date -> Date -> TimeScale -> number.

(** [groupCommits.length > 0 && ( <div key={groupName}> ... )]: [None]
    stands for the [false] that renders nothing. *)
Definition renderGroup (st : TimelineState)
    (entry : string * list Commit) : option Row :=
  let '(groupName, groupCommits) := entry in
  if Nat.ltb 0 (List.length groupCommits) then
    Some {| row_key := groupName;
            row_label := groupName;
            row_markers :=
              map renderCluster
                (clusterCommits calculateCommitPosition st
                   groupCommits groupName) |}
  else None.

(** The body of the timeline: one element per entry of the grouped
    commits, in the order [Object.entries] lists them. *)
Definition renderGroups (st : TimelineState)
    (groupedCommits : list (string * list Commit)) : list (option Row) :=
  map (renderGroup st) groupedCommits.

(** The rows that reach the page. *)
Definition renderedRows (st : TimelineState)
    (groupedCommits : list (string * list Commit)) : list Row :=
  flat_map (fun r => match r with Some row => [row] | None => [] end)
    (renderGroups st groupedCommits).

(** [groupCommits] is imported from [@/utils/filter-utils]; the component
    is modelled over any function of its signature.  The mapping it
    returns is taken as the list of its entries in [Object.entries]
    order. *)
Variable groupCommits : list Commit -> GroupBy -> list (string * list Commit).

(** The rows of a render pass over the [commits] prop. *)
Definition timelineRows (st : TimelineState) (commits : list Commit)
    : list Row :=
  let groupedCommits := groupCommits commits (groupBy st) in
  renderedRows st groupedCommits.
End Rows.

(** ** Strings and regular expressions

    A string is a sequence of code units; the code units modelled are those
    below 256. *)

Open Scope string_scope.

Fixpoint str_take (n : nat) (s : string) : string :=
  match n, s with
  | S n', String c s' => String c (str_take n' s')
  | _, _ => ""
  end.

Fixpoint str_drop (n : nat) (s : string) : string :=
  match n, s with
  | S n', String _ s' => str_drop n' s'
  | _, _ => s
  end.

(** The rest of [s] after the literal [p], when [s] starts with it. *)
Fixpoint strip_prefix (p s : string) : option string :=
  match p, s with
  | EmptyString, _ => Some s
  | String a p', String b s' =>
      if Ascii.eqb a b then strip_prefix p' s' else None
  | String _ _, EmptyString => None
  end.

(** The regular expressions of the sources: literals, character classes,
    concatenation, greedy [?] on a sub-expression, greedy [*] and [+] on a
    class, one capturing group and the two anchors (no flag is set, so they
    anchor to the whole input). *)
Inductive regex : Type :=
| Lit (s : string)
| Class (p : ascii -> bool)
| Cat (r1 r2 : regex)
| Opt (r : regex)
| Star (p : ascii -> bool)
| Plus (p : ascii -> bool)
| Capture (r : regex)
| Bol
| Eol.

(** A state of the backtracking matcher: the index reached in the input,
    the input from there on and the text of group 1 ([None]: the group has
    not taken part). *)
Record mstate : Type := {
  pos : nat;
  rest : string;
  cap : option string
}.

Section Matcher.
Variable R : Type.

(** Greedy repetition of a class: the longest run first, then shorter
    ones while the continuation fails. *)
Fixpoint star (p : ascii -> bool) (k : mstate -> option R)
    (i : nat) (c : option string) (s : string) : option R :=
  match s with
  | String a s' =>
      if p a then
        match star p k (S i) c s' with
        | Some x => Some x
        | None => k {| pos := i; rest := s; cap := c |}
        end
      else k {| pos := i; rest := s; cap := c |}
  | EmptyString => k {| pos := i; rest := s; cap := c |}
  end.

Fixpoint matcher (r : regex) (k : mstate -> option R) (st : mstate)
    : option R :=
  match r with
  | Lit s =>
      match strip_prefix s (rest st) with
      | Some s' =>
          k {| pos := pos st + String.length s; rest := s'; cap := cap st |}
      | None => None
      end
  | Class p =>
      match rest st with
      | String a s' =>
          if p a then k {| pos := S (pos st); rest := s'; cap := cap st |}
          else None
      | EmptyString => None
      end
  | Cat r1 r2 => matcher r1 (matcher r2 k) st
  | Opt r1 =>
      match matcher r1 k st with
      | Some x => Some x
      | None => k st
      end
  | Star p => star p k (pos st) (cap st) (rest st)
  | Plus p =>
      match rest st with
      | String a s' =>
          if p a then star p k (S (pos st)) (cap st) s' else None
      | EmptyString => None
      end
  | Capture r1 =>
      matcher r1
        (fun st' =>
           k {| pos := pos st'; rest := rest st';
                cap := Some (str_take (pos st' - pos st) (rest st)) |})
        st
  | Bol => if Nat.eqb (pos st) 0 then k st else None
  | Eol =>
      match rest st with
      | EmptyString => k st
      | String _ _ => None
      end
  end.
End Matcher.

(** The result of a successful match: where it starts, the state at its
    end. *)
Record MatchResult : Type := {
  index : nat;
  final : mstate
}.

(** [RegExpBuiltinExec] without the global or sticky flag: the leftmost
    start index at which the pattern matches. *)
Fixpoint exec_from (r : regex) (i : nat) (s : string) : option MatchResult :=
  match matcher r (fun st => Some st) {| pos := i; rest := s; cap := None |} with
  | Some st' => Some {| index := i; final := st' |}
  | None =>
      match s with
      | String _ s' => exec_from r (S i) s'
      | EmptyString => None
      end
  end.

Definition RegExp_exec (r : regex) (s : string) : option MatchResult :=
  exec_from r 0 s.

Definition RegExp_test (r : regex) (s : string) : bool :=
  match RegExp_exec r s with Some _ => true | None => false end.

(** [s.replace(r, replacement)] for a pattern without the global flag and a
    replacement without [$]: the first match is replaced. *)
Definition String_replace (r : regex) (replacement s : string) : string :=
  match RegExp_exec r s with
  | Some m => str_take (index m) s ++ replacement ++ rest (final m)
  | None => s
  end.

(** [s.split(sep)] for a separator that matches exactly one character of a
    class. *)
Fixpoint String_split (p : ascii -> bool) (s : string) : list string :=
  match s with
  | EmptyString => [""]
  | String a s' =>
      if p a then "" :: String_split p s'
      else
        match String_split p s' with
        | h :: t => String a h :: t
        | [] => [String a ""]
        end
  end.

(** White space and line terminators below 256, as [trim] strips them. *)
Definition is_white_space (a : ascii) : bool :=
  let n := nat_of_ascii a in
  (Nat.leb 9 n && Nat.leb n 13) || Nat.eqb n 32 || Nat.eqb n 160.

Fixpoint trim_start (s : string) : string :=
  match s with
  | String a s' => if is_white_space a then trim_start s' else s
  | EmptyString => ""
  end.

Fixpoint trim_end (s : string) : string :=
  match s with
  | String a s' =>
      match trim_end s' with
      | EmptyString => if is_white_space a then "" else String a ""
      | t => String a t
      end
  | EmptyString => ""
  end.

Definition String_trim (s : string) : string := trim_end (trim_start s).

(** Character classes. *)
Definition is_char (c : ascii) (a : ascii) : bool := Ascii.eqb a c.

Definition is_word (a : ascii) : bool :=
  let n := nat_of_ascii a in
  (Nat.leb 48 n && Nat.leb n 57) || (Nat.leb 65 n && Nat.leb n 90)
  || (Nat.leb 97 n && Nat.leb n 122) || Nat.eqb n 95.

(** [.] without the [s] flag: anything but a line terminator. *)
Definition is_dot (a : ascii) : bool :=
  let n := nat_of_ascii a in negb (Nat.eqb n 10 || Nat.eqb n 13).

Definition not_slash (a : ascii) : bool := negb (is_char "/" a).

(** ** [extractRepoNameFromUrl] *)

(** The outcome of a call: a value or a thrown [TypeError]. *)
Inductive Completion (A : Type) : Type :=
| Normal (a : A)
| ThrowTypeError.
Arguments ThrowTypeError {A}.

(** [/[?#]/] *)
Definition params_class (a : ascii) : bool := is_char "?" a || is_char "#" a.

(** [/\.git$/] *)
Definition git_suffix_re : regex := Cat (Lit ".git") Eol.

(** [/github\.com\/([^/]+\/[^/]+)/] *)
Definition repo_re : regex :=
  Cat (Lit "github.com/")
      (Capture (Cat (Plus not_slash) (Cat (Lit "/") (Plus not_slash)))).

(** The value returned is a string, or [undefined] ([None]) when group 1
    of a match has not taken part. *)
Definition extractRepoNameFromUrl (url : string) : Completion (option string) :=
  match nth_error (String_split params_class url) 0 with
  | None => ThrowTypeError
  | Some urlWithoutParams =>
      let cleanUrl := String_replace git_suffix_re "" urlWithoutParams in
      match RegExp_exec repo_re cleanUrl with
      | Some m => Normal (cap (final m))
      | None => Normal (Some "")
      end
  end.

(** ** The repository input form *)

(** [/^https?:\/\/(www\.)?github\.com\/[\w-]+\/[\w.-]+\/?.*$/] *)
Definition githubRegex : regex :=
  Cat Bol
 (Cat (Lit "http")
 (Cat (Opt (Lit "s"))
 (Cat (Lit "://")
 (Cat (Opt (Capture (Lit "www.")))
 (Cat (Lit "github.com/")
 (Cat (Plus (fun a => is_word a || is_char "-" a))
 (Cat (Lit "/")
 (Cat (Plus (fun a => is_word a || is_char "." a || is_char "-" a))
 (Cat (Opt (Lit "/"))
 (Cat (Star is_dot)
      Eol)))))))))).

Definition validateUrl (url : string) : bool := RegExp_test githubRegex url.

(** What the handler does to the outside, in order; [Uncaught] is an
    exception that leaves the handler. *)
Inductive Effect : Type :=
| PreventDefault
| ToastError (msg : string)
| ConsoleLog (label : string) (value : string)
| ConsoleError (label : string)
| SetCheckingRepo (b : bool)
| CheckRepoExists (repoName : string)
| OnSubmit (url repoName : string) (repoExists : bool)
| Uncaught.

(** The two asynchronous collaborators: [checkRepoExists] resolves to a
    boolean or rejects ([None]); [onSubmit] resolves or rejects. *)
Record FormEnv : Type := {
  checkRepoExists : string -> option bool;
  onSubmit_resolves : string -> string -> bool -> bool
}.

(** [!s] on a string: only the empty string is falsy. *)
Definition falsy (s : string) : bool :=
  match s with
  | EmptyString => true
  | String _ _ => false
  end.

Definition string_of_bool (b : bool) : string := if b then "true" else "false".

Definition handleSubmit (env : FormEnv) (url : string) : list Effect :=
  PreventDefault ::
  if falsy (String_trim url) then
    [ToastError "Please enter a repository URL"]
  else if negb (validateUrl url) then
    [ToastError "Please enter a valid GitHub repository URL"]
  else
    match extractRepoNameFromUrl url with
    | ThrowTypeError => [Uncaught]
    | Normal repoName =>
        ConsoleLog "Extracted repo name:"
          (match repoName with Some s => s | None => "undefined" end) ::
        match repoName with
        | Some (String a s) =>
            let repoName := String a s in
            SetCheckingRepo true :: CheckRepoExists repoName ::
            match checkRepoExists env repoName with
            | Some exists_ =>
                SetCheckingRepo false ::
                ConsoleLog "Repository exists:" (string_of_bool exists_) ::
                OnSubmit url repoName exists_ ::
                if onSubmit_resolves env url repoName exists_ then []
                else [ConsoleError "Error submitting repository URL:";
                      ToastError "Failed to process repository. Please try again.";
                      SetCheckingRepo false]
            | None =>
                [ConsoleError "Error submitting repository URL:";
                 ToastError "Failed to process repository. Please try again.";
                 SetCheckingRepo false]
            end
        | Some EmptyString | None =>
            [ToastError "Could not extract repository name from URL"]
        end
    end.

(** ** Notions the properties are stated with *)

Section Firsts.
Context {K : Type}.
Variable key_eq_dec : forall a b : K, {a = b} + {a <> b}.

Definition differs (a b : K) : bool :=
  if key_eq_dec a b then false else true.

(** The distinct elements of a list, in the order of their first
    occurrence. *)
Fixpoint firsts (l : list K) : list K :=
  match l with
  | [] => []
  | x :: l' => x :: filter (differs x) (firsts l')
  end.

(** The index of the first occurrence ([length l] when there is none). *)
Fixpoint first_index (x : K) (l : list K) : nat :=
  match l with
  | [] => 0
  | y :: l' => if key_eq_dec x y then 0 else S (first_index x l')
  end.

(** [o[k] = f(o[k])] *)
Definition obj_upsert {V : Type} (k : K) (f : option V -> V)
    (o : JSObject (K:=K) (V:=V)) : JSObject :=
  obj_set key_eq_dec k (f (obj_get key_eq_dec k o)) o.

(** The elements of a list whose key is [k], in list order. *)
Definition with_key {X : Type} (key : X -> K) (k : K) (xs : list X)
    : list X :=
  filter (fun x => if key_eq_dec (key x) k then true else false) xs.

(** One property per distinct key, in the order the keys first occur,
    holding a summary of the elements with that key. *)
Definition grouped {X V : Type} (key : X -> K) (summary : list X -> V)
    (xs : list X) : JSObject (K:=K) (V:=V) :=
  map (fun k => (k, summary (with_key key k xs))) (firsts (map key xs)).
End Firsts.

(** Ascending order of a rank. *)
Definition rank_le {A : Type} (rank : A -> Z) (a b : A) : Prop :=
  (rank a <= rank b)%Z.

(** The commits of a list whose rounded position is [p], in list order. *)
Definition at_position (rounded : Commit -> number) (p : number)
    (commits : list Commit) : list Commit :=
  filter (fun c => number_eqb (rounded c) p) commits.

(** The effective category of section 3: the category of the first
    analysis of the collection the commit carries, [CHORE] without one. *)
Definition effectiveCategory (commit : Commit) : CommitType :=
  match analyses_of commit with
  | a :: _ => type a
  | [] => CHORE
  end.

Definition frequency (t : CommitType) (l : list CommitType) : nat :=
  count_occ CommitType_eq_dec l t.

(** An array index as a number. *)
Definition is_array_index (x : number) : Prop :=
  exists z : Z, (0 <= z < 2 ^ 32 - 1)%Z /\ x = of_Z z.

Definition is_nonnegative_integer (x : number) : Prop :=
  exists z : Z, (0 <= z)%Z /\ x = of_Z z.

(** *** The steps of [extractRepoNameFromUrl], in the words of its
    description *)

Fixpoint take_while (p : ascii -> bool) (s : string) : string :=
  match s with
  | String a s' => if p a then String a (take_while p s') else ""
  | EmptyString => ""
  end.

Fixpoint drop_while (p : ascii -> bool) (s : string) : string :=
  match s with
  | String a s' => if p a then drop_while p s' else s
  | EmptyString => ""
  end.

(** Whether every character of a string is in a class. *)
Fixpoint all_chars (p : ascii -> bool) (s : string) : bool :=
  match s with
  | String a s' => p a && all_chars p s'
  | EmptyString => true
  end.

(** Everything before the first ['?'] or ['#']. *)
Definition before_params (url : string) : string :=
  take_while (fun a => negb (params_class a)) url.

(** [s] without [suffix] at its end, [s] itself when it does not end with
    it. *)
Fixpoint drop_trailing (suffix s : string) : string :=
  if String.eqb s suffix then ""
  else
    match s with
    | String a s' => String a (drop_trailing suffix s')
    | EmptyString => ""
    end.

Definition nonempty (s : string) : bool :=
  match s with
  | String _ _ => true
  | EmptyString => false
  end.

(** The pair [owner/repo] at the start of [s]: a non-empty run without a
    slash, a slash, and the longest non-empty run without a slash. *)
Definition owner_repo (s : string) : option string :=
  let owner := take_while not_slash s in
  match drop_while not_slash s with
  | String _ s2 =>
      let repo := take_while not_slash s2 in
      if nonempty owner && nonempty repo then Some (owner ++ "/" ++ repo)
      else None
  | EmptyString => None
  end.

(** The text after the first occurrence of [github.com/]. *)
Fixpoint after_first_github (s : string) : option string :=
  match strip_prefix "github.com/" s with
  | Some r => Some r
  | None =>
      match s with
      | String _ s' => after_first_github s'
      | EmptyString => None
      end
  end.

(** The name as the description words it: the pair that follows the first
    occurrence of [github.com/], the empty string otherwise. *)
Definition repo_name_after_first_occurrence (url : string) : string :=
  match after_first_github (drop_trailing ".git" (before_params url)) with
  | Some r => match owner_repo r with Some p => p | None => "" end
  | None => ""
  end.

(** The pair that follows the first occurrence of [github.com/] that has
    one. *)
Fixpoint first_github_pair (s : string) : option string :=
  match
    match strip_prefix "github.com/" s with
    | Some r => owner_repo r
    | None => None
    end
  with
  | Some p => Some p
  | None =>
      match s with
      | String _ s' => first_github_pair s'
      | EmptyString => None
      end
  end.

Definition repo_name_of (url : string) : string :=
  match first_github_pair (drop_trailing ".git" (before_params url)) with
  | Some p => p
  | None => ""
  end.

(** Whether the handler reached its [onSubmit] call. *)
Definition is_OnSubmit (e : Effect) : bool :=
  match e with
  | OnSubmit _ _ _ => true
  | _ => false
  end.

Definition calls_onSubmit (trace : list Effect) : bool :=
  existsb is_OnSubmit trace.

(** *** Sample inputs *)

(** A commit dated [d] whose analyses, when it has any, are stored under
    the first of the two names. *)
Definition commit_at (d : Date) (analyses : option (list CommitAnalysis))
    : Commit :=
  {| sha := ""; date := d; author := ""; message := "";
     description := None;
     commit_analyses := analyses; commit_analises := None |}.

Definition analysis_of (t : CommitType) : CommitAnalysis :=
  {| type := t; title := ""; idea := "" |}.

Definition commit_of_type (d : Date) (t : CommitType) : Commit :=
  commit_at d (Some [analysis_of t]).

(** A render pass over the range from [s] to [e]. *)
Definition state_over (s e : Date) (scale : TimeScale) : TimelineState :=
  {| timeScale := scale; groupBy := by_type; selectedCommit := None;
     timeRange := {| range_start := s; range_end := e |};
     hoveredCommit := None; openClusterDialog := false;
     selectedCluster := None |}.

(** Collaborators of the form that accept everything. *)
Definition accepting_env : FormEnv :=
  {| checkRepoExists := fun _ => Some true;
     onSubmit_resolves := fun _ _ _ => true |}.

(** ** The rest of the components *)

(** *** [checkRepoExists]

    The answer of the count query: [count] is a number or [null], [error]
    is [null] or the error of the client. *)
Record CountResponse : Type := {
  count : option Z;
  error : option string
}.

(** The outcome of an asynchronous call: the value the promise resolves
    to, or the reason it rejects with. *)
Inductive Outcome (A : Type) : Type :=
| Resolved (a : A)
| Rejected (reason : string).
Arguments Rejected {A}.

Inductive LogEntry : Type :=
| LogText (label value : string)
| LogCount (label : string) (count : option Z)
| LogError (label error : string).

(** [count !== null && count > 0] *)
Definition count_positive (count : option Z) : bool :=
  match count with
  | Some n => (0 <? n)%Z
  | None => false
  end.

(** The function on the answer [response] of the query for [repoName]:
    what it writes to the console and how its promise settles.  An error
    of the query is thrown inside the [try], caught, logged again and
    thrown again. *)
Definition checkRepoExists_on (repoName : string) (response : CountResponse)
    : list LogEntry * Outcome bool :=
  match error response with
  | Some e =>
      ([LogText "Checking if repo exists:" repoName;
        LogError "Supabase error:" e;
        LogError "Error checking if repo exists:" e],
       Rejected e)
  | None =>
      ([LogText "Checking if repo exists:" repoName;
        LogCount "Repo check result:" (count response)],
       Resolved (count_positive (count response)))
  end.

(** The collaborators of the form when [checkRepoExists] is the function
    above, over a store that answers [query]. *)
Definition supabase_env (query : string -> CountResponse)
    (resolves : string -> string -> bool -> bool) : FormEnv :=
  {| checkRepoExists := fun repoName =>
       match snd (checkRepoExists_on repoName (query repoName)) with
       | Resolved b => Some b
       | Rejected _ => None
       end;
     onSubmit_resolves := resolves |}.

(** *** The tooltip of a single commit *)

(** [a || b] on values that are a string or [undefined]. *)
Definition or_string (a b : option string) : option string :=
  match a with
  | Some (String _ _) => a
  | _ => b
  end.

(** [a || b] on values that are a length or [undefined]. *)
Definition or_length (a b : option nat) : option nat :=
  match a with
  | Some (S _) => a
  | _ => b
  end.

(** [x > 100], false on [undefined]. *)
Definition over_100 (x : option nat) : bool :=
  match x with
  | Some n => Nat.ltb 100 n
  | None => false
  end.

Record Tooltip : Type := {
  tooltip_title : option string;
  tooltip_body : option string;
  tooltip_ellipsis : bool
}.

(** The content of the tooltip in the singleton branch:
    [analysis?.title || commit.message],
    [analysis?.idea || commit.description?.substring(0, 100)] and
    [(analysis?.idea?.length || commit.description?.length) > 100 && '...']. *)
Definition commitTooltip (commit : Commit) : Tooltip :=
  let analyses := analyses_of commit in
  let analysis := nth_error analyses 0 in
  {| tooltip_title :=
       or_string (option_map title analysis) (Some (message commit));
     tooltip_body :=
       or_string (option_map idea analysis)
         (option_map (str_take 100) (description commit));
     tooltip_ellipsis :=
       over_100
         (or_length
            (option_map String.length (option_map idea analysis))
            (option_map String.length (description commit))) |}.

(** The text of the lower part of the tooltip: [undefined] and [false]
    render nothing. *)
Definition tooltip_text (t : Tooltip) : string :=
  match tooltip_body t with Some s => s | None => "" end
  ++ (if tooltip_ellipsis t then "..." else "").

(** *** Markers *)

(** The number of commits a marker stands for: one for a single commit,
    the number of the badge for a cluster. *)
Definition marker_count (m : option Marker) : nat :=
  match m with
  | Some (CommitMarker _ _ _) => 1
  | Some (ClusterMarker _ _ badge) => badge
  | None => 0
  end.

Definition is_index_number (x : number) : bool :=
  match number_array_index x with Some _ => true | None => false end.

(** *** The traces of [handleSubmit] *)

Definition is_ToastError (e : Effect) : bool :=
  match e with
  | ToastError _ => true
  | _ => false
  end.

Definition is_CheckRepoExists (e : Effect) : bool :=
  match e with
  | CheckRepoExists _ => true
  | _ => false
  end.

(** The [checkingRepo] flag after a trace, from [checking] before it. *)
Fixpoint checkingRepo_after (checking : bool) (trace : list Effect) : bool :=
  match trace with
  | [] => checking
  | SetCheckingRepo b :: trace' => checkingRepo_after b trace'
  | _ :: trace' => checkingRepo_after checking trace'
  end.

(** A monitor of the busy flag: [checkRepoExists] is called while the flag
    is set and not again before it is cleared, [onSubmit] is called while
    it is clear, and the flag is clear at the end. *)
Fixpoint busy_protocol (checking : bool) (trace : list Effect) : bool :=
  match trace with
  | [] => negb checking
  | SetCheckingRepo b :: trace' => busy_protocol b trace'
  | CheckRepoExists _ :: trace' => checking && busy_protocol checking trace'
  | OnSubmit _ _ _ :: trace' => negb checking && busy_protocol checking trace'
  | _ :: trace' => busy_protocol checking trace'
  end.

(** *** Acceptance by a regular expression

    The strings a pattern accepts, stated without the matcher: [f] tells
    which index and rest of the input the remainder of the pattern
    accepts. *)

Section Accepts.
Variable f : nat -> string -> bool.

Fixpoint star_accepts (p : ascii -> bool) (i : nat) (s : string) : bool :=
  match s with
  | String a s' => (p a && star_accepts p (S i) s') || f i s
  | EmptyString => f i s
  end.
End Accepts.

Fixpoint accepts (r : regex) (f : nat -> string -> bool) (i : nat) (s : string)
    : bool :=
  match r with
  | Lit l =>
      match strip_prefix l s with
      | Some s' => f (i + String.length l) s'
      | None => false
      end
  | Class p =>
      match s with
      | String a s' => p a && f (S i) s'
      | EmptyString => false
      end
  | Cat r1 r2 => accepts r1 (accepts r2 f) i s
  | Opt r1 => accepts r1 f i s || f i s
  | Star p => star_accepts f p i s
  | Plus p =>
      match s with
      | String a s' => p a && star_accepts f p (S i) s'
      | EmptyString => false
      end
  | Capture r1 => accepts r1 f i s
  | Bol => Nat.eqb i 0 && f i s
  | Eol =>
      match s with
      | EmptyString => f i s
      | String _ _ => false
      end
  end.

(** [[\w-]] and [[\w.-]] *)
Definition owner_class (a : ascii) : bool := is_word a || is_char "-" a.
Definition repo_class (a : ascii) : bool :=
  is_word a || is_char "." a || is_char "-" a.

(** The shape of a URL of a repository: a scheme, an optional [www.], the
    host, an owner of word characters and hyphens, a slash, and a rest
    that starts with a word character, a dot or a hyphen and holds no line
    terminator. *)
Definition repository_url_shape (url : string) : Prop :=
  exists scheme www owner rest,
    url = scheme ++ "://" ++ www ++ "github.com/" ++ owner ++ "/" ++ rest /\
    (scheme = "http" \/ scheme = "https") /\
    (www = "" \/ www = "www.") /\
    owner <> "" /\ all_chars owner_class owner = true /\
    (exists a r, rest = String a r /\ repo_class a = true) /\
    all_chars is_dot rest = true.

(** The start of a repository URL up to the host. *)
Definition url_origin (scheme www : string) : string :=
  scheme ++ "://" ++ www ++ "github.com/".

(** A segment of a path: not empty, without a slash, a question mark or a
    hash. *)
Definition is_segment (s : string) : Prop :=
  s <> "" /\ all_chars not_slash s = true /\
  all_chars (fun a => negb (params_class a)) s = true.

(** Nothing, or a query or fragment. *)
Definition is_params (q : string) : Prop :=
  q = "" \/ exists c r, q = String c r /\ params_class c = true.

(** Whether an optional value is there. *)
Definition is_some {A : Type} (o : option A) : bool :=
  match o with
  | Some _ => true
  | None => false
  end.

(** The host and the path of a repository URL, from the host on. *)
Definition host_path_ok (s : string) : bool :=
  match strip_prefix "github.com/" s with
  | Some r =>
      match drop_while owner_class r with
      | String b rest =>
          nonempty (take_while owner_class r) && is_char "/" b
          && match rest with
             | String a _ => repo_class a
             | EmptyString => false
             end
          && all_chars is_dot rest
      | EmptyString => false
      end
  | None => false
  end.

(** The whole number nearest to a position: of a finite position, the
    integer at most one half away from it, the upper one of two such
    integers; a position that is not finite has itself in place of a
    nearest whole number. *)
Definition nearest_whole (x r : number) : Prop :=
  match x with
  | Finite q =>
      exists z : Z,
        r = of_Z z /\
        (inject_Z z - (1 # 2) <= q)%Q /\ (q < inject_Z z + (1 # 2))%Q
  | other => r = other
  end.

(** The position computed for a commit in a render pass, before it is
    rounded. *)
Definition computedPosition
    (calculateCommitPosition : Date -> Date -> Date -> TimeScale -> number)
    (st : TimelineState) (commit : Commit) : number :=
  calculateCommitPosition
    (date commit)
    (range_start (timeRange st))
    (range_end (timeRange st))
    (timeScale st).

Close Scope string_scope.

(** * Properties *)

(** ** The stable sort *)

Section ArraySortFacts.
Context {A : Type}.
Variable cmp : A -> A -> Z.
Variable rank : A -> Z.
Hypothesis cmp_rank : forall a b, cmp a b = (rank a - rank b)%Z.

Lemma sort_insert_perm (x : A) (l : list A) :
  Permutation (sort_insert cmp x l) (x :: l).
Proof.
  induction l as [ | y l IH]; simpl.
  - apply Permutation_refl.
  - destruct (0 <? cmp x y)%Z.
    + eapply perm_trans; [ apply perm_skip, IH | apply perm_swap ].
    + apply Permutation_refl.
Qed.

Lemma Array_sort_perm (l : list A) : Permutation (Array_sort cmp l) l.
Proof.
  induction l as [ | x l IH]; simpl.
  - constructor.
  - eapply perm_trans; [ apply sort_insert_perm | apply perm_skip, IH ].
Qed.

Lemma sort_insert_sorted (x : A) (l : list A) :
  StronglySorted (rank_le rank) l -> StronglySorted (rank_le rank) (sort_insert cmp x l).
Proof.
  induction 1 as [ | y l Hs IH Hall]; simpl.
  - constructor; constructor.
  - rewrite cmp_rank. destruct (Z.ltb_spec 0 (rank x - rank y)) as [Hlt | Hge].
    + constructor; [ exact IH | ].
      apply Forall_forall. intros z Hz.
      apply (Permutation_in _ (sort_insert_perm x l)) in Hz.
      destruct Hz as [<- | Hz].
      * unfold rank_le. lia.
      * rewrite Forall_forall in Hall. now apply Hall.
    + constructor; [ constructor; assumption | ].
      constructor; [ unfold rank_le; lia | ].
      rewrite Forall_forall in Hall |- *. intros z Hz.
      specialize (Hall z Hz). unfold rank_le in *. lia.
Qed.

Lemma Array_sort_sorted (l : list A) :
  StronglySorted (rank_le rank) (Array_sort cmp l).
Proof.
  induction l as [ | x l IH]; simpl.
  - constructor.
  - now apply sort_insert_sorted.
Qed.

(** Stability at the front: the first element of the sorted array is the
    first element of least rank of the original one. *)
Lemma Array_sort_head (l : list A) :
  l <> [] ->
  exists e s l1 l2,
    Array_sort cmp l = e :: s /\ l = l1 ++ e :: l2 /\
    (forall x, In x l1 -> (rank e < rank x)%Z) /\
    (forall x, In x l2 -> (rank e <= rank x)%Z).
Proof.
  induction l as [ | x l IH]; [ congruence | intros _ ].
  destruct l as [ | y l].
  - exists x, [], [], []. simpl. repeat split; intros ? [].
  - destruct IH as (e & s & l1 & l2 & Hs & Hl & H1 & H2); [ discriminate | ].
    change (Array_sort cmp (x :: y :: l))
      with (sort_insert cmp x (Array_sort cmp (y :: l))).
    rewrite Hs, Hl. simpl. rewrite cmp_rank.
    destruct (Z.ltb_spec 0 (rank x - rank e)) as [Hlt | Hge].
    + exists e, (sort_insert cmp x s), (x :: l1), l2.
      repeat split; auto.
      intros z [<- | Hz]; [ lia | now apply H1 ].
    + exists x, (e :: s), [], (l1 ++ e :: l2).
      repeat split; auto; [ intros ? [] | ].
      intros z Hz. apply in_app_or in Hz.
      destruct Hz as [Hz | [<- | Hz]].
      * specialize (H1 z Hz). lia.
      * lia.
      * specialize (H2 z Hz). lia.
Qed.
End ArraySortFacts.

(** ** First occurrences *)

Section FirstsFacts.
Context {K : Type}.
Variable key_eq_dec : forall a b : K, {a = b} + {a <> b}.

Lemma differs_true (a b : K) : differs key_eq_dec a b = true <-> a <> b.
Proof.
  unfold differs. destruct (key_eq_dec a b); split; congruence.
Qed.

Lemma in_firsts (x : K) (l : list K) :
  In x (firsts key_eq_dec l) <-> In x l.
Proof.
  induction l as [ | y l IH]; simpl; [ tauto | ].
  rewrite filter_In, differs_true, IH.
  destruct (key_eq_dec y x); intuition congruence.
Qed.

Lemma NoDup_firsts (l : list K) : NoDup (firsts key_eq_dec l).
Proof.
  induction l as [ | y l IH]; simpl; constructor.
  - rewrite filter_In, differs_true. tauto.
  - now apply NoDup_filter.
Qed.

Lemma firsts_snoc (l : list K) (k : K) :
  firsts key_eq_dec (l ++ [k]) =
  if in_dec key_eq_dec k l then firsts key_eq_dec l
  else firsts key_eq_dec l ++ [k].
Proof.
  induction l as [ | y l IH]; simpl; [ reflexivity | ].
  rewrite IH.
  destruct (key_eq_dec y k) as [-> | Hne].
  - destruct (in_dec key_eq_dec k l) as [Hin | Hin]; [ reflexivity | ].
    rewrite filter_app. simpl.
    replace (differs key_eq_dec k k) with false; [ now rewrite app_nil_r | ].
    symmetry. apply not_true_is_false. rewrite differs_true. tauto.
  - destruct (in_dec key_eq_dec k l) as [Hin | Hin]; [ reflexivity | ].
    rewrite filter_app. simpl.
    replace (differs key_eq_dec y k) with true; [ reflexivity | ].
    symmetry. now apply differs_true.
Qed.

(** What stands before an element among the first occurrences is all
    that stands before its first occurrence in the list. *)
Lemma firsts_split (l : list K) :
  forall a x b, firsts key_eq_dec l = a ++ x :: b ->
  exists pre post,
    l = pre ++ x :: post /\ ~ In x pre /\ forall y, In y pre -> In y a.
Proof.
  induction l as [ | z l IH] using rev_ind; intros a x b Heq.
  - destruct a; discriminate.
  - rewrite firsts_snoc in Heq.
    destruct (in_dec key_eq_dec z l) as [Hin | Hin].
    + destruct (IH _ _ _ Heq) as (pre & post & -> & Hpre & Hsub).
      exists pre, (post ++ [z]). rewrite <- app_assoc. auto.
    + destruct b as [ | b0 b _] using rev_ind.
      * apply app_inj_tail in Heq. destruct Heq as [Ha ->].
        exists l, []. repeat split; auto.
        intros y Hy. rewrite <- Ha. now apply in_firsts.
      * change (a ++ x :: b ++ [b0]) with (a ++ (x :: b) ++ [b0]) in Heq.
        rewrite app_assoc in Heq.
        apply app_inj_tail in Heq. destruct Heq as [Heq _].
        destruct (IH _ _ _ Heq) as (pre & post & -> & Hpre & Hsub).
        exists pre, (post ++ [z]). rewrite <- app_assoc. auto.
Qed.
End FirstsFacts.

(** ** Objects built by inserting or updating one property at a time *)

Section ObjectFacts.
Context {K V : Type}.
Variable key_eq_dec : forall a b : K, {a = b} + {a <> b}.

Lemma obj_get_table (g : K -> V) (k : K) (ks : list K) :
  obj_get key_eq_dec k (map (fun k' => (k', g k')) ks) =
  if in_dec key_eq_dec k ks then Some (g k) else None.
Proof.
  induction ks as [ | k' ks IH]; simpl; [ reflexivity | ].
  destruct (key_eq_dec k k') as [-> | Hne].
  - destruct (key_eq_dec k' k'); [ reflexivity | congruence ].
  - rewrite IH. destruct (key_eq_dec k' k); [ congruence | ].
    destruct (in_dec key_eq_dec k ks); reflexivity.
Qed.

Lemma obj_set_table_new (g : K -> V) (k : K) (v : V) (ks : list K) :
  ~ In k ks ->
  obj_set key_eq_dec k v (map (fun k' => (k', g k')) ks) =
  map (fun k' => (k', g k')) ks ++ [(k, v)].
Proof.
  induction ks as [ | k' ks IH]; simpl; intros Hin; [ reflexivity | ].
  destruct (key_eq_dec k k') as [-> | Hne]; [ tauto | ].
  rewrite IH; tauto.
Qed.

Lemma obj_set_table_old (g : K -> V) (k : K) (v : V) (ks : list K) :
  NoDup ks -> In k ks ->
  obj_set key_eq_dec k v (map (fun k' => (k', g k')) ks) =
  map (fun k' => (k', if key_eq_dec k k' then v else g k')) ks.
Proof.
  induction 1 as [ | k' ks Hk' Hnd IH]; simpl; intros Hin; [ tauto | ].
  destruct (key_eq_dec k k') as [-> | Hne].
  - f_equal. apply map_ext_in. intros a Ha.
    destruct (key_eq_dec k' a); congruence.
  - rewrite IH; [ reflexivity | intuition congruence ].
Qed.

Lemma obj_mutate_set (k : K) (f : V -> V) (o : JSObject) :
  obj_mutate key_eq_dec k f o =
  match obj_get key_eq_dec k o with
  | Some v => obj_set key_eq_dec k (f v) o
  | None => o
  end.
Proof.
  induction o as [ | [k' v] o IH]; simpl; [ reflexivity | ].
  destruct (key_eq_dec k k'); [ reflexivity | ].
  rewrite IH. destruct (obj_get key_eq_dec k o); reflexivity.
Qed.

Lemma obj_get_set_same (k : K) (v : V) (o : JSObject) :
  obj_get key_eq_dec k (obj_set key_eq_dec k v o) = Some v.
Proof.
  induction o as [ | [k' v'] o IH]; simpl.
  - destruct (key_eq_dec k k); congruence.
  - destruct (key_eq_dec k k') as [-> | Hne]; simpl.
    + destruct (key_eq_dec k' k'); congruence.
    + destruct (key_eq_dec k k'); congruence.
Qed.

Lemma obj_set_set (k : K) (v w : V) (o : JSObject) :
  obj_set key_eq_dec k w (obj_set key_eq_dec k v o) = obj_set key_eq_dec k w o.
Proof.
  induction o as [ | [k' v'] o IH]; simpl.
  - destruct (key_eq_dec k k); congruence.
  - destruct (key_eq_dec k k') as [-> | Hne]; simpl.
    + destruct (key_eq_dec k' k'); congruence.
    + destruct (key_eq_dec k k'); congruence.
Qed.

(** Grouping: a fold that updates the property named by the key of each
    element yields [grouped]. *)
Section Grouping.
Context {X : Type}.
Variable key : X -> K.
Variable upd : option V -> X -> V.
Variable summary : list X -> V.
Hypothesis upd_first : forall x, upd None x = summary [x].
Hypothesis upd_next :
  forall l x, upd (Some (summary l)) x = summary (l ++ [x]).

Lemma with_key_none (k : K) (xs : list X) :
  ~ In k (map key xs) -> with_key key_eq_dec key k xs = [].
Proof.
  induction xs as [ | x xs IH]; simpl; intros Hin; [ reflexivity | ].
  destruct (key_eq_dec (key x) k); [ tauto | apply IH; tauto ].
Qed.

Lemma with_key_snoc (k : K) (xs : list X) (x : X) :
  with_key key_eq_dec key k (xs ++ [x]) =
  with_key key_eq_dec key k xs
    ++ (if key_eq_dec (key x) k then [x] else []).
Proof.
  unfold with_key. rewrite filter_app. simpl.
  destruct (key_eq_dec (key x) k); reflexivity.
Qed.

Lemma grouped_snoc (xs : list X) (x : X) :
  obj_upsert key_eq_dec (key x) (fun old => upd old x)
    (grouped key_eq_dec key summary xs)
  = grouped key_eq_dec key summary (xs ++ [x]).
Proof.
  unfold obj_upsert, grouped.
  rewrite obj_get_table, map_app.
  change (map key [x]) with [key x]. rewrite firsts_snoc.
  destruct (in_dec key_eq_dec (key x) (firsts key_eq_dec (map key xs)))
    as [Hin | Hin];
    destruct (in_dec key_eq_dec (key x) (map key xs)) as [Hin' | Hin'];
    try (rewrite in_firsts in Hin; tauto).
  - rewrite obj_set_table_old; [ | apply NoDup_firsts | exact Hin ].
    apply map_ext. intros k. f_equal. rewrite with_key_snoc.
    destruct (key_eq_dec (key x) k) as [<- | Hne].
    + apply upd_next.
    + now rewrite app_nil_r.
  - rewrite obj_set_table_new by exact Hin.
    rewrite map_app. simpl. f_equal.
    + apply map_ext_in. intros k Hk. f_equal. rewrite with_key_snoc.
      destruct (key_eq_dec (key x) k) as [<- | Hne]; [ tauto | ].
      now rewrite app_nil_r.
    + f_equal. f_equal. rewrite upd_first, with_key_snoc.
      rewrite (with_key_none _ _ Hin'). simpl.
      destruct (key_eq_dec (key x) (key x)); congruence.
Qed.

Lemma fold_grouped (xs pre : list X) :
  fold_left
    (fun o x => obj_upsert key_eq_dec (key x) (fun old => upd old x) o)
    xs (grouped key_eq_dec key summary pre)
  = grouped key_eq_dec key summary (pre ++ xs).
Proof.
  revert pre. induction xs as [ | x xs IH]; intros pre; simpl.
  - now rewrite app_nil_r.
  - rewrite grouped_snoc, IH, <- app_assoc. reflexivity.
Qed.
End Grouping.
End ObjectFacts.

(** ** Enumeration of the properties of an object *)

Section EntriesFacts.
Context {K V : Type}.
Variable array_index : K -> option Z.

Lemma filter_split_perm (A : Type) (p : A -> bool) (l : list A) :
  Permutation (filter p l ++ filter (fun x => negb (p x)) l) l.
Proof.
  induction l as [ | x l IH]; simpl; [ constructor | ].
  destruct (p x); simpl.
  - now apply perm_skip.
  - apply Permutation_sym, Permutation_cons_app, Permutation_sym, IH.
Qed.

Lemma Object_entries_perm (o : JSObject (K:=K) (V:=V)) :
  Permutation (Object_entries array_index o) o.
Proof.
  unfold Object_entries.
  eapply perm_trans; [ | apply filter_split_perm with (p := is_index array_index) ].
  apply Permutation_app_tail, Array_sort_perm.
Qed.

Lemma in_Object_entries (e : K * V) (o : JSObject) :
  In e (Object_entries array_index o) <-> In e o.
Proof.
  split; apply Permutation_in;
    [ | apply Permutation_sym ]; apply Object_entries_perm.
Qed.

Lemma Object_entries_all_indices (o : JSObject (K:=K) (V:=V)) :
  (forall e, In e o -> is_index array_index e = true) ->
  Object_entries array_index o = Array_sort (index_cmp array_index) o.
Proof.
  intros Hall. unfold Object_entries.
  assert (Hf : filter (is_index array_index) o = o).
  { apply forallb_filter_id, forallb_forall, Hall. }
  assert (Hn : filter (fun e => negb (is_index array_index e)) o = []).
  { clear Hf. induction o as [ | e o IH]; simpl; [ reflexivity | ].
    rewrite (Hall e (or_introl eq_refl)). simpl.
    apply IH. intros e' He'. apply Hall. now right. }
  now rewrite Hf, Hn, app_nil_r.
Qed.

Lemma Object_entries_no_index (o : JSObject (K:=K) (V:=V)) :
  (forall k, array_index k = None) -> Object_entries array_index o = o.
Proof.
  intros Hnone. unfold Object_entries.
  assert (Hf : filter (is_index array_index) o = []).
  { induction o as [ | e o IH]; simpl; [ reflexivity | ].
    unfold is_index at 1. now rewrite Hnone. }
  rewrite Hf. simpl.
  induction o as [ | e o IH]; simpl; [ reflexivity | ].
  unfold is_index at 1. rewrite Hnone. simpl. f_equal. apply IH.
  simpl in Hf. unfold is_index at 1 in Hf. now rewrite Hnone in Hf.
Qed.
End EntriesFacts.

Lemma flat_map_perm (A B : Type) (f : A -> list B) (l l' : list A) :
  Permutation l l' -> Permutation (flat_map f l) (flat_map f l').
Proof.
  induction 1 as [ | x l l' _ IH | x y l | l l' l'' _ IH1 _ IH2]; simpl.
  - constructor.
  - now apply Permutation_app_head.
  - rewrite !app_assoc. apply Permutation_app_tail, Permutation_app_comm.
  - eapply perm_trans; eassumption.
Qed.

Lemma fold_left_ext_fun (A B : Type) (f g : A -> B -> A) (l : list B) (a : A) :
  (forall x y, f x y = g x y) -> fold_left f l a = fold_left g l a.
Proof.
  intros Hfg. revert a. induction l as [ | y l IH]; intros a; simpl.
  - reflexivity.
  - now rewrite Hfg, IH.
Qed.

(** ** The position map of [clusterCommits] *)

Section ClusterFacts.
Variable calculateCommitPosition : Date -> Date -> Date -> TimeScale -> number.
Variable st : TimelineState.

(** The bucket exists when the [push] runs, so the [push] never meets
    [undefined]. *)
Lemma cluster_step_bucket_exists (o : @JSObject number (list Commit)) (c : Commit) :
  let k := roundedPosition calculateCommitPosition st c in
  obj_get number_eq_dec k
    (match obj_get number_eq_dec k o with
     | None => obj_set number_eq_dec k [] o
     | Some _ => o
     end) <> None.
Proof.
  simpl. destruct (obj_get number_eq_dec _ o) eqn:E.
  - rewrite E. discriminate.
  - rewrite obj_get_set_same. discriminate.
Qed.

Lemma cluster_step_upsert (o : @JSObject number (list Commit)) (c : Commit) :
  cluster_step calculateCommitPosition st o c =
  obj_upsert number_eq_dec (roundedPosition calculateCommitPosition st c)
    (fun old => match old with Some a => a ++ [c] | None => [c] end) o.
Proof.
  unfold cluster_step, obj_upsert. rewrite obj_mutate_set.
  destruct (obj_get number_eq_dec _ o) eqn:E.
  - now rewrite E.
  - now rewrite obj_get_set_same, obj_set_set.
Qed.

(** The map after the loop: one bucket per distinct rounded position, in
    the order the positions first occur, holding the commits of that
    position in input order. *)
Lemma positionMap_of_grouped (cs : list Commit) :
  positionMap_of calculateCommitPosition st cs =
  grouped number_eq_dec (roundedPosition calculateCommitPosition st)
    (fun l => l) cs.
Proof.
  unfold positionMap_of.
  rewrite fold_left_ext_fun with (g := fun o x =>
    obj_upsert number_eq_dec (roundedPosition calculateCommitPosition st x)
      (fun old => match old with Some a => a ++ [x] | None => [x] end) o)
    by apply cluster_step_upsert.
  pose proof (fold_grouped number_eq_dec
                (roundedPosition calculateCommitPosition st)
                (fun old x =>
                   match old with Some a => a ++ [x] | None => [x] end)
                (fun l => l)) as H.
  exact (H (fun _ => eq_refl) (fun _ _ => eq_refl) cs []).
Qed.

Lemma in_at_position (c : Commit) (k : number) (cs : list Commit) :
  In c (at_position (roundedPosition calculateCommitPosition st) k cs) <->
  In c cs /\ roundedPosition calculateCommitPosition st c = k.
Proof.
  unfold at_position, number_eqb. rewrite filter_In.
  destruct (number_eq_dec _ k); intuition congruence.
Qed.

(** The clusters are exactly the buckets of the rounded positions that
    occur. *)
Lemma in_clusterCommits (cs : list Commit) (g : string) (cl : ClusteredCommit) :
  In cl (clusterCommits calculateCommitPosition st cs g) <->
  In (position cl) (map (roundedPosition calculateCommitPosition st) cs) /\
  commits cl =
    at_position (roundedPosition calculateCommitPosition st) (position cl) cs.
Proof.
  unfold clusterCommits. rewrite in_map_iff. split.
  - intros ([k v] & <- & Hin). simpl.
    rewrite in_Object_entries, positionMap_of_grouped in Hin.
    unfold grouped in Hin. rewrite in_map_iff in Hin.
    destruct Hin as (k' & Heq & Hk'). injection Heq as -> <-.
    rewrite in_firsts in Hk'. split; [ exact Hk' | reflexivity ].
  - intros [Hpos Hcs]. exists (position cl, commits cl). split.
    + destruct cl; reflexivity.
    + rewrite in_Object_entries, positionMap_of_grouped.
      unfold grouped. rewrite in_map_iff. exists (position cl). split.
      * now rewrite Hcs.
      * now apply in_firsts.
Qed.

Lemma clusterCommits_positions (cs : list Commit) (g : string) :
  Permutation
    (map position (clusterCommits calculateCommitPosition st cs g))
    (firsts number_eq_dec
       (map (roundedPosition calculateCommitPosition st) cs)).
Proof.
  unfold clusterCommits. rewrite map_map.
  eapply perm_trans.
  - apply Permutation_map, Object_entries_perm.
  - rewrite positionMap_of_grouped. unfold grouped. rewrite map_map. simpl.
    rewrite map_id. apply Permutation_refl.
Qed.

Lemma grouped_members_perm (cs : list Commit) :
  Permutation
    (flat_map snd
       (fold_left (cluster_step calculateCommitPosition st) cs []))
    cs.
Proof.
  assert (H : forall o : @JSObject number (list Commit),
             Permutation
               (flat_map snd
                  (fold_left (cluster_step calculateCommitPosition st) cs o))
               (flat_map snd o ++ cs)).
  { induction cs as [ | c cs IH]; intros o; simpl.
    - now rewrite app_nil_r.
    - eapply perm_trans; [ apply IH | ].
      change (c :: cs) with ([c] ++ cs). rewrite app_assoc.
      apply Permutation_app_tail.
      rewrite cluster_step_upsert. unfold obj_upsert.
      generalize (roundedPosition calculateCommitPosition st c). intros k.
      induction o as [ | [k' v] o IHo]; simpl.
      + constructor; constructor.
      + destruct (number_eq_dec k k') as [-> | Hne]; simpl.
        * rewrite <- !app_assoc. apply Permutation_app_head.
          apply Permutation_app_comm.
        * rewrite <- app_assoc. apply Permutation_app_head, IHo. }
  apply (H []).
Qed.
End ClusterFacts.

(** ** Clustering *)

Lemma flat_map_clusters (l : list (number * list Commit)) :
  flat_map commits
    (map (fun entry : number * list Commit =>
            let '(pos, groupedCommits) := entry in
            {| position := Number pos; commits := groupedCommits |}) l)
  = flat_map snd l.
Proof.
  induction l as [ | [k v] l IH]; simpl; [ reflexivity | now rewrite IH ].
Qed.

Lemma length_flat_map_commits (l : list ClusteredCommit) :
  List.length (flat_map commits l)
  = list_sum (map (fun cl => List.length (commits cl)) l).
Proof.
  induction l as [ | cl l IH]; simpl; [ reflexivity | ].
  now rewrite length_app, IH.
Qed.

(** C1 - Clustering conservation: for every list of commits given to
    [clusterCommits], the member counts of the returned clusters add up to
    the length of the list, the members of all clusters together are the
    input commits (each as often as it was given), no two clusters have the
    same position, and every input commit is a member of exactly one
    cluster. *)
Theorem clusterCommits_conservation :
  forall (calculateCommitPosition : Date -> Date -> Date -> TimeScale -> number)
         (st : TimelineState) (cs : list Commit) (groupName : string),
    let clusters := clusterCommits calculateCommitPosition st cs groupName in
    list_sum (map (fun cl => List.length (commits cl)) clusters)
      = List.length cs /\
    Permutation (flat_map commits clusters) cs /\
    NoDup (map position clusters) /\
    forall c, In c cs ->
      exists cl, In cl clusters /\ In c (commits cl) /\
        forall cl', In cl' clusters -> In c (commits cl') -> cl' = cl.
Proof.
  intros calc st cs g clusters.
  assert (Hperm : Permutation (flat_map commits clusters) cs).
  { unfold clusters, clusterCommits. rewrite flat_map_clusters.
    eapply perm_trans; [ apply flat_map_perm, Object_entries_perm | ].
    apply grouped_members_perm. }
  split; [ | split; [ exact Hperm | split ] ].
  - rewrite <- length_flat_map_commits. now apply Permutation_length.
  - eapply Permutation_NoDup.
    + apply Permutation_sym, clusterCommits_positions.
    + apply NoDup_firsts.
  - intros c Hc.
    exists {| position := roundedPosition calc st c;
              commits := at_position (roundedPosition calc st)
                           (roundedPosition calc st c) cs |}.
    split; [ | split ].
    + apply in_clusterCommits. simpl. split; [ now apply in_map | reflexivity ].
    + simpl. apply in_at_position. auto.
    + intros cl' Hcl' Hin. apply in_clusterCommits in Hcl'.
      destruct Hcl' as [_ Hmem]. rewrite Hmem in Hin.
      apply in_at_position in Hin. destruct Hin as [_ Hpos].
      destruct cl' as [p m]. simpl in *. now subst.
Qed.

(** [Math.round] gives the nearest whole number, and nothing else is
    one. *)
Lemma Math_round_nearest (x r : number) :
  Math_round x = r <-> nearest_whole x r.
Proof.
  destruct x as [ | | | q]; cbn [Math_round nearest_whole];
    try (split; congruence).
  pose proof (Qfloor_le (q + (1 # 2))) as Hlo.
  pose proof (Qlt_floor (q + (1 # 2))) as Hhi.
  rewrite inject_Z_plus in Hhi. change (inject_Z 1) with 1%Q in Hhi.
  split.
  - intros <-. exists (Qfloor (q + (1 # 2))). split; [ reflexivity | ].
    split; lra.
  - intros (z & -> & Hz1 & Hz2). f_equal.
    assert (Hle : (z <= Qfloor (q + (1 # 2)))%Z).
    { rewrite <- (Qfloor_Z z). apply Qfloor_resp_le. lra. }
    assert (Hlt : (Qfloor (q + (1 # 2)) < z + 1)%Z).
    { rewrite Zlt_Qlt, inject_Z_plus. change (inject_Z 1) with 1%Q. lra. }
    lia.
Qed.

Lemma roundedPosition_nearest
    (calculateCommitPosition : Date -> Date -> Date -> TimeScale -> number)
    (st : TimelineState) (c : Commit) (r : number) :
  roundedPosition calculateCommitPosition st c = r <->
  nearest_whole (computedPosition calculateCommitPosition st c) r.
Proof. apply Math_round_nearest. Qed.

(** C2 - Collision bucketing: two commits of the input list are members of
    a common cluster exactly when the whole number nearest to the computed
    position is the same for both; the position of a cluster is the whole
    number nearest to the computed position of each of its members; and
    the members of a cluster are the input commits whose position rounds
    to the position of the cluster, in the order of the input list. *)
Theorem clusterCommits_bucketing :
  forall (calculateCommitPosition : Date -> Date -> Date -> TimeScale -> number)
         (st : TimelineState) (cs : list Commit) (groupName : string),
    let clusters := clusterCommits calculateCommitPosition st cs groupName in
    let computed := computedPosition calculateCommitPosition st in
    (forall c1 c2, In c1 cs -> In c2 cs ->
       ((exists cl, In cl clusters /\ In c1 (commits cl) /\ In c2 (commits cl))
        <-> exists r, nearest_whole (computed c1) r /\
                      nearest_whole (computed c2) r)) /\
    (forall cl, In cl clusters ->
       (forall c, In c (commits cl) ->
          nearest_whole (computed c) (position cl)) /\
       (exists keep : Commit -> bool,
          commits cl = filter keep cs /\
          forall c, keep c = true <->
                    nearest_whole (computed c) (position cl)) /\
       commits cl <> []).
Proof.
  intros calc st cs g clusters computed. subst clusters computed. split.
  - intros c1 c2 H1 H2. split.
    + intros (cl & Hcl & Hc1 & Hc2). apply in_clusterCommits in Hcl.
      destruct Hcl as [_ Hmem]. rewrite Hmem in Hc1, Hc2.
      apply in_at_position in Hc1, Hc2.
      exists (position cl). split; apply roundedPosition_nearest; tauto.
    + intros (r & Hr1 & Hr2).
      apply roundedPosition_nearest in Hr1, Hr2.
      exists {| position := r;
                commits := at_position (roundedPosition calc st) r cs |}.
      split; [ | split ].
      * apply in_clusterCommits. simpl. split; [ | reflexivity ].
        rewrite <- Hr1. now apply in_map.
      * simpl. apply in_at_position. auto.
      * simpl. apply in_at_position. auto.
  - intros cl Hcl. apply in_clusterCommits in Hcl. destruct Hcl as [Hpos Hmem].
    split; [ | split ].
    + intros c Hc. rewrite Hmem in Hc. apply in_at_position in Hc.
      apply roundedPosition_nearest. tauto.
    + exists (fun c => number_eqb (roundedPosition calc st c) (position cl)).
      split; [ exact Hmem | ]. intros c.
      rewrite <- roundedPosition_nearest. unfold number_eqb.
      destruct (number_eq_dec (roundedPosition calc st c) (position cl));
        split; congruence.
    + apply in_map_iff in Hpos. destruct Hpos as (c & Hc & Hin).
      assert (Hmember : In c (commits cl)).
      { rewrite Hmem. apply in_at_position. auto. }
      intros Hnil. rewrite Hnil in Hmember. exact Hmember.
Qed.

(** [clusterCommits] reads the render state through the time range and
    the time scale only, and does not read the group name. *)
Lemma clusterCommits_same_inputs :
  forall (calculateCommitPosition : Date -> Date -> Date -> TimeScale -> number)
         (st1 st2 : TimelineState) (cs : list Commit) (g1 g2 : string),
    timeRange st1 = timeRange st2 ->
    timeScale st1 = timeScale st2 ->
    clusterCommits calculateCommitPosition st1 cs g1
    = clusterCommits calculateCommitPosition st2 cs g2.
Proof.
  intros calc st1 st2 cs g1 g2 Hrange Hscale.
  unfold clusterCommits, positionMap_of. f_equal. f_equal.
  apply fold_left_ext_fun. intros o c.
  unfold cluster_step, roundedPosition. now rewrite Hrange, Hscale.
Qed.

(** ** [clusterCommits] on the store *)

Lemma nth_error_heap_update_same (h : list HeapObject) (l : loc) (o : HeapObject) :
  l < List.length h -> nth_error (heap_update h l o) l = Some o.
Proof.
  revert l. induction h as [ | x h IH]; intros [ | l]; simpl; intros Hl;
    try lia; [ reflexivity | apply IH; lia ].
Qed.

Lemma nth_error_heap_update_other (h : list HeapObject) (l l' : loc) (o : HeapObject) :
  l <> l' -> nth_error (heap_update h l o) l' = nth_error h l'.
Proof.
  revert l l'. induction h as [ | x h IH]; intros [ | l] [ | l'] Hne; simpl;
    try reflexivity; try congruence.
  apply IH. congruence.
Qed.

Lemma nth_error_in_heap (h : list HeapObject) (l : loc) (o : HeapObject) :
  nth_error h l = Some o -> l < List.length h.
Proof. intros H. apply nth_error_Some. congruence. Qed.

Lemma read_commits_keeps (h h' : list HeapObject) (ls : list loc) (cs : list Commit) :
  keeps_commits h h' ->
  read_commits h ls = Some cs -> read_commits h' ls = Some cs.
Proof.
  intros Hk. revert cs. induction ls as [ | l ls IH]; simpl; intros cs H;
    [ exact H | ].
  unfold read_commit in *.
  destruct (nth_error h l) as [ [c | | ] | ] eqn:Hl; try discriminate.
  rewrite (Hk _ _ Hl).
  destruct (read_commits h ls) as [cs' | ]; [ | discriminate ].
  now rewrite (IH cs' eq_refl).
Qed.

Lemma read_commits_snoc (h : list HeapObject) (ls : list loc) (l : loc)
    (cs : list Commit) (c : Commit) :
  read_commits h ls = Some cs -> read_commit h l = Some c ->
  read_commits h (ls ++ [l]) = Some (cs ++ [c]).
Proof.
  revert cs. induction ls as [ | l' ls IH]; simpl; intros cs H Hl.
  - injection H as <-. now rewrite Hl.
  - destruct (read_commit h l') as [c' | ]; [ | discriminate ].
    destruct (read_commits h ls) as [cs' | ]; [ | discriminate ].
    injection H as <-. now rewrite (IH cs' eq_refl Hl).
Qed.

Lemma keeps_commits_of_keeps (h h' : list HeapObject) :
  keeps h h' -> keeps_commits h h'.
Proof. intros H l c. apply H. Qed.

Lemma keeps_app (h : list HeapObject) (fresh : list HeapObject) :
  keeps h (h ++ fresh).
Proof.
  intros l o H. rewrite nth_error_app1; [ exact H | ].
  now apply nth_error_in_heap with o.
Qed.

Lemma keeps_trans (h1 h2 h3 : list HeapObject) :
  keeps h1 h2 -> keeps h2 h3 -> keeps h1 h3.
Proof. intros H12 H23 l o H. auto. Qed.

(** Writing an array or a record over an object that is not a commit
    keeps the commits. *)
Lemma keeps_commits_update (h : list HeapObject) (x : loc) (o : HeapObject) :
  (forall c, nth_error h x <> Some (CommitObject c)) ->
  keeps_commits h (heap_update h x o).
Proof.
  intros Hx l c Hl. rewrite nth_error_heap_update_other; [ exact Hl | ].
  intros ->. exact (Hx c Hl).
Qed.

Lemma bucket_holds_keeps (h h' : list HeapObject)
    (m : @JSObject number loc) (pm : @JSObject number (list Commit)) :
  keeps_commits h h' ->
  (forall e, In e m -> nth_error h' (snd e) = nth_error h (snd e)) ->
  Forall2 (bucket_holds h) m pm -> Forall2 (bucket_holds h') m pm.
Proof.
  intros Hk Hsame HF. induction HF as [ | e1 e2 m pm [Hkey Hread] HF IH].
  - constructor.
  - constructor.
    + split; [ exact Hkey | ]. unfold read_array in *.
      rewrite (Hsame e1 (or_introl eq_refl)).
      destruct (nth_error h (snd e1)) as [ [ | els | ] | ]; try discriminate.
      now apply read_commits_keeps with h.
    + apply IH. intros e He. apply Hsame. now right.
Qed.

Lemma bucket_in_heap (h : list HeapObject)
    (m : @JSObject number loc) (pm : @JSObject number (list Commit)) :
  Forall2 (bucket_holds h) m pm ->
  forall e, In e m ->
    exists els, nth_error h (snd e) = Some (ArrayObject els).
Proof.
  intros HF. induction HF as [ | e1 e2 m pm [Hkey Hread] HF IH];
    intros e He; [ contradiction | ].
  destruct He as [<- | He]; [ | auto ].
  unfold read_array in Hread.
  destruct (nth_error h (snd e1)) as [ [ | els | ] | ]; try discriminate.
  now exists els.
Qed.

(** The two maps have the same keys, and a lookup in the one finds the
    array of the commits that the lookup in the other finds. *)
Lemma bucket_holds_get (h : list HeapObject) (r : number)
    (m : @JSObject number loc) (pm : @JSObject number (list Commit)) :
  Forall2 (bucket_holds h) m pm ->
  match obj_get number_eq_dec r m, obj_get number_eq_dec r pm with
  | None, None => True
  | Some b, Some cs => In b (map snd m) /\ read_array h b = Some cs
  | _, _ => False
  end.
Proof.
  intros HF.
  induction HF as [ | [k1 b1] [k2 cs2] m pm [Hkey Hread] HF IH]; simpl;
    [ exact I | ].
  simpl in Hkey, Hread. subst k2.
  destruct (number_eq_dec r k1); [ auto | ].
  destruct (obj_get number_eq_dec r m), (obj_get number_eq_dec r pm);
    try exact IH. split; [ right | ]; apply IH.
Qed.

Lemma obj_set_absent (K V : Type) (eq_dec : forall a b : K, {a = b} + {a <> b})
    (k : K) (v : V) (o : @JSObject K V) :
  obj_get eq_dec k o = None -> obj_set eq_dec k v o = o ++ [(k, v)].
Proof.
  induction o as [ | [k' v'] o IH]; simpl; [ reflexivity | ].
  destruct (eq_dec k k'); [ discriminate | ].
  intros H. now rewrite IH.
Qed.

Lemma obj_get_snoc_absent (K V : Type) (eq_dec : forall a b : K, {a = b} + {a <> b})
    (k : K) (v : V) (o : @JSObject K V) :
  obj_get eq_dec k o = None -> obj_get eq_dec k (o ++ [(k, v)]) = Some v.
Proof.
  induction o as [ | [k' v'] o IH]; simpl.
  - destruct (eq_dec k k); [ reflexivity | congruence ].
  - destruct (eq_dec k k'); [ discriminate | exact IH ].
Qed.

(** Appending a commit to the array of one bucket: the other buckets are
    other arrays, and hold what they held. *)
Lemma bucket_holds_push (h : list HeapObject) (r : number) (b cl : loc)
    (els : list loc) (c : Commit)
    (m : @JSObject number loc) (pm : @JSObject number (list Commit)) :
  Forall2 (bucket_holds h) m pm ->
  NoDup (map snd m) ->
  obj_get number_eq_dec r m = Some b ->
  nth_error h b = Some (ArrayObject els) ->
  read_commit h cl = Some c ->
  Forall2 (bucket_holds (heap_update h b (ArrayObject (els ++ [cl]))))
    m (obj_mutate number_eq_dec r (fun a => a ++ [c]) pm).
Proof.
  intros HF Hnd Hget Hb Hcl.
  assert (Hk : keeps_commits h (heap_update h b (ArrayObject (els ++ [cl])))).
  { apply keeps_commits_update. intros c'. congruence. }
  induction HF as [ | [k1 b1] [k2 cs2] m pm [Hkey Hread] HF IH]; simpl;
    [ constructor | ].
  simpl in Hkey, Hread, Hget, Hnd. subst k2. inversion Hnd as [ | ? ? Hnot Hnd']; subst.
  destruct (number_eq_dec r k1) as [-> | Hne].
  - injection Hget as ->. constructor.
    + split; [ reflexivity | ]. simpl. unfold read_array in *.
      rewrite nth_error_heap_update_same by (now apply nth_error_in_heap with (ArrayObject els)).
      rewrite Hb in Hread.
      apply read_commits_snoc.
      * now apply read_commits_keeps with h.
      * unfold read_commit in *.
        destruct (nth_error h cl) as [ [c' | | ] | ] eqn:Hl; try discriminate.
        now rewrite (Hk _ _ Hl).
    + apply bucket_holds_keeps with h; [ exact Hk | | exact HF ].
      intros e He. apply nth_error_heap_update_other.
      intros ->. apply Hnot. now apply in_map.
  - assert (Hin : In b (map snd m)).
    { pose proof (bucket_holds_get r HF) as Hg. rewrite Hget in Hg.
      destruct (obj_get number_eq_dec r pm); [ apply Hg | contradiction ]. }
    constructor.
    + split; [ reflexivity | ]. simpl. unfold read_array in *.
      rewrite nth_error_heap_update_other by (intros ->; contradiction).
      destruct (nth_error h b1) as [ [ | els1 | ] | ]; try discriminate.
      now apply read_commits_keeps with h.
    + now apply IH.
Qed.

(** Related lists stay related through [filter], a stable sort and
    [Object.entries], when the tests and the comparisons agree on related
    elements. *)
Section Related.
Variables A B : Type.
Variable R : A -> B -> Prop.

Lemma Forall2_filter (p : A -> bool) (q : B -> bool) (l : list A) (l' : list B) :
  (forall x y, R x y -> p x = q y) ->
  Forall2 R l l' -> Forall2 R (filter p l) (filter q l').
Proof.
  intros Hpq HF. induction HF as [ | x y l l' Hxy HF IH]; simpl;
    [ constructor | ].
  rewrite <- (Hpq x y Hxy). destruct (p x); [ constructor | ]; assumption.
Qed.

Variable cmp : A -> A -> Z.
Variable cmp' : B -> B -> Z.
Hypothesis cmp_related :
  forall x y x' y', R x x' -> R y y' -> cmp x y = cmp' x' y'.

Lemma Forall2_sort_insert (x : A) (x' : B) (l : list A) (l' : list B) :
  R x x' -> Forall2 R l l' ->
  Forall2 R (sort_insert cmp x l) (sort_insert cmp' x' l').
Proof.
  intros Hx HF. induction HF as [ | y y' l l' Hy HF IH]; simpl.
  - constructor; [ assumption | constructor ].
  - rewrite <- (cmp_related Hx Hy).
    destruct (0 <? cmp x y)%Z; constructor; try assumption.
    now constructor.
Qed.

Lemma Forall2_Array_sort (l : list A) (l' : list B) :
  Forall2 R l l' -> Forall2 R (Array_sort cmp l) (Array_sort cmp' l').
Proof.
  intros HF. induction HF as [ | x x' l l' Hx HF IH]; simpl;
    [ constructor | ].
  now apply Forall2_sort_insert.
Qed.
End Related.

Lemma bucket_holds_entries (h : list HeapObject)
    (m : @JSObject number loc) (pm : @JSObject number (list Commit)) :
  Forall2 (bucket_holds h) m pm ->
  Forall2 (bucket_holds h)
    (Object_entries number_array_index m)
    (Object_entries number_array_index pm).
Proof.
  intros HF. unfold Object_entries. apply Forall2_app.
  - apply Forall2_Array_sort.
    + intros x y x' y' [Hx _] [Hy _]. unfold index_cmp, index_rank.
      now rewrite Hx, Hy.
    + apply Forall2_filter; [ | exact HF ].
      intros x y [Hxy _]. unfold is_index. now rewrite Hxy.
  - apply Forall2_filter; [ | exact HF ].
    intros x y [Hxy _]. unfold is_index. now rewrite Hxy.
Qed.

Lemma read_clusters_entries (h : list HeapObject)
    (es : list (number * loc)) (es' : list (number * list Commit)) :
  Forall2 (bucket_holds h) es es' ->
  read_clusters h
    (map (fun entry =>
            let '(pos, groupedCommits) := entry in
            {| ref_position := Number pos; ref_commits := groupedCommits |})
         es)
  = Some (map (fun entry =>
                 let '(pos, groupedCommits) := entry in
                 {| position := Number pos; commits := groupedCommits |})
              es').
Proof.
  intros HF.
  induction HF as [ | [k b] [k' cs] es es' [Hkey Hread] HF IH]; simpl;
    [ reflexivity | ].
  simpl in Hkey, Hread. subst k'.
  unfold read_cluster. simpl. now rewrite Hread, IH.
Qed.

Lemma read_commits_indices (h : list HeapObject) (els : list loc) :
  forall (cs : list Commit) (pre : list loc),
    read_commits h els = Some cs ->
    Forall2
      (fun k c =>
         exists l, nth_error (pre ++ els) k = Some l /\ read_commit h l = Some c)
      (seq (List.length pre) (List.length els)) cs.
Proof.
  induction els as [ | l els IH]; simpl; intros cs pre H.
  - injection H as <-. constructor.
  - destruct (read_commit h l) as [c | ] eqn:Hl; [ | discriminate ].
    destruct (read_commits h els) as [cs' | ] eqn:Hels; [ | discriminate ].
    injection H as <-. constructor.
    + exists l. split; [ | exact Hl ].
      rewrite nth_error_app2 by lia. now rewrite Nat.sub_diag.
    + specialize (IH cs' (pre ++ [l]) eq_refl).
      rewrite length_app, Nat.add_comm in IH. simpl in IH.
      now rewrite <- app_assoc in IH.
Qed.

Section StoreFacts.
Variable External : Type.

Lemma bind_run (A B : Type) (m : M External A) (k : A -> M External B)
    (w w' : Store External) (a : A) :
  m w = Some (a, w') -> bind m k w = k a w'.
Proof. unfold bind. now intros ->. Qed.
Arguments bind_run {A B m} k {w w' a} _.

Lemma load_commit_run (l : loc) (c : Commit) (w : Store External) :
  read_commit (heap w) l = Some c -> load_commit l w = Some (c, w).
Proof.
  unfold read_commit, load_commit, bind, load.
  destruct (nth_error (heap w) l) as [ [c' | | ] | ]; try discriminate.
  now intros [= ->].
Qed.

Lemma load_array_run (l : loc) (els : list loc) (w : Store External) :
  nth_error (heap w) l = Some (ArrayObject els) ->
  load_array l w = Some (els, w).
Proof. unfold load_array, bind, load. now intros ->. Qed.

Lemma load_record_run (l : loc) (m : @JSObject number loc) (w : Store External) :
  nth_error (heap w) l = Some (RecordObject m) ->
  load_record l w = Some (m, w).
Proof. unfold load_record, bind, load. now intros ->. Qed.

Lemma get_property_run (o : loc) (k : number) (m : @JSObject number loc)
    (w : Store External) :
  nth_error (heap w) o = Some (RecordObject m) ->
  get_property o k w = Some (obj_get number_eq_dec k m, w).
Proof.
  intros H. unfold get_property.
  now rewrite (bind_run _ (@load_record_run o m w H)).
Qed.

Lemma set_property_run (o : loc) (k : number) (v : loc)
    (m : @JSObject number loc) (w : Store External) :
  nth_error (heap w) o = Some (RecordObject m) ->
  set_property o k v w
  = Some (tt, {| heap := heap_update (heap w) o
                           (RecordObject (obj_set number_eq_dec k v m));
                 external := external w |}).
Proof.
  intros H. unfold set_property.
  rewrite (bind_run _ (@load_record_run o m w H)). unfold store. now rewrite H.
Qed.

Lemma Array_push_run (a x : loc) (els : list loc) (w : Store External) :
  nth_error (heap w) a = Some (ArrayObject els) ->
  Array_push a x w
  = Some (tt, {| heap := heap_update (heap w) a (ArrayObject (els ++ [x]));
                 external := external w |}).
Proof.
  intros H. unfold Array_push.
  rewrite (bind_run _ (@load_array_run a els w H)). unfold store. now rewrite H.
Qed.

Lemma read_commit_keeps (h h' : list HeapObject) (l : loc) (c : Commit) :
  keeps_commits h h' -> read_commit h l = Some c -> read_commit h' l = Some c.
Proof.
  intros Hk. unfold read_commit.
  destruct (nth_error h l) as [ [c' | | ] | ] eqn:Hl; try discriminate.
  now rewrite (Hk _ _ Hl).
Qed.

(** The guard of the callback: afterwards the position map has a bucket
    for the rounded position. *)
Lemma cluster_guard_step (h0 : list HeapObject) (w : Store External)
    (r : number)
    (m : @JSObject number loc) (pm : @JSObject number (list Commit)) :
  cluster_invariant h0 (heap w) m pm ->
  exists w1 m1 b,
    (match obj_get number_eq_dec r m with
     | None =>
         bind (alloc (ArrayObject []))
           (fun bucket => set_property (List.length h0) r bucket)
     | Some _ => ret tt
     end) w = Some (tt, w1) /\
    external w1 = external w /\
    cluster_invariant h0 (heap w1) m1
      (match obj_get number_eq_dec r pm with
       | None => obj_set number_eq_dec r [] pm
       | Some _ => pm
       end) /\
    obj_get number_eq_dec r m1 = Some b.
Proof.
  intros [Hframe Hmap Hbuckets Hdistinct Hfresh].
  pose proof (bucket_holds_get r Hbuckets) as Hget.
  destruct (obj_get number_eq_dec r m) as [b | ] eqn:Hm;
    destruct (obj_get number_eq_dec r pm) as [cs | ] eqn:Hpm;
    try contradiction.
  - exists w, m, b. repeat split; auto.
  - set (b := List.length (heap w)).
    set (h1 := heap w ++ [ArrayObject []]).
    assert (Hn0 : List.length h0 < b) by (now apply nth_error_in_heap with (RecordObject m)).
    assert (Hmap1 : nth_error h1 (List.length h0) = Some (RecordObject m)).
    { unfold h1. now apply keeps_app. }
    exists {| heap := heap_update h1 (List.length h0)
                        (RecordObject (obj_set number_eq_dec r b m));
              external := external w |},
      (obj_set number_eq_dec r b m), b.
    assert (Hin : forall e, In e m -> snd e < b /\ List.length h0 < snd e).
    { intros e He. split.
      - destruct (bucket_in_heap Hbuckets e He) as (els & Hels).
        now apply nth_error_in_heap with (ArrayObject els).
      - rewrite Forall_forall in Hfresh. now apply Hfresh. }
    assert (Hk : keeps_commits (heap w)
                   (heap_update h1 (List.length h0)
                      (RecordObject (obj_set number_eq_dec r b m)))).
    { intros l c Hl. rewrite nth_error_heap_update_other.
      - unfold h1. now apply keeps_app.
      - intros <-. congruence. }
    split; [ | split; [ reflexivity | split ] ].
    + unfold bind at 1. unfold alloc at 1. fold b. fold h1.
      now rewrite (@set_property_run _ _ _ m).
    + rewrite !obj_set_absent by assumption.
      rewrite obj_set_absent in Hk by assumption. simpl heap. split.
      * intros l o Hl. rewrite nth_error_heap_update_other.
        -- unfold h1. apply keeps_app. now apply Hframe.
        -- apply nth_error_in_heap in Hl. lia.
      * apply nth_error_heap_update_same. unfold h1. rewrite length_app. simpl. lia.
      * apply Forall2_app.
        -- apply bucket_holds_keeps with (heap w); [ exact Hk | | exact Hbuckets ].
           intros e He. destruct (Hin e He).
           rewrite nth_error_heap_update_other by lia.
           unfold h1. apply nth_error_app1. assumption.
        -- constructor; [ | constructor ]. split; [ reflexivity | ]. simpl.
           unfold read_array. rewrite nth_error_heap_update_other by lia.
           unfold h1, b. rewrite nth_error_app2 by lia.
           now rewrite Nat.sub_diag.
      * rewrite map_app. simpl. apply NoDup_app; [ assumption | | ].
        -- constructor; [ intros [] | constructor ].
        -- intros x Hx [<- | []]. apply in_map_iff in Hx.
           destruct Hx as (e & He1 & He). destruct (Hin e He). lia.
      * apply Forall_app. split; [ assumption | ]. constructor; [ | constructor ].
        exact Hn0.
    + rewrite obj_set_absent by assumption. now apply obj_get_snoc_absent.
Qed.

Lemma cluster_push_step (h0 : list HeapObject) (w : Store External)
    (r : number) (b cl : loc) (c : Commit)
    (m : @JSObject number loc) (pm : @JSObject number (list Commit)) :
  cluster_invariant h0 (heap w) m pm ->
  obj_get number_eq_dec r m = Some b ->
  read_commit (heap w) cl = Some c ->
  exists w',
    Array_push b cl w = Some (tt, w') /\
    external w' = external w /\
    cluster_invariant h0 (heap w') m
      (obj_mutate number_eq_dec r (fun a => a ++ [c]) pm).
Proof.
  intros [Hframe Hmap Hbuckets Hdistinct Hfresh] Hget Hcl.
  assert (Hb : In b (map snd m)).
  { pose proof (bucket_holds_get r Hbuckets) as Hg. rewrite Hget in Hg.
    destruct (obj_get number_eq_dec r pm); [ apply Hg | contradiction ]. }
  apply in_map_iff in Hb. destruct Hb as (e & <- & He).
  destruct (bucket_in_heap Hbuckets e He) as (els & Hels).
  assert (Hlt : List.length h0 < snd e).
  { rewrite Forall_forall in Hfresh. now apply Hfresh. }
  eexists. split; [ exact (@Array_push_run (snd e) cl els w Hels) | ].
  split; [ reflexivity | ]. simpl heap. split.
  - intros l o Hl. rewrite nth_error_heap_update_other.
    + now apply Hframe.
    + apply nth_error_in_heap in Hl. lia.
  - rewrite nth_error_heap_update_other by lia. exact Hmap.
  - now apply bucket_holds_push.
  - exact Hdistinct.
  - exact Hfresh.
Qed.

Variable call : Date -> Date -> Date -> TimeScale -> M External number.
Variable calc : Date -> Date -> Date -> TimeScale -> number.
Hypothesis call_computes : computes call calc.

(** One call of the callback does to the heap what [cluster_step] does to
    the position map. *)
Lemma cluster_callback_step (st : TimelineState) (h0 : list HeapObject)
    (w : Store External) (cl : loc) (c : Commit)
    (m : @JSObject number loc) (pm : @JSObject number (list Commit)) :
  cluster_invariant h0 (heap w) m pm ->
  read_commit h0 cl = Some c ->
  exists w' m',
    cluster_callback call st (List.length h0) cl w = Some (tt, w') /\
    external w' = external w /\
    cluster_invariant h0 (heap w') m' (cluster_step calc st pm c).
Proof.
  intros Hinv Hcl.
  assert (Hcl' : read_commit (heap w) cl = Some c).
  { apply read_commit_keeps with h0; [ | exact Hcl ].
    apply keeps_commits_of_keeps, Hinv. }
  unfold cluster_callback.
  rewrite (bind_run _ (@load_commit_run cl c w Hcl')).
  rewrite (bind_run _ (call_computes _ _ _ _ w)).
  fold (roundedPosition calc st c). set (r := roundedPosition calc st c).
  cbv zeta.
  rewrite (bind_run _ (@get_property_run _ r _ _ (inv_map Hinv))).
  destruct (@cluster_guard_step h0 w r m pm Hinv) as (w1 & m1 & b & Hrun & Hext & Hinv1 & Hget).
  rewrite (bind_run _ Hrun).
  rewrite (bind_run _ (@get_property_run _ r _ _ (inv_map Hinv1))), Hget.
  assert (Hcl1 : read_commit (heap w1) cl = Some c).
  { apply read_commit_keeps with h0; [ | exact Hcl ].
    apply keeps_commits_of_keeps, Hinv1. }
  destruct (@cluster_push_step h0 w1 r b cl c m1 _ Hinv1 Hget Hcl1) as (w' & Hpush & Hext' & Hinv').
  exists w', m1. split; [ exact Hpush | ]. split; [ congruence | ].
  exact Hinv'.
Qed.

(** The loop of [forEach] does to the heap what the fold of
    [positionMap_of] does to the position map. *)
Lemma forEach_from_run (st : TimelineState) (h0 : list HeapObject)
    (a : loc) (els : list loc) (ks : list nat) (cs : list Commit) :
  nth_error h0 a = Some (ArrayObject els) ->
  Forall2
    (fun k c =>
       exists l, nth_error els k = Some l /\ read_commit h0 l = Some c)
    ks cs ->
  forall (w : Store External)
         (m : @JSObject number loc) (pm : @JSObject number (list Commit)),
    cluster_invariant h0 (heap w) m pm ->
    exists w' m',
      forEach_from a (cluster_callback call st (List.length h0)) ks w
      = Some (tt, w') /\
      external w' = external w /\
      cluster_invariant h0 (heap w') m'
        (fold_left (cluster_step calc st) cs pm).
Proof.
  intros Ha HF.
  induction HF as [ | k c ks cs (l & Hk & Hl) HF IH]; intros w m pm Hinv; simpl.
  - exists w, m. split; [ reflexivity | ]. split; [ reflexivity | exact Hinv ].
  - assert (Haw : nth_error (heap w) a = Some (ArrayObject els))
      by (now apply (inv_frame Hinv)).
    rewrite (bind_run _ (@load_array_run a els w Haw)), Hk.
    destruct (@cluster_callback_step st h0 w l c m pm Hinv Hl)
      as (w1 & m1 & Hrun & Hext & Hinv1).
    rewrite (bind_run _ Hrun).
    destruct (IH w1 m1 _ Hinv1) as (w' & m' & Hrun' & Hext' & Hinv').
    exists w', m'. split; [ exact Hrun' | ]. split; [ congruence | exact Hinv' ].
Qed.

(** A call of [clusterCommits] on the store returns; what it returns holds
    the clusters of [clusterCommits] on the commits that the array
    holds; and the call leaves every object that was in the heap, and
    everything outside the heap, as it was. *)
Lemma run_clusterCommits_spec (st : TimelineState) (w : Store External)
    (a : loc) (groupName : string) (cs : list Commit) :
  read_array (heap w) a = Some cs ->
  exists rs w',
    run_clusterCommits call st a groupName w = Some (rs, w') /\
    read_clusters (heap w') rs = Some (clusterCommits calc st cs groupName) /\
    keeps (heap w) (heap w') /\
    external w' = external w.
Proof.
  intros Hread. unfold read_array in Hread.
  destruct (nth_error (heap w) a) as [ [ | els | ] | ] eqn:Ha; try discriminate.
  set (h0 := heap w) in *.
  set (w0 := {| heap := h0 ++ [RecordObject []]; external := external w |}).
  assert (Hinv0 : cluster_invariant h0 (heap w0) [] []).
  { split.
    - apply keeps_app.
    - simpl. rewrite nth_error_app2 by lia. now rewrite Nat.sub_diag.
    - constructor.
    - constructor.
    - constructor. }
  destruct (@forEach_from_run st h0 a els (seq 0 (List.length els)) cs Ha
              (@read_commits_indices h0 els cs [] Hread) w0 [] [] Hinv0)
    as (w' & m' & Hrun & Hext & Hinv').
  exists (map (fun entry =>
                 let '(pos, groupedCommits) := entry in
                 {| ref_position := Number pos; ref_commits := groupedCommits |})
              (Object_entries number_array_index m')), w'.
  split; [ | split; [ | split ] ].
  - unfold run_clusterCommits. unfold bind at 1. unfold alloc at 1.
    fold h0. fold w0. unfold Array_forEach.
    assert (Haw : nth_error (heap w0) a = Some (ArrayObject els))
      by (now apply (inv_frame Hinv0)).
    unfold bind at 1.
    rewrite (bind_run _ (@load_array_run a els w0 Haw)), Hrun.
    now rewrite (bind_run _ (@load_record_run _ _ w' (inv_map Hinv'))).
  - unfold clusterCommits, positionMap_of.
    apply read_clusters_entries, bucket_holds_entries, Hinv'.
  - apply Hinv'.
  - exact Hext.
Qed.
End StoreFacts.

Lemma read_clusters_keeps (h h' : list HeapObject)
    (rs : list ClusteredCommitRef) (clusters : list ClusteredCommit) :
  keeps h h' ->
  read_clusters h rs = Some clusters -> read_clusters h' rs = Some clusters.
Proof.
  intros Hk. revert clusters.
  induction rs as [ | r rs IH]; simpl; intros clusters H; [ exact H | ].
  unfold read_cluster, read_array in *.
  destruct (nth_error h (ref_commits r)) as [ [ | els | ] | ] eqn:Hr;
    try discriminate.
  rewrite (Hk _ _ Hr).
  destruct (read_commits h els) as [cs | ] eqn:Hels; [ | discriminate ].
  rewrite (@read_commits_keeps h h' els cs (keeps_commits_of_keeps Hk) Hels).
  destruct (read_clusters h rs) as [rest | ]; [ | discriminate ].
  now rewrite (IH rest eq_refl).
Qed.

Lemma read_array_keeps (h h' : list HeapObject) (a : loc) (cs : list Commit) :
  keeps h h' -> read_array h a = Some cs -> read_array h' a = Some cs.
Proof.
  intros Hk. unfold read_array.
  destruct (nth_error h a) as [ [ | els | ] | ] eqn:Ha; try discriminate.
  rewrite (Hk _ _ Ha). apply read_commits_keeps.
  now apply keeps_commits_of_keeps.
Qed.

(** C7 - Determinism of clustering: let the imported position procedure
    compute a function of its arguments and leave the store as it is.
    Take two calls of [clusterCommits], made in any two stores, on any two
    arrays that hold the same commits in the same order, in any two render
    states of the same time range and time scale, under any two group
    names.  Both calls return; the two results hold the same cluster list
    (the same clusters at the same positions with the same members in the
    same order), which is the cluster list of the commits, the time range
    and the time scale; neither result depends on anything else in its
    store; and each call leaves every object that was in its heap, and
    everything outside the heap, as it was. *)
Theorem clusterCommits_deterministic :
  forall (External : Type)
         (call : Date -> Date -> Date -> TimeScale -> M External number)
         (calc : Date -> Date -> Date -> TimeScale -> number)
         (st1 st2 : TimelineState) (w1 w2 : Store External)
         (a1 a2 : loc) (g1 g2 : string) (cs : list Commit),
    computes call calc ->
    read_array (heap w1) a1 = Some cs ->
    read_array (heap w2) a2 = Some cs ->
    timeRange st1 = timeRange st2 ->
    timeScale st1 = timeScale st2 ->
    exists rs1 w1' rs2 w2' clusters,
      run_clusterCommits call st1 a1 g1 w1 = Some (rs1, w1') /\
      run_clusterCommits call st2 a2 g2 w2 = Some (rs2, w2') /\
      read_clusters (heap w1') rs1 = Some clusters /\
      read_clusters (heap w2') rs2 = Some clusters /\
      clusters = clusterCommits calc st1 cs g1 /\
      keeps (heap w1) (heap w1') /\ external w1' = external w1 /\
      keeps (heap w2) (heap w2') /\ external w2' = external w2.
Proof.
  intros External call calc st1 st2 w1 w2 a1 a2 g1 g2 cs
    Hcall H1 H2 Hrange Hscale.
  destruct (@run_clusterCommits_spec External call calc Hcall st1 w1 a1 g1 cs H1)
    as (rs1 & w1' & Hrun1 & Hread1 & Hkeep1 & Hext1).
  destruct (@run_clusterCommits_spec External call calc Hcall st2 w2 a2 g2 cs H2)
    as (rs2 & w2' & Hrun2 & Hread2 & Hkeep2 & Hext2).
  exists rs1, w1', rs2, w2', (clusterCommits calc st1 cs g1).
  rewrite (clusterCommits_same_inputs calc st1 st2 cs g1 g2 Hrange Hscale) at 2.
  repeat split; assumption.
Qed.

Lemma clusterCommits_deterministic_witness :
  exists rs1 w1' rs2 w2',
    run_clusterCommits (@pure_call Z calculateCommitPosition_spec)
      (state_over 0 1000 day) 3 "type"%string
      (store_of
         [CommitObject (commit_of_type 418 FEATURE);
          CommitObject (commit_of_type 100 BUG);
          CommitObject (commit_of_type 421 BUG);
          ArrayObject [0; 1; 2]] 7%Z)
    = Some (rs1, w1') /\
    run_clusterCommits (@pure_call Z calculateCommitPosition_spec)
      {| timeScale := day; groupBy := by_author;
         selectedCommit := Some "a"%string;
         timeRange := {| range_start := 0; range_end := 1000 |};
         hoveredCommit := Some "b"%string; openClusterDialog := true;
         selectedCluster := None |} 0 "author"%string
      (store_of
         [ArrayObject [2; 1; 3];
          CommitObject (commit_of_type 100 BUG);
          CommitObject (commit_of_type 418 FEATURE);
          CommitObject (commit_of_type 421 BUG);
          RecordObject [(of_Z 42, 0)]] 99%Z)
    = Some (rs2, w2') /\
    read_clusters (heap w1') rs1
    = Some [ {| position := of_Z 10;
                commits := [commit_of_type 100 BUG] |};
             {| position := of_Z 42;
                commits := [commit_of_type 418 FEATURE;
                            commit_of_type 421 BUG] |} ] /\
    read_clusters (heap w2') rs2 = read_clusters (heap w1') rs1 /\
    external w1' = 7%Z /\ external w2' = 99%Z.
Proof.
  destruct (@clusterCommits_deterministic Z
              (@pure_call Z calculateCommitPosition_spec)
              calculateCommitPosition_spec
              (state_over 0 1000 day)
              {| timeScale := day; groupBy := by_author;
                 selectedCommit := Some "a"%string;
                 timeRange := {| range_start := 0; range_end := 1000 |};
                 hoveredCommit := Some "b"%string; openClusterDialog := true;
                 selectedCluster := None |}
              (store_of
                 [CommitObject (commit_of_type 418 FEATURE);
                  CommitObject (commit_of_type 100 BUG);
                  CommitObject (commit_of_type 421 BUG);
                  ArrayObject [0; 1; 2]] 7%Z)
              (store_of
                 [ArrayObject [2; 1; 3];
                  CommitObject (commit_of_type 100 BUG);
                  CommitObject (commit_of_type 418 FEATURE);
                  CommitObject (commit_of_type 421 BUG);
                  RecordObject [(of_Z 42, 0)]] 99%Z)
              3 0 "type"%string "author"%string
              [commit_of_type 418 FEATURE; commit_of_type 100 BUG;
               commit_of_type 421 BUG])
    as (rs1 & w1' & rs2 & w2' & clusters & Hrun1 & Hrun2 & Hread1 & Hread2
        & Hclusters & _ & Hext1 & _ & Hext2).
  - intros d s e ts w. reflexivity.
  - reflexivity.
  - reflexivity.
  - reflexivity.
  - reflexivity.
  - exists rs1, w1', rs2, w2'.
    split; [ exact Hrun1 | ]. split; [ exact Hrun2 | ].
    split; [ rewrite Hread1, Hclusters; reflexivity | ].
    split; [ congruence | ]. split; assumption.
Defined.

(** A second call, made in the store the first call left, returns what
    the first returned, and what the first returned is still there. *)
Lemma run_clusterCommits_again :
  forall (External : Type)
         (call : Date -> Date -> Date -> TimeScale -> M External number)
         (calc : Date -> Date -> Date -> TimeScale -> number)
         (st : TimelineState) (w : Store External)
         (a : loc) (g : string) (cs : list Commit),
    computes call calc ->
    read_array (heap w) a = Some cs ->
    exists rs1 w1 rs2 w2,
      run_clusterCommits call st a g w = Some (rs1, w1) /\
      run_clusterCommits call st a g w1 = Some (rs2, w2) /\
      read_clusters (heap w2) rs2 = Some (clusterCommits calc st cs g) /\
      read_clusters (heap w2) rs1 = Some (clusterCommits calc st cs g).
Proof.
  intros External call calc st w a g cs Hcall Hread.
  destruct (@run_clusterCommits_spec External call calc Hcall st w a g cs Hread)
    as (rs1 & w1 & Hrun1 & Hread1 & Hkeep1 & _).
  destruct (@run_clusterCommits_spec External call calc Hcall st w1 a g cs
              (@read_array_keeps (heap w) (heap w1) a cs Hkeep1 Hread))
    as (rs2 & w2 & Hrun2 & Hread2 & Hkeep2 & _).
  exists rs1, w1, rs2, w2. repeat split; try assumption.
  now apply read_clusters_keeps with (heap w1).
Qed.

(** The assumption on the imported procedure is needed: with a procedure
    that reads the clock, the same call at two instants gives clusters at
    two positions. *)
Example run_clusterCommits_clock :
  exists rs1 w1' rs2 w2',
    run_clusterCommits clock_call (state_over 0 1000 day) 1 EmptyString
      (store_of [CommitObject (commit_of_type 418 FEATURE); ArrayObject [0]]
         10%Z)
    = Some (rs1, w1') /\
    run_clusterCommits clock_call (state_over 0 1000 day) 1 EmptyString
      (store_of [CommitObject (commit_of_type 418 FEATURE); ArrayObject [0]]
         60%Z)
    = Some (rs2, w2') /\
    map ref_position rs1 = [of_Z 10] /\
    map ref_position rs2 = [of_Z 60].
Proof.
  do 4 eexists. split; [ vm_compute; reflexivity | ].
  split; [ vm_compute; reflexivity | ]. split; reflexivity.
Qed.

(** ** Order of the clusters *)

Lemma number_array_index_of_Z (z : Z) :
  (0 <= z < 2 ^ 32 - 1)%Z -> number_array_index (of_Z z) = Some z.
Proof.
  intros [Hlo Hhi]. unfold number_array_index, of_Z, integer_value. simpl.
  apply Z.leb_le in Hlo. apply Z.ltb_lt in Hhi.
  change (2 ^ 32 - 1)%Z with 4294967295%Z in Hhi.
  now rewrite Hlo, Hhi.
Qed.

Lemma number_lt_of_Z (a b : Z) : (a < b)%Z -> number_lt (of_Z a) (of_Z b).
Proof. intros H. simpl. now rewrite <- Zlt_Qlt. Qed.

Lemma StronglySorted_strict (A : Type) (rank : A -> Z) (l : list A) :
  StronglySorted (rank_le rank) l -> NoDup (map rank l) ->
  StronglySorted (fun a b => (rank a < rank b)%Z) l.
Proof.
  induction 1 as [ | a l Hs IH Hall]; simpl; intros Hnd; constructor.
  - apply IH. now inversion Hnd.
  - inversion Hnd as [ | ? ? Hnotin _]; subst.
    rewrite Forall_forall in Hall |- *. intros x Hx.
    specialize (Hall x Hx). unfold rank_le in Hall.
    assert (rank a <> rank x).
    { intros Heq. apply Hnotin. rewrite Heq. now apply in_map. }
    lia.
Qed.

Lemma StronglySorted_map_in (A B : Type) (f : A -> B)
    (R : A -> A -> Prop) (R' : B -> B -> Prop) (l : list A) :
  (forall a b, In a l -> In b l -> R a b -> R' (f a) (f b)) ->
  StronglySorted R l -> StronglySorted R' (map f l).
Proof.
  intros Himp Hs. induction Hs as [ | a l Hs IH Hall]; simpl; constructor.
  - apply IH. intros x y Hx Hy. apply Himp; now right.
  - rewrite Forall_forall in Hall |- *. intros y Hy.
    apply in_map_iff in Hy. destruct Hy as (x & <- & Hx).
    apply Himp; [ now left | now right | now apply Hall ].
Qed.

(** C8 - Order of the clusters: whenever every rounded commit position is
    an array index (an integer from 0 to 4294967294, which covers the grid
    from 0 to 100), the cluster list returned by [clusterCommits] is in
    strictly ascending order of position. *)
Theorem clusterCommits_ascending :
  forall (calculateCommitPosition : Date -> Date -> Date -> TimeScale -> number)
         (st : TimelineState) (cs : list Commit) (groupName : string),
    (forall c, In c cs ->
       is_array_index (roundedPosition calculateCommitPosition st c)) ->
    StronglySorted number_lt
      (map position (clusterCommits calculateCommitPosition st cs groupName)).
Proof.
  intros calc st cs g Hidx.
  set (o := positionMap_of calc st cs).
  assert (Hkey : forall e, In e o ->
            number_array_index (fst e)
              = Some (index_rank number_array_index e) /\
            fst e = of_Z (index_rank number_array_index e)).
  { intros [k v] He. unfold o in He. rewrite positionMap_of_grouped in He.
    unfold grouped in He. apply in_map_iff in He.
    destruct He as (k' & Heq & Hk'). injection Heq as -> _.
    apply in_firsts, in_map_iff in Hk'. destruct Hk' as (c & <- & Hc).
    destruct (Hidx c Hc) as (z & Hz & Hpos).
    unfold index_rank. simpl. rewrite Hpos.
    rewrite (number_array_index_of_Z Hz). auto. }
  assert (Hentries : Object_entries number_array_index o
                     = Array_sort (index_cmp number_array_index) o).
  { apply Object_entries_all_indices. intros e He.
    unfold is_index. now rewrite (proj1 (Hkey e He)). }
  unfold clusterCommits. fold o. rewrite Hentries, map_map.
  set (sorted := Array_sort (index_cmp number_array_index) o).
  assert (Hperm : Permutation sorted o) by apply Array_sort_perm.
  assert (Hfst : map fst sorted
                 = map of_Z (map (index_rank number_array_index) sorted)).
  { rewrite map_map. apply map_ext_in. intros e He. apply Hkey.
    now apply (Permutation_in _ Hperm). }
  apply StronglySorted_map_in
    with (R := fun a b => (index_rank number_array_index a
                           < index_rank number_array_index b)%Z).
  - intros [ka va] [kb vb] Ha Hb Hlt. simpl. unfold Number.
    apply (Permutation_in _ Hperm) in Ha, Hb.
    change (number_lt (fst (ka, va)) (fst (kb, vb))).
    rewrite (proj2 (Hkey _ Ha)), (proj2 (Hkey _ Hb)).
    now apply number_lt_of_Z.
  - apply StronglySorted_strict.
    + apply Array_sort_sorted with (rank := index_rank number_array_index).
      reflexivity.
    + apply NoDup_map_inv with (f := of_Z). rewrite <- Hfst.
      apply Permutation_NoDup with (l := map fst o).
      * apply Permutation_sym, Permutation_map, Hperm.
      * unfold o. rewrite positionMap_of_grouped. unfold grouped.
        rewrite map_map. simpl. rewrite map_id. apply NoDup_firsts.
Qed.

(** C8, as the description words it, fails: with a range one millisecond
    wide, two commits whose positions are the integers 9007199254741100
    and 9007199254741000 (both doubles, neither an array index) are listed
    in insertion order, the larger position first. *)
Lemma clusterCommits_not_ascending_beyond_indices :
  (forall c,
     In c [commit_at 90071992547411 None; commit_at 90071992547410 None] ->
     is_nonnegative_integer
       (roundedPosition calculateCommitPosition_spec (state_over 0 1 hour) c))
  /\ map position
       (clusterCommits calculateCommitPosition_spec (state_over 0 1 hour)
          [commit_at 90071992547411 None; commit_at 90071992547410 None]
          EmptyString)
     = [of_Z 9007199254741100; of_Z 9007199254741000]
  /\ ~ StronglySorted number_lt
       (map position
          (clusterCommits calculateCommitPosition_spec (state_over 0 1 hour)
             [commit_at 90071992547411 None; commit_at 90071992547410 None]
             EmptyString)).
Proof.
  assert (E : map position
                (clusterCommits calculateCommitPosition_spec
                   (state_over 0 1 hour)
                   [commit_at 90071992547411 None;
                    commit_at 90071992547410 None] EmptyString)
              = [of_Z 9007199254741100; of_Z 9007199254741000])
    by (vm_compute; reflexivity).
  split; [ | split; [ exact E | ] ].
  - intros c [<- | [<- | []]].
    + exists 9007199254741100%Z. split; [ lia | vm_compute; reflexivity ].
    + exists 9007199254741000%Z. split; [ lia | vm_compute; reflexivity ].
  - rewrite E. intros Hs. apply StronglySorted_inv in Hs.
    destruct Hs as [_ Hall]. inversion Hall as [ | ? ? Hlt _]; subst.
    unfold number_lt, of_Z, Qlt in Hlt. simpl in Hlt. lia.
Qed.

Lemma clusterCommits_ascending_witness :
  StronglySorted number_lt
    (map position
       (clusterCommits calculateCommitPosition_spec (state_over 0 100 day)
          [commit_of_type 50 FEATURE; commit_of_type 10 BUG;
           commit_of_type 50 BUG] EmptyString)).
Proof.
  apply clusterCommits_ascending.
  intros c [<- | [<- | [<- | []]]].
  - exists 50%Z. split; [ lia | reflexivity ].
  - exists 10%Z. split; [ lia | reflexivity ].
  - exists 50%Z. split; [ lia | reflexivity ].
Defined.

Lemma clusterCommits_conservation_witness :
  list_sum
    (map (fun cl => List.length (commits cl))
       (clusterCommits calculateCommitPosition_spec (state_over 0 100 day)
          [commit_of_type 50 FEATURE; commit_of_type 10 BUG;
           commit_of_type 50 BUG] EmptyString))
  = 3.
Proof.
  exact (proj1 (clusterCommits_conservation calculateCommitPosition_spec
                  (state_over 0 100 day)
                  [commit_of_type 50 FEATURE; commit_of_type 10 BUG;
                   commit_of_type 50 BUG] EmptyString)).
Defined.

Lemma clusterCommits_bucketing_witness :
  exists cl,
    In cl
      (clusterCommits calculateCommitPosition_spec (state_over 0 1000 day)
         [commit_of_type 418 FEATURE; commit_of_type 100 BUG;
          commit_of_type 421 BUG] EmptyString)
    /\ In (commit_of_type 418 FEATURE) (commits cl)
    /\ In (commit_of_type 421 BUG) (commits cl).
Proof.
  refine (proj2 (proj1 (clusterCommits_bucketing calculateCommitPosition_spec
                          (state_over 0 1000 day)
                          [commit_of_type 418 FEATURE; commit_of_type 100 BUG;
                           commit_of_type 421 BUG] EmptyString)
                   (commit_of_type 418 FEATURE) (commit_of_type 421 BUG) _ _) _).
  - simpl. auto.
  - simpl. auto.
  - exists (of_Z 42). split.
    + exists 42%Z. split; [ reflexivity | ].
      unfold Qle, Qlt. simpl. lia.
    + exists 42%Z. split; [ reflexivity | ].
      unfold Qle, Qlt. simpl. lia.
Defined.

(** ** Category of a marker *)

Lemma type_or_CHORE_first (commit : Commit) :
  type_or_CHORE (nth_error (analyses_of commit) 0) = effectiveCategory commit.
Proof.
  unfold effectiveCategory. destruct (analyses_of commit); reflexivity.
Qed.

Lemma commitTypes_effective (cluster : ClusteredCommit) :
  commitTypes cluster = map effectiveCategory (commits cluster).
Proof.
  unfold commitTypes. apply map_ext. intros c. apply type_or_CHORE_first.
Qed.

Lemma length_with_key_frequency (t : CommitType) (ts : list CommitType) :
  List.length (with_key CommitType_eq_dec (fun x => x) t ts) = frequency t ts.
Proof.
  unfold frequency. induction ts as [ | y ts IH]; simpl; [ reflexivity | ].
  destruct (CommitType_eq_dec y t); simpl; now rewrite IH.
Qed.

(** The tally after the [reduce]: one counter per category that occurs, in
    the order the categories first occur. *)
Lemma mostCommonType_grouped (ts : list CommitType) :
  mostCommonType ts =
  map (fun t => (t, Z.of_nat (frequency t ts))) (firsts CommitType_eq_dec ts).
Proof.
  pose proof (fold_grouped CommitType_eq_dec (fun t : CommitType => t)
                (fun old _ =>
                   (match old with
                    | Some n => if (n =? 0)%Z then 0 else n
                    | None => 0
                    end + 1)%Z)
                (fun l => Z.of_nat (List.length l))) as H.
  assert (Hnext : forall (l : list CommitType) (x : CommitType),
            ((if (Z.of_nat (List.length l) =? 0)%Z then 0
              else Z.of_nat (List.length l)) + 1)%Z
            = Z.of_nat (List.length (l ++ [x]))).
  { intros l x. rewrite length_app. simpl.
    destruct (Z.eqb_spec (Z.of_nat (List.length l)) 0); lia. }
  specialize (H (fun _ => eq_refl) Hnext ts []).
  unfold mostCommonType. simpl in H.
  change (fold_left tally_step ts [] =
          map (fun t => (t, Z.of_nat (frequency t ts)))
            (firsts CommitType_eq_dec ts)).
  etransitivity; [ exact H | ].
  unfold grouped. rewrite map_id. apply map_ext. intros t.
  now rewrite length_with_key_frequency.
Qed.

Lemma first_index_app (x : CommitType) (pre l : list CommitType) :
  ~ In x pre ->
  first_index CommitType_eq_dec x (pre ++ l)
  = List.length pre + first_index CommitType_eq_dec x l.
Proof.
  induction pre as [ | y pre IH]; simpl; intros Hin; [ reflexivity | ].
  destruct (CommitType_eq_dec x y) as [-> | Hne]; [ tauto | ].
  rewrite IH; tauto.
Qed.

(** The category selected for a non-empty list of categories: it occurs,
    no category is more frequent, and every category that occurs before
    its first occurrence is strictly less frequent. *)
Lemma dominantType_of_spec (ts : list CommitType) :
  ts <> [] ->
  exists d pre post,
    dominantType_of ts = Some d /\ ts = pre ++ d :: post /\ ~ In d pre /\
    (forall t, frequency t ts <= frequency d ts) /\
    (forall t, In t pre -> frequency t ts < frequency d ts).
Proof.
  intros Hne. unfold dominantType_of.
  rewrite Object_entries_no_index by reflexivity.
  rewrite mostCommonType_grouped.
  set (entries := map (fun t => (t, Z.of_nat (frequency t ts)))
                    (firsts CommitType_eq_dec ts)).
  assert (Hentries : entries <> []).
  { unfold entries. destruct ts as [ | t ts]; [ congruence | discriminate ]. }
  assert (Hcmp : forall a b : CommitType * Z,
            (snd b - snd a = - snd a - - snd b)%Z) by (intros; lia).
  destruct (Array_sort_head (fun a b : CommitType * Z => (snd b - snd a)%Z)
              (fun a => (- snd a)%Z) Hcmp Hentries)
    as (e & s & l1 & l2 & Hsort & Hsplit & Hbefore & Hafter).
  rewrite Hsort. simpl.
  assert (Hsnd : forall x, In x entries ->
                   snd x = Z.of_nat (frequency (fst x) ts)).
  { intros x Hx. unfold entries in Hx. apply in_map_iff in Hx.
    now destruct Hx as (t & <- & _). }
  assert (Hfirsts : firsts CommitType_eq_dec ts
                    = map fst l1 ++ fst e :: map fst l2).
  { transitivity (map fst entries).
    - unfold entries. rewrite map_map. simpl. now rewrite map_id.
    - now rewrite Hsplit, map_app. }
  assert (He : snd e = Z.of_nat (frequency (fst e) ts)).
  { apply Hsnd. rewrite Hsplit. apply in_or_app. right. now left. }
  destruct (firsts_split CommitType_eq_dec ts _ _ _ Hfirsts)
    as (pre & post & Hts & Hpre & Hsub).
  exists (fst e), pre, post. repeat split; auto.
  - intros t. destruct (in_dec CommitType_eq_dec t ts) as [Hin | Hin].
    + apply (in_firsts CommitType_eq_dec) in Hin. rewrite Hfirsts in Hin.
      apply in_app_or in Hin. destruct Hin as [Hin | [<- | Hin]]; [ | lia | ].
      * apply in_map_iff in Hin. destruct Hin as (x & <- & Hx).
        specialize (Hbefore x Hx).
        assert (In x entries) by (rewrite Hsplit; apply in_or_app; auto).
        rewrite (Hsnd x) in Hbefore by assumption. lia.
      * apply in_map_iff in Hin. destruct Hin as (x & <- & Hx).
        specialize (Hafter x Hx).
        assert (In x entries)
          by (rewrite Hsplit; apply in_or_app; right; now right).
        rewrite (Hsnd x) in Hafter by assumption. lia.
    + unfold frequency. rewrite (proj1 (count_occ_not_In _ _ _) Hin). lia.
  - intros t Ht. apply Hsub, in_map_iff in Ht. destruct Ht as (x & <- & Hx).
    specialize (Hbefore x Hx).
    assert (In x entries) by (rewrite Hsplit; apply in_or_app; auto).
    rewrite (Hsnd x) in Hbefore by assumption. lia.
Qed.

Lemma commitTypes_nonempty (cluster : ClusteredCommit) :
  1 <= List.length (commits cluster) -> commitTypes cluster <> [].
Proof.
  unfold commitTypes. destruct (commits cluster); simpl; [ lia | discriminate ].
Qed.

(** C3 - Dominant category of a multi-member cluster: for every cluster
    with two or more members the marker is a cluster marker whose colour is
    a category that occurs among the members' effective categories and
    whose frequency there is maximal; three members with the categories
    FEATURE, FEATURE, BUG yield FEATURE. *)
Theorem dominantType_most_frequent :
  (forall cluster : ClusteredCommit,
     2 <= List.length (commits cluster) ->
     exists d,
       dominantType cluster = Some d /\
       renderCluster cluster
         = Some (ClusterMarker (position cluster) d
                   (List.length (commits cluster))) /\
       In d (map effectiveCategory (commits cluster)) /\
       forall t,
         frequency t (map effectiveCategory (commits cluster))
         <= frequency d (map effectiveCategory (commits cluster))) /\
  (forall (p : number) (c1 c2 c3 : Commit),
     effectiveCategory c1 = FEATURE ->
     effectiveCategory c2 = FEATURE ->
     effectiveCategory c3 = BUG ->
     dominantType {| position := p; commits := [c1; c2; c3] |}
       = Some FEATURE).
Proof.
  split.
  - intros cluster Hlen.
    assert (Hne : commitTypes cluster <> [])
      by (apply commitTypes_nonempty; lia).
    destruct (dominantType_of_spec Hne)
      as (d & pre & post & Hd & Hts & _ & Hmax & _).
    exists d. rewrite <- commitTypes_effective.
    unfold renderCluster, dominantType. rewrite Hd.
    destruct (Nat.eqb_spec (List.length (commits cluster)) 1); [ lia | ].
    repeat split; auto.
    rewrite Hts. apply in_or_app. right. now left.
  - intros p c1 c2 c3 H1 H2 H3. unfold dominantType.
    rewrite commitTypes_effective. simpl. now rewrite H1, H2, H3.
Qed.

(** C4 - Tie-break of the dominant category: a cluster with two or more
    members has a dominant category; it occurs among the members'
    effective categories, no category is more frequent there, and every
    other category that is as frequent, that is every other category tied
    for the highest count, has its first occurrence among the members'
    effective categories, in member order, after the first occurrence of
    the dominant one. *)
Theorem dominantType_tie_break :
  forall cluster : ClusteredCommit,
    2 <= List.length (commits cluster) ->
    exists d,
      dominantType cluster = Some d /\
      In d (map effectiveCategory (commits cluster)) /\
      (forall t,
         frequency t (map effectiveCategory (commits cluster))
         <= frequency d (map effectiveCategory (commits cluster))) /\
      (forall t,
         t <> d ->
         frequency t (map effectiveCategory (commits cluster))
           = frequency d (map effectiveCategory (commits cluster)) ->
         first_index CommitType_eq_dec d
           (map effectiveCategory (commits cluster))
         < first_index CommitType_eq_dec t
             (map effectiveCategory (commits cluster))).
Proof.
  intros cluster Hlen.
  rewrite <- commitTypes_effective.
  assert (Hnil : commitTypes cluster <> [])
    by (apply commitTypes_nonempty; lia).
  destruct (dominantType_of_spec Hnil)
    as (d & pre & post & Hd & Hts & Hpre & Hmax & Hless).
  exists d. split; [ exact Hd | ]. split; [ | split; [ exact Hmax | ] ].
  - rewrite Hts. apply in_or_app. right. now left.
  - intros t Hne Htie.
    assert (Hnot : ~ In t pre).
    { intros Hin. specialize (Hless t Hin). lia. }
    rewrite Hts, !first_index_app by assumption. simpl.
    destruct (CommitType_eq_dec d d); [ | congruence ].
    destruct (CommitType_eq_dec t d); [ congruence | lia ].
Qed.

Lemma dominantType_most_frequent_witness :
  dominantType
    {| position := of_Z 50;
       commits := [commit_of_type 1 FEATURE; commit_of_type 2 FEATURE;
                   commit_of_type 3 BUG] |}
  = Some FEATURE.
Proof.
  apply (proj2 dominantType_most_frequent); reflexivity.
Defined.

Lemma dominantType_tie_break_witness :
  exists d,
    dominantType
      {| position := of_Z 42;
         commits := [commit_at 1 None; commit_of_type 2 BUG;
                     commit_of_type 3 BUG; commit_of_type 4 FEATURE;
                     commit_of_type 5 FEATURE] |} = Some d /\
    d = BUG /\
    first_index CommitType_eq_dec d [CHORE; BUG; BUG; FEATURE; FEATURE]
    < first_index CommitType_eq_dec FEATURE [CHORE; BUG; BUG; FEATURE; FEATURE].
Proof.
  destruct (@dominantType_tie_break
              {| position := of_Z 42;
                 commits := [commit_at 1 None; commit_of_type 2 BUG;
                             commit_of_type 3 BUG; commit_of_type 4 FEATURE;
                             commit_of_type 5 FEATURE] |})
    as (d & Hd & _ & _ & Hfirst).
  - simpl. lia.
  - exists d. split; [ exact Hd | ].
    assert (Hbug : d = BUG) by (vm_compute in Hd; congruence).
    split; [ exact Hbug | ].
    apply Hfirst.
    + rewrite Hbug. discriminate.
    + rewrite Hbug. reflexivity.
Defined.

(** C5 - Effective category fallback: for every commit, the category of
    its marker is the category of the first analysis of the collection it
    carries, in stored order, and CHORE when that collection is empty or
    missing; the singleton branch and the multi-member branch both use
    this category. *)
Theorem effective_category_fallback :
  forall commit : Commit,
    (forall a rest,
       analyses_of commit = a :: rest -> commitType commit = type a) /\
    (analyses_of commit = [] -> commitType commit = CHORE) /\
    commitType commit = effectiveCategory commit /\
    (forall p,
       renderCluster {| position := p; commits := [commit] |}
       = Some (CommitMarker (sha commit) (effectiveCategory commit) p)) /\
    (forall p before after,
       commitTypes {| position := p; commits := before ++ commit :: after |}
       = map effectiveCategory before
           ++ effectiveCategory commit :: map effectiveCategory after) /\
    (forall l, commit_analyses commit = Some l -> analyses_of commit = l) /\
    (forall l, commit_analyses commit = None ->
               commit_analises commit = Some l -> analyses_of commit = l) /\
    (commit_analyses commit = None -> commit_analises commit = None ->
     analyses_of commit = []).
Proof.
  intros commit.
  assert (Heff : commitType commit = effectiveCategory commit)
    by apply type_or_CHORE_first.
  repeat split.
  - intros a rest H. unfold commitType. now rewrite H.
  - intros H. unfold commitType. now rewrite H.
  - exact Heff.
  - intros p. unfold renderCluster. simpl. now rewrite Heff.
  - intros p before after. rewrite commitTypes_effective. simpl.
    now rewrite map_app.
  - intros l H. unfold analyses_of. now rewrite H.
  - intros l H1 H2. unfold analyses_of. now rewrite H1, H2.
  - intros H1 H2. unfold analyses_of. now rewrite H1, H2.
Qed.

Lemma effective_category_fallback_witness :
  commitType (commit_at 0 None) = CHORE
  /\ commitType (commit_at 0 (Some [analysis_of BUG; analysis_of FEATURE]))
     = BUG.
Proof.
  split.
  - apply (proj1 (proj2 (effective_category_fallback (commit_at 0 None)))).
    reflexivity.
  - apply (proj1 (effective_category_fallback
                    (commit_at 0 (Some [analysis_of BUG; analysis_of FEATURE])))
             (analysis_of BUG) [analysis_of FEATURE]).
    reflexivity.
Defined.

(** ** Rows *)

Lemma renderedRows_keys
    (calculateCommitPosition : Date -> Date -> Date -> TimeScale -> number)
    (st : TimelineState) (groupedCommits : list (string * list Commit)) :
  map row_key (renderedRows calculateCommitPosition st groupedCommits)
  = map fst
      (filter (fun entry => Nat.ltb 0 (List.length (snd entry)))
         groupedCommits).
Proof.
  unfold renderedRows, renderGroups.
  induction groupedCommits as [ | [name cs] l IH]; simpl; [ reflexivity | ].
  destruct (Nat.ltb 0 (List.length cs)); simpl; now rewrite IH.
Qed.

(** C6 - Empty groups are omitted: for every commit collection and
    grouping key, the rendered rows are, in order, the groups of the
    grouped output that have at least one commit; a group without commits
    renders nothing, and every rendered row belongs to a group with at
    least one commit. *)
Theorem timelineRows_omit_empty_groups :
  forall (calculateCommitPosition : Date -> Date -> Date -> TimeScale -> number)
         (groupCommits : list Commit -> GroupBy -> list (string * list Commit))
         (st : TimelineState) (commits : list Commit),
    let rows := timelineRows calculateCommitPosition groupCommits st commits in
    map row_key rows
      = map fst
          (filter (fun entry => Nat.ltb 0 (List.length (snd entry)))
             (groupCommits commits (groupBy st))) /\
    (forall name, renderGroup calculateCommitPosition st (name, []) = None) /\
    (forall row, In row rows ->
       exists cs,
         In (row_key row, cs) (groupCommits commits (groupBy st)) /\
         1 <= List.length cs).
Proof.
  intros calc groupCommits st commits rows. split; [ | split ].
  - apply renderedRows_keys.
  - reflexivity.
  - intros row Hrow.
    assert (Hkey : In (row_key row) (map row_key rows)) by now apply in_map.
    unfold rows, timelineRows in Hkey. rewrite renderedRows_keys in Hkey.
    apply in_map_iff in Hkey. destruct Hkey as ([name cs] & Hname & Hin).
    apply filter_In in Hin. destruct Hin as [Hin Hlen]. simpl in *.
    exists cs. rewrite <- Hname. split; [ exact Hin | ].
    now apply Nat.ltb_lt in Hlen.
Qed.

Lemma timelineRows_omit_empty_groups_witness :
  map row_key
    (timelineRows calculateCommitPosition_spec
       (fun commits _ =>
          [("FEATURE"%string, commits); ("BUG"%string, [])])
       (state_over 0 100 day) [commit_of_type 50 FEATURE])
  = ["FEATURE"%string].
Proof.
  exact (proj1 (timelineRows_omit_empty_groups calculateCommitPosition_spec
                  (fun commits _ =>
                     [("FEATURE"%string, commits); ("BUG"%string, [])])
                  (state_over 0 100 day) [commit_of_type 50 FEATURE])).
Defined.

(** ** Strings *)

Lemma str_append_nil (s : string) : (s ++ "")%string = s.
Proof. induction s as [ | a s IH]; simpl; [ reflexivity | now rewrite IH ]. Qed.


Lemma str_take_append (a b : string) (n : nat) :
  str_take (String.length a + n) (a ++ b)%string = (a ++ str_take n b)%string.
Proof.
  induction a as [ | x a IH]; simpl; [ | now rewrite IH ].
  destruct n, b; reflexivity.
Qed.

Lemma strip_prefix_append (p s r : string) :
  strip_prefix p s = Some r <-> s = (p ++ r)%string.
Proof.
  revert s. induction p as [ | a p IH]; intros s; simpl.
  - destruct s; split; congruence.
  - destruct s as [ | b s]; [ split; discriminate | ].
    destruct (Ascii.eqb_spec a b) as [-> | Hne].
    + rewrite IH. split; congruence.
    + split; [ discriminate | congruence ].
Qed.

Lemma take_drop_while (p : ascii -> bool) (s : string) :
  s = (take_while p s ++ drop_while p s)%string.
Proof.
  induction s as [ | a s IH]; simpl; [ reflexivity | ].
  destruct (p a); simpl; [ now rewrite <- IH | reflexivity ].
Qed.

Lemma drop_while_head (p : ascii -> bool) (s : string) (a : ascii) (s' : string) :
  drop_while p s = String a s' -> p a = false.
Proof.
  induction s as [ | b s IH]; simpl; [ discriminate | ].
  destruct (p b) eqn:E; [ exact IH | ]. congruence.
Qed.

Lemma not_slash_false (a : ascii) : not_slash a = false -> a = "/"%char.
Proof.
  unfold not_slash, is_char. intros H. apply negb_false_iff in H.
  now apply Ascii.eqb_eq in H.
Qed.

(** ** The matcher on the patterns of the sources *)

Section StarFacts.
Variable R : Type.
Variable p : ascii -> bool.
Variable k : mstate -> option R.

(** When the continuation cannot start on a character of the class, only
    the longest run is followed by a match. *)
Lemma star_blocked :
  (forall i c a s, p a = true ->
     k {| pos := i; rest := String a s; cap := c |} = None) ->
  forall s i c,
    star p k i c s
    = k {| pos := i + String.length (take_while p s);
           rest := drop_while p s; cap := c |}.
Proof.
  intros Hblocked. induction s as [ | a s IH]; intros i c; simpl.
  - now rewrite Nat.add_0_r.
  - destruct (p a) eqn:E; simpl.
    + rewrite IH, (Hblocked i c a s E), Nat.add_succ_r. simpl.
      now destruct (k _).
    + now rewrite Nat.add_0_r.
Qed.

(** The longest run is tried first. *)
Lemma star_greedy :
  forall s i c x,
    k {| pos := i + String.length (take_while p s);
         rest := drop_while p s; cap := c |} = Some x ->
    star p k i c s = Some x.
Proof.
  induction s as [ | a s IH]; intros i c x; simpl.
  - now rewrite Nat.add_0_r.
  - destruct (p a) eqn:E; simpl.
    + rewrite Nat.add_succ_r. intros H. now rewrite (IH (S i) c x H).
    + now rewrite Nat.add_0_r.
Qed.
End StarFacts.

Lemma matcher_repo_re (i : nat) (s : string) :
  option_map cap
    (matcher repo_re (fun st => Some st) {| pos := i; rest := s; cap := None |})
  = option_map Some
      (match strip_prefix "github.com/" s with
       | Some r => owner_repo r
       | None => None
       end).
Proof.
  unfold repo_re. cbn [matcher pos rest cap].
  destruct (strip_prefix "github.com/" s) as [r | ]; [ | reflexivity ].
  unfold owner_repo.
  destruct r as [ | a r']; [ reflexivity | ].
  cbn [take_while drop_while].
  destruct (not_slash a) eqn:Ea; [ | reflexivity ].
  rewrite star_blocked.
  2:{ intros j c b t Hb. cbn [matcher pos rest cap strip_prefix].
      destruct (Ascii.eqb_spec "/"%char b) as [<- | _]; [ | reflexivity ].
      discriminate. }
  cbn [matcher pos rest cap].
  destruct (drop_while not_slash r') as [ | b s2] eqn:Edrop;
    [ reflexivity | ].
  rewrite (not_slash_false _ (drop_while_head _ _ Edrop)).
  cbn [strip_prefix Ascii.eqb Bool.eqb].
  destruct s2 as [ | c s2']; [ reflexivity | ].
  cbn [take_while nonempty andb].
  destruct (not_slash c) eqn:Ec; [ | reflexivity ].
  erewrite star_greedy; [ | reflexivity ].
  cbn [option_map cap pos rest nonempty]. do 2 f_equal.
  set (owner := take_while not_slash r').
  set (repo := take_while not_slash s2').
  assert (Hr : r' = (owner ++ String "/" (String c (repo ++ drop_while not_slash s2')))%string).
  { rewrite (take_drop_while not_slash r') at 1. fold owner. rewrite Edrop.
    rewrite (not_slash_false _ (drop_while_head _ _ Edrop)).
    now rewrite (take_drop_while not_slash s2') at 1. }
  generalize (i + String.length "github.com/"). intros n.
  cbn [String.length].
  replace (S (S n + String.length owner + 1) + String.length repo - n)
    with (S (String.length owner + S (S (String.length repo + 0)))) by lia.
  rewrite Hr. cbn [str_take]. rewrite str_take_append.
  cbn [str_take]. rewrite str_take_append.
  assert (Hz : str_take 0 (drop_while not_slash s2') = ""%string)
    by (destruct (drop_while not_slash s2'); reflexivity).
  rewrite Hz, str_append_nil. reflexivity.
Qed.

Lemma exec_from_repo_re (s : string) (i : nat) :
  option_map (fun m => cap (final m)) (exec_from repo_re i s)
  = option_map Some (first_github_pair s).
Proof.
  revert i. induction s as [ | a s IH]; intros i.
  - reflexivity.
  - pose proof (matcher_repo_re i (String a s)) as Hm.
    cbn [exec_from first_github_pair].
    destruct (matcher repo_re (fun st => Some st)
                {| pos := i; rest := String a s; cap := None |}) as [st' | ].
    + cbn [option_map final] in *.
      destruct (match strip_prefix "github.com/" (String a s) with
                | Some r => owner_repo r
                | None => None
                end); [ exact Hm | discriminate ].
    + destruct (match strip_prefix "github.com/" (String a s) with
                | Some r => owner_repo r
                | None => None
                end); [ discriminate | ].
      apply IH.
Qed.

Lemma matcher_git_suffix_re (i : nat) (s : string) :
  matcher git_suffix_re (fun st => Some st)
    {| pos := i; rest := s; cap := None |}
  = if String.eqb s ".git"
    then Some {| pos := i + 4; rest := ""; cap := None |}
    else None.
Proof.
  unfold git_suffix_re. cbn [matcher pos rest cap String.length].
  destruct (strip_prefix ".git" s) as [r | ] eqn:E.
  - apply strip_prefix_append in E. subst s.
    destruct r as [ | b r]; [ reflexivity | ].
    destruct (String.eqb_spec (".git" ++ String b r) ".git") as [Heq | _];
      [ | reflexivity ].
    discriminate.
  - destruct (String.eqb_spec s ".git") as [-> | _]; [ | reflexivity ].
    discriminate.
Qed.

Lemma exec_from_git_suffix_re (s : string) (i : nat) :
  match exec_from git_suffix_re i s with
  | Some m =>
      i <= index m /\
      str_take (index m - i) s = drop_trailing ".git" s /\
      rest (final m) = ""%string
  | None => drop_trailing ".git" s = s
  end.
Proof.
  revert i. induction s as [ | a s IH]; intros i.
  - reflexivity.
  - cbn [exec_from]. rewrite matcher_git_suffix_re.
    cbn [drop_trailing].
    destruct (String.eqb (String a s) ".git").
    + cbn [index final rest]. rewrite Nat.sub_diag. auto.
    + specialize (IH (S i)).
      destruct (exec_from git_suffix_re (S i) s) as [m | ].
      * destruct IH as (Hle & Htake & Hrest). repeat split; [ lia | | exact Hrest ].
        replace (index m - i) with (S (index m - S i)) by lia.
        cbn [str_take]. now rewrite Htake.
      * now rewrite IH.
Qed.

Lemma String_replace_git_suffix (s : string) :
  String_replace git_suffix_re "" s = drop_trailing ".git" s.
Proof.
  unfold String_replace, RegExp_exec.
  pose proof (exec_from_git_suffix_re s 0) as H.
  destruct (exec_from git_suffix_re 0 s) as [m | ]; [ | now rewrite H ].
  destruct H as (_ & Htake & Hrest).
  rewrite Nat.sub_0_r in Htake. rewrite Htake, Hrest. cbn [append].
  apply str_append_nil.
Qed.

Lemma String_split_first (p : ascii -> bool) (s : string) :
  nth_error (String_split p s) 0 = Some (take_while (fun a => negb (p a)) s).
Proof.
  induction s as [ | a s IH]; [ reflexivity | ].
  cbn [String_split take_while].
  destruct (p a); [ reflexivity | ].
  destruct (String_split p s) as [ | h t]; [ discriminate | ].
  cbn [negb nth_error] in *. congruence.
Qed.

Lemma first_github_pair_first (s r p : string) :
  after_first_github s = Some r -> owner_repo r = Some p ->
  first_github_pair s = Some p.
Proof.
  induction s as [ | a s IH]; cbn [after_first_github first_github_pair].
  - destruct (strip_prefix "github.com/" ""); [ | discriminate ].
    intros [= ->] ->. reflexivity.
  - destruct (strip_prefix "github.com/" (String a s)).
    + intros [= ->] ->. reflexivity.
    + exact IH.
Qed.

Lemma first_github_pair_none (s : string) :
  after_first_github s = None -> first_github_pair s = None.
Proof.
  induction s as [ | a s IH]; cbn [after_first_github first_github_pair].
  - destruct (strip_prefix "github.com/" ""); [ discriminate | reflexivity ].
  - destruct (strip_prefix "github.com/" (String a s)); [ discriminate | ].
    exact IH.
Qed.

(** *** The steps of the description *)

Lemma take_while_all (p : ascii -> bool) (s : string) :
  all_chars p (take_while p s) = true.
Proof.
  induction s as [ | a s IH]; simpl; [ reflexivity | ].
  destruct (p a) eqn:E; simpl; [ now rewrite E | reflexivity ].
Qed.

(** What [before_params] keeps and what it drops. *)
Lemma before_params_spec (url : string) :
  all_chars (fun a => negb (params_class a)) (before_params url) = true /\
  exists dropped,
    url = (before_params url ++ dropped)%string /\
    (dropped = ""%string \/
     exists a r, dropped = String a r /\ params_class a = true).
Proof.
  unfold before_params. split; [ apply take_while_all | ].
  exists (drop_while (fun a => negb (params_class a)) url).
  split; [ apply take_drop_while | ].
  destruct (drop_while (fun a => negb (params_class a)) url) as [ | a r] eqn:E.
  - now left.
  - right. exists a, r. split; [ reflexivity | ].
    apply drop_while_head in E. now apply negb_false_iff in E.
Qed.


(** [drop_trailing] leaves the other strings alone. *)
Lemma drop_trailing_other (suffix s : string) :
  (forall t, s <> (t ++ suffix)%string) -> drop_trailing suffix s = s.
Proof.
  induction s as [ | a s IH]; intros Hno.
  - cbn [drop_trailing]. now destruct (String.eqb "" suffix).
  - cbn [drop_trailing].
    destruct (String.eqb_spec (String a s) suffix) as [Heq | _].
    + exfalso. apply (Hno ""%string). exact Heq.
    + rewrite IH; [ reflexivity | ].
      intros t Ht. apply (Hno (String a t)). simpl. now rewrite Ht.
Qed.

(** What [owner_repo] returns is a pair that starts the string. *)
Lemma owner_repo_spec (s p : string) :
  owner_repo s = Some p ->
  exists owner repo tail,
    p = (owner ++ "/" ++ repo)%string /\
    s = (owner ++ "/" ++ repo ++ tail)%string /\
    owner <> ""%string /\ repo <> ""%string /\
    all_chars not_slash owner = true /\ all_chars not_slash repo = true /\
    (tail = ""%string \/ exists r, tail = String "/" r).
Proof.
  unfold owner_repo.
  destruct (drop_while not_slash s) as [ | b s2] eqn:Edrop; [ discriminate | ].
  destruct (take_while not_slash s) as [ | a owner] eqn:Eowner;
    [ discriminate | ].
  destruct (take_while not_slash s2) as [ | c repo] eqn:Erepo;
    [ discriminate | ].
  cbn [nonempty andb]. intros [= <-].
  exists (String a owner), (String c repo), (drop_while not_slash s2).
  repeat split; try discriminate.
  - rewrite (take_drop_while not_slash s) at 1. rewrite Eowner, Edrop.
    rewrite (not_slash_false _ (drop_while_head _ _ Edrop)).
    rewrite (take_drop_while not_slash s2) at 1. now rewrite Erepo.
  - rewrite <- Eowner. apply take_while_all.
  - rewrite <- Erepo. apply take_while_all.
  - destruct (drop_while not_slash s2) as [ | d r] eqn:Etail; [ now left | ].
    right. exists r. now rewrite (not_slash_false _ (drop_while_head _ _ Etail)).
Qed.

(** The call returns normally, with the name computed step by step. *)
Lemma extractRepoNameFromUrl_returns (url : string) :
  extractRepoNameFromUrl url = Normal (Some (repo_name_of url)).
Proof.
  unfold extractRepoNameFromUrl, repo_name_of, before_params.
  rewrite String_split_first, String_replace_git_suffix.
  unfold RegExp_exec.
  set (clean := drop_trailing ".git"
                  (take_while (fun a => negb (params_class a)) url)).
  pose proof (exec_from_repo_re clean 0) as H.
  destruct (exec_from repo_re 0 clean) as [m | ];
    destruct (first_github_pair clean) as [p | ];
    cbn [option_map] in H; congruence.
Qed.

(** C9 - [extractRepoNameFromUrl]: for every input string the call returns
    normally with a string.  The string is computed from the input without
    everything from the first ['?'] or ['#'] onward and without a trailing
    [.git]: it is the [owner/repo] pair that follows the first occurrence
    of [github.com/] that is followed by such a pair, and the empty string
    when no occurrence is.  In particular it is the pair after the first
    occurrence when that occurrence has one, and empty when [github.com/]
    does not occur. *)
Theorem extractRepoNameFromUrl_spec :
  forall url : string,
    extractRepoNameFromUrl url = Normal (Some (repo_name_of url)) /\
    (forall r p,
       after_first_github (drop_trailing ".git" (before_params url)) = Some r ->
       owner_repo r = Some p -> repo_name_of url = p) /\
    (after_first_github (drop_trailing ".git" (before_params url)) = None ->
     repo_name_of url = ""%string).
Proof.
  intros url. split; [ | split ].
  - apply extractRepoNameFromUrl_returns.
  - intros r p Hr Hp. unfold repo_name_of.
    now rewrite (first_github_pair_first _ Hr Hp).
  - intros Hnone. unfold repo_name_of.
    now rewrite (first_github_pair_none _ Hnone).
Qed.

(** C9, as the description words it, fails: the first occurrence of
    [github.com/] in this input is followed by a slash, not by a pair, and
    the search goes on to the second occurrence. *)
Lemma extractRepoNameFromUrl_later_occurrence :
  extractRepoNameFromUrl "https://github.com//github.com/a/b"
    = Normal (Some "a/b"%string)
  /\ repo_name_after_first_occurrence "https://github.com//github.com/a/b"
     = ""%string
  /\ extractRepoNameFromUrl "https://github.com//github.com/a/b"
     <> Normal
          (Some (repo_name_after_first_occurrence
                   "https://github.com//github.com/a/b")).
Proof.
  repeat split; try reflexivity. vm_compute. discriminate.
Qed.

Lemma extractRepoNameFromUrl_spec_witness :
  repo_name_of "https://github.com/owner/repo.git?tab=readme#top"
  = "owner/repo"%string.
Proof.
  apply (proj1 (proj2 (extractRepoNameFromUrl_spec
                         "https://github.com/owner/repo.git?tab=readme#top"))
           "owner/repo"%string "owner/repo"%string); reflexivity.
Defined.

(** ** The repository input form *)

Lemma falsy_empty (s : string) : falsy s = true <-> s = ""%string.
Proof. destruct s; simpl; split; congruence. Qed.

(** The trace of the handler, case by case. *)
Lemma handleSubmit_trace (env : FormEnv) (url : string) :
  calls_onSubmit (handleSubmit env url)
  = negb (falsy (String_trim url)) && validateUrl url
    && negb (falsy (repo_name_of url))
    && match checkRepoExists env (repo_name_of url) with
       | Some _ => true
       | None => false
       end.
Proof.
  unfold handleSubmit. rewrite extractRepoNameFromUrl_returns.
  destruct (falsy (String_trim url)); [ reflexivity | ].
  destruct (validateUrl url); [ | reflexivity ].
  destruct (repo_name_of url) as [ | a name]; [ reflexivity | ].
  destruct (checkRepoExists env (String a name)); [ | reflexivity ].
  destruct (onSubmit_resolves env url (String a name) b); reflexivity.
Qed.

(** C10 - Guards of the form: [handleSubmit] reaches its [onSubmit] call
    only when the entered URL is non-empty after trimming, [validateUrl]
    accepts it and [extractRepoNameFromUrl] returns a non-empty name; for
    every input that fails one of these checks [onSubmit] is not called.
    When it is called, it receives the URL as entered, the extracted name
    and the answer of [checkRepoExists]. *)
Theorem handleSubmit_guards :
  forall (env : FormEnv) (url : string),
    (calls_onSubmit (handleSubmit env url) = true ->
       String_trim url <> ""%string /\
       validateUrl url = true /\
       exists name,
         extractRepoNameFromUrl url = Normal (Some name) /\
         name <> ""%string) /\
    (String_trim url = ""%string \/ validateUrl url = false \/
     extractRepoNameFromUrl url = Normal (Some ""%string) ->
       calls_onSubmit (handleSubmit env url) = false) /\
    (forall u name b,
       In (OnSubmit u name b) (handleSubmit env url) ->
       u = url /\ extractRepoNameFromUrl url = Normal (Some name) /\
       checkRepoExists env name = Some b).
Proof.
  intros env url. split; [ | split ].
  - rewrite handleSubmit_trace. intros H.
    apply andb_prop in H. destruct H as [H _].
    apply andb_prop in H. destruct H as [H Hname].
    apply andb_prop in H. destruct H as [Htrim Hvalid].
    apply negb_true_iff in Htrim, Hname.
    split; [ | split; [ exact Hvalid | ] ].
    + intros He. apply falsy_empty in He. congruence.
    + exists (repo_name_of url). split.
      * apply extractRepoNameFromUrl_returns.
      * intros He. apply falsy_empty in He. congruence.
  - rewrite handleSubmit_trace. intros [H | [H | H]].
    + apply falsy_empty in H. now rewrite H.
    + rewrite H. now rewrite andb_false_r.
    + rewrite extractRepoNameFromUrl_returns in H. injection H as H.
      rewrite H. simpl. now rewrite andb_false_r.
  - intros u name b. unfold handleSubmit.
    rewrite extractRepoNameFromUrl_returns.
    destruct (falsy (String_trim url)).
    { intros [H | [H | []]]; discriminate. }
    destruct (validateUrl url).
    2:{ intros [H | [H | []]]; discriminate. }
    destruct (repo_name_of url) as [ | a s].
    { intros [H | [H | [H | []]]]; discriminate. }
    destruct (checkRepoExists env (String a s)) as [e | ] eqn:Echeck.
    2:{ simpl. intuition discriminate. }
    destruct (onSubmit_resolves env url (String a s) e); simpl;
      intros H; repeat (destruct H as [H | H]; try discriminate);
      try contradiction; injection H as <- <- <-; auto.
Qed.

Lemma handleSubmit_guards_witness :
  String_trim "https://github.com/owner/repo" <> ""%string /\
  validateUrl "https://github.com/owner/repo" = true /\
  exists name,
    extractRepoNameFromUrl "https://github.com/owner/repo"
      = Normal (Some name) /\
    name <> ""%string.
Proof.
  apply (proj1 (handleSubmit_guards accepting_env
                  "https://github.com/owner/repo")).
  reflexivity.
Defined.

(** ** Examples *)

(** Scenario B: two commits of category BUG at rounded position 42 form
    one cluster of two members with dominant category BUG. *)
Example scenario_B :
  map renderCluster
    (clusterCommits calculateCommitPosition_spec (state_over 0 1000 day)
       [commit_of_type 418 BUG; commit_of_type 421 BUG] EmptyString)
  = [Some (ClusterMarker (of_Z 42) BUG 2)].
Proof. reflexivity. Qed.

(** Array-index keys come first, in ascending order; the other keys keep
    their insertion order. *)
Example mixed_keys_order :
  map position
    (clusterCommits calculateCommitPosition_spec (state_over 0 100 day)
       [commit_at 50 None; commit_at (-3) None; commit_at 4294967295 None;
        commit_at 10 None; commit_at 4294967294 None] EmptyString)
  = [of_Z 10; of_Z 50; of_Z 4294967294; of_Z (-3); of_Z 4294967295].
Proof. vm_compute. reflexivity. Qed.

(** Ties are rounded towards positive infinity. *)
Example Math_round_ties :
  Math_round (Finite (5 # 2)) = of_Z 3 /\
  Math_round (Finite (-5 # 2)) = of_Z (-2) /\
  Math_round NaN = NaN.
Proof. repeat split. Qed.

Example validateUrl_examples :
  validateUrl "https://github.com/owner/repo" = true /\
  validateUrl "http://www.github.com/own-er/re.po/tree/main" = true /\
  validateUrl "https://gitlab.com/owner/repo" = false /\
  validateUrl " https://github.com/owner/repo" = false /\
  validateUrl "https://github.com/owner" = false.
Proof. repeat split. Qed.

(** A URL that [validateUrl] accepts and whose name is empty all the
    same: the trailing [.git] is the whole repository segment. *)
Example handleSubmit_empty_name :
  handleSubmit accepting_env "https://github.com/owner/.git"
  = [PreventDefault;
     ConsoleLog "Extracted repo name:" "";
     ToastError "Could not extract repository name from URL"].
Proof. reflexivity. Qed.

Example handleSubmit_accepts :
  handleSubmit accepting_env "https://github.com/owner/repo.git"
  = [PreventDefault;
     ConsoleLog "Extracted repo name:" "owner/repo";
     SetCheckingRepo true;
     CheckRepoExists "owner/repo";
     SetCheckingRepo false;
     ConsoleLog "Repository exists:" "true";
     OnSubmit "https://github.com/owner/repo.git" "owner/repo" true].
Proof. reflexivity. Qed.

(** * Further properties *)

(** ** Clusters and markers *)

Lemma cluster_members_nonempty
    (calculateCommitPosition : Date -> Date -> Date -> TimeScale -> number)
    (st : TimelineState) (cs : list Commit) (g : string) (cl : ClusteredCommit) :
  In cl (clusterCommits calculateCommitPosition st cs g) -> commits cl <> [].
Proof.
  intros Hcl. apply in_clusterCommits in Hcl. destruct Hcl as [Hpos Hmem].
  apply in_map_iff in Hpos. destruct Hpos as (c & Hc & Hin).
  assert (Hmember : In c (commits cl)).
  { rewrite Hmem. apply in_at_position. auto. }
  intros Hnil. rewrite Hnil in Hmember. exact Hmember.
Qed.

Lemma renderCluster_count (cl : ClusteredCommit) :
  commits cl <> [] ->
  exists m, renderCluster cl = Some m /\
            marker_count (Some m) = List.length (commits cl).
Proof.
  intros Hne. unfold renderCluster.
  destruct (Nat.eqb_spec (List.length (commits cl)) 1) as [Hone | Hmany].
  - destruct (commits cl) as [ | c l]; [ congruence | ].
    simpl in *. eexists. split; [ reflexivity | ]. simpl. lia.
  - assert (Htypes : commitTypes cl <> []).
    { apply commitTypes_nonempty. destruct (commits cl); simpl; [ congruence | lia ]. }
    destruct (dominantType_of_spec Htypes) as (d & _ & _ & Hd & _).
    unfold dominantType. rewrite Hd. eexists. split; reflexivity.
Qed.

Lemma clusterCommits_total
    (calculateCommitPosition : Date -> Date -> Date -> TimeScale -> number)
    (st : TimelineState) (cs : list Commit) (g : string) :
  list_sum
    (map (fun cl => List.length (commits cl))
       (clusterCommits calculateCommitPosition st cs g))
  = List.length cs.
Proof.
  rewrite <- length_flat_map_commits. apply Permutation_length.
  unfold clusterCommits. rewrite flat_map_clusters.
  eapply perm_trans; [ apply flat_map_perm, Object_entries_perm | ].
  apply grouped_members_perm.
Qed.

(** Every cluster that [clusterCommits] returns renders: a cluster of one
    commit gives the marker of that commit in its effective category, a
    larger one a cluster marker whose badge is the number of its members;
    the indexing of the sorted tally never meets [undefined]. *)
Theorem clusters_always_render :
  forall (calculateCommitPosition : Date -> Date -> Date -> TimeScale -> number)
         (st : TimelineState) (cs : list Commit) (g : string)
         (cl : ClusteredCommit),
    In cl (clusterCommits calculateCommitPosition st cs g) ->
    (exists c,
       commits cl = [c] /\
       renderCluster cl
       = Some (CommitMarker (sha c) (effectiveCategory c) (position cl))) \/
    (2 <= List.length (commits cl) /\
     exists d,
       renderCluster cl
       = Some (ClusterMarker (position cl) d (List.length (commits cl)))).
Proof.
  intros calc st cs g cl Hcl.
  pose proof (@cluster_members_nonempty _ _ _ _ _ Hcl) as Hne.
  destruct (commits cl) as [ | c [ | c' l]] eqn:E; [ congruence | | ].
  - left. exists c. split; [ reflexivity | ].
    unfold renderCluster. rewrite E. simpl.
    now rewrite <- type_or_CHORE_first.
  - right. split; [ simpl; lia | ].
    assert (Hne' : commits cl <> []) by (rewrite E; discriminate).
    destruct (@renderCluster_count cl Hne') as (m & Hm & _).
    unfold renderCluster in *. rewrite E in *. simpl in *.
    destruct (dominantType cl) as [d | ]; [ | discriminate ].
    now exists d.
Qed.

Lemma clusters_always_render_witness :
  (exists c,
     commits {| position := of_Z 10; commits := [commit_of_type 10 BUG] |}
       = [c] /\
     renderCluster {| position := of_Z 10; commits := [commit_of_type 10 BUG] |}
     = Some (CommitMarker (sha c) (effectiveCategory c) (of_Z 10))) \/
  (2 <= List.length [commit_of_type 10 BUG] /\
   exists d,
     renderCluster {| position := of_Z 10; commits := [commit_of_type 10 BUG] |}
     = Some (ClusterMarker (of_Z 10) d (List.length [commit_of_type 10 BUG]))).
Proof.
  apply (@clusters_always_render calculateCommitPosition_spec
           (state_over 0 100 day)
           [commit_of_type 50 FEATURE; commit_of_type 10 BUG;
            commit_of_type 50 BUG] EmptyString
           {| position := of_Z 10; commits := [commit_of_type 10 BUG] |}).
  left. reflexivity.
Defined.

Lemma markers_total
    (calculateCommitPosition : Date -> Date -> Date -> TimeScale -> number)
    (st : TimelineState) (cs : list Commit) (g : string) :
  list_sum
    (map marker_count
       (map renderCluster (clusterCommits calculateCommitPosition st cs g)))
  = List.length cs.
Proof.
  rewrite <- (clusterCommits_total calculateCommitPosition st cs g).
  rewrite map_map. f_equal. apply map_ext_in. intros cl Hcl.
  destruct (@renderCluster_count cl (@cluster_members_nonempty _ _ _ _ _ Hcl))
    as (m & -> & Hcount).
  exact Hcount.
Qed.

(** The markers stand for all the commits.  In a row, the single markers
    and the badges of the cluster markers add up to the number of commits
    of the group; over the rendered rows of the timeline they add up to
    the number of commits in all groups of the grouped output. *)
Theorem markers_count_all_commits :
  forall (calculateCommitPosition : Date -> Date -> Date -> TimeScale -> number)
         (groupCommits : list Commit -> GroupBy -> list (string * list Commit))
         (st : TimelineState) (commits : list Commit),
    (forall cs g,
       list_sum
         (map marker_count
            (map renderCluster
               (clusterCommits calculateCommitPosition st cs g)))
       = List.length cs) /\
    list_sum
      (map (fun row => list_sum (map marker_count (row_markers row)))
         (timelineRows calculateCommitPosition groupCommits st commits))
    = list_sum
        (map (fun entry => List.length (snd entry))
           (groupCommits commits (groupBy st))).
Proof.
  intros calc groupCommits st commits.
  split; [ intros cs g; apply markers_total | ].
  unfold timelineRows.
  generalize (groupCommits commits (groupBy st)). intros groups.
  unfold renderedRows, renderGroups.
  induction groups as [ | [name cs] groups IH]; [ reflexivity | ].
  cbn [map flat_map renderGroup snd].
  destruct cs as [ | c cs].
  - exact IH.
  - cbn [List.length Nat.ltb Nat.leb app map row_markers].
    change (list_sum (map marker_count
                        (map renderCluster
                           (clusterCommits calc st (c :: cs) name))) +
            list_sum
              (map (fun row => list_sum (map marker_count (row_markers row)))
                 (flat_map
                    (fun r => match r with Some row => [row] | None => [] end)
                    (map (renderGroup calc st) groups)))
            = S (List.length cs) +
              list_sum (map (fun entry => List.length (snd entry)) groups)).
    rewrite IH. f_equal.
    apply (markers_total calc st (c :: cs) name).
Qed.

Lemma firsts_constant (A : Type)
    (eq_dec : forall a b : A, {a = b} + {a <> b}) (p : A) (l : list A) :
  l <> [] -> (forall x, In x l -> x = p) -> firsts eq_dec l = [p].
Proof.
  destruct l as [ | x l]; [ congruence | intros _ Hall ].
  simpl. rewrite (Hall x (or_introl eq_refl)). f_equal.
  assert (Hsub : forall y, In y (firsts eq_dec l) -> y = p).
  { intros y Hy. apply Hall. right. exact (proj1 (in_firsts eq_dec y l) Hy). }
  induction (firsts eq_dec l) as [ | y ys IH]; [ reflexivity | ].
  simpl. rewrite (Hsub y (or_introl eq_refl)).
  replace (differs eq_dec p p) with false.
  - apply IH. intros z Hz. apply Hsub. now right.
  - symmetry. apply not_true_is_false. rewrite differs_true. tauto.
Qed.

(** Clustering is stable: the members of a cluster, clustered again in
    the same render state, form that one cluster again. *)
Theorem clusterCommits_stable :
  forall (calculateCommitPosition : Date -> Date -> Date -> TimeScale -> number)
         (st : TimelineState) (cs : list Commit) (g g' : string)
         (cl : ClusteredCommit),
    In cl (clusterCommits calculateCommitPosition st cs g) ->
    clusterCommits calculateCommitPosition st (commits cl) g' = [cl].
Proof.
  intros calc st cs g g' cl Hcl.
  pose proof (@cluster_members_nonempty _ _ _ _ _ Hcl) as Hne.
  apply in_clusterCommits in Hcl. destruct Hcl as [_ Hmem].
  assert (Hall : forall x,
            In x (map (roundedPosition calc st) (commits cl)) ->
            x = position cl).
  { intros x Hx. apply in_map_iff in Hx. destruct Hx as (c & <- & Hc).
    rewrite Hmem in Hc. now apply in_at_position in Hc. }
  assert (Hmap : map (roundedPosition calc st) (commits cl) <> []).
  { destruct (commits cl); [ congruence | discriminate ]. }
  unfold clusterCommits. rewrite positionMap_of_grouped. unfold grouped.
  rewrite (firsts_constant number_eq_dec Hmap Hall).
  assert (Hkeep : with_key number_eq_dec (roundedPosition calc st)
                    (position cl) (commits cl) = commits cl).
  { unfold with_key. apply forallb_filter_id, forallb_forall. intros c Hc.
    rewrite (Hall _ (in_map _ _ _ Hc)).
    destruct (number_eq_dec (position cl) (position cl)); congruence. }
  cbn [map]. rewrite Hkeep. unfold Object_entries, is_index.
  cbn [filter fst]. destruct cl as [p m]. cbn [position commits].
  destruct (number_array_index p); reflexivity.
Qed.

Lemma clusterCommits_stable_witness :
  clusterCommits calculateCommitPosition_spec (state_over 0 100 day)
    [commit_of_type 50 FEATURE; commit_of_type 50 BUG] EmptyString
  = [{| position := of_Z 50;
        commits := [commit_of_type 50 FEATURE; commit_of_type 50 BUG] |}].
Proof.
  apply (@clusterCommits_stable calculateCommitPosition_spec
           (state_over 0 100 day)
           [commit_of_type 50 FEATURE; commit_of_type 10 BUG;
            commit_of_type 50 BUG] EmptyString EmptyString
           {| position := of_Z 50;
              commits := [commit_of_type 50 FEATURE; commit_of_type 50 BUG] |}).
  right. left. reflexivity.
Defined.

Lemma number_array_index_Some (k : number) (z : Z) :
  number_array_index k = Some z -> k = of_Z z.
Proof.
  unfold number_array_index, integer_value.
  destruct k as [ | | | [n d]]; try discriminate. cbn [Qden Qnum].
  destruct (Pos.eqb_spec d 1) as [-> | _]; [ | discriminate ].
  destruct (_ && _); [ | discriminate ].
  now intros [= ->].
Qed.

Lemma table_keys_filter (V : Type) (g : number -> V) (keep : bool)
    (ks : list number) :
  map fst
    (filter (fun e : number * V =>
               Bool.eqb (is_index number_array_index e) keep)
       (map (fun k => (k, g k)) ks))
  = filter (fun k => Bool.eqb (is_index_number k) keep) ks.
Proof.
  induction ks as [ | k ks IH]; [ reflexivity | ].
  cbn [map filter]. unfold is_index at 1. cbn [fst].
  unfold is_index_number at 1.
  destruct (number_array_index k); destruct keep; cbn [Bool.eqb map];
    now rewrite IH.
Qed.

(** The order of the clusters: the clusters whose position is an array
    index come first, in strictly ascending order of position; the
    clusters at any other position (negative, beyond the index range,
    infinite or not a number) follow, in the order in which their position
    first occurs in the input. *)
Theorem clusterCommits_order :
  forall (calculateCommitPosition : Date -> Date -> Date -> TimeScale -> number)
         (st : TimelineState) (cs : list Commit) (g : string),
    exists indexed,
      map position (clusterCommits calculateCommitPosition st cs g)
      = indexed
          ++ filter (fun p => negb (is_index_number p))
               (firsts number_eq_dec
                  (map (roundedPosition calculateCommitPosition st) cs)) /\
      Permutation indexed
        (filter is_index_number
           (firsts number_eq_dec
              (map (roundedPosition calculateCommitPosition st) cs))) /\
      StronglySorted number_lt indexed.
Proof.
  intros calc st cs g.
  set (ks := firsts number_eq_dec (map (roundedPosition calc st) cs)).
  set (o := positionMap_of calc st cs).
  assert (Ho : o = map (fun k => (k, with_key number_eq_dec
                                      (roundedPosition calc st) k cs)) ks).
  { unfold o. now rewrite positionMap_of_grouped. }
  set (sorted := Array_sort (index_cmp number_array_index)
                   (filter (is_index number_array_index) o)).
  assert (Hperm : Permutation sorted (filter (is_index number_array_index) o))
    by apply Array_sort_perm.
  assert (Hyes : map fst (filter (is_index number_array_index) o)
                 = filter is_index_number ks).
  { rewrite Ho.
    rewrite (filter_ext _ (fun e => Bool.eqb (is_index number_array_index e) true)).
    - rewrite table_keys_filter. apply filter_ext. intros k.
      now destruct (is_index_number k).
    - intros e. now destruct (is_index number_array_index e). }
  assert (Hno : map fst (filter (fun e => negb (is_index number_array_index e)) o)
                = filter (fun p => negb (is_index_number p)) ks).
  { rewrite Ho.
    rewrite (filter_ext _ (fun e => Bool.eqb (is_index number_array_index e) false)).
    - rewrite table_keys_filter. apply filter_ext. intros k.
      now destruct (is_index_number k).
    - intros e. now destruct (is_index number_array_index e). }
  assert (Hkey : forall e, In e sorted ->
                   fst e = of_Z (index_rank number_array_index e)).
  { intros e He. apply (Permutation_in _ Hperm), filter_In in He.
    destruct He as [_ He]. unfold is_index in He. unfold index_rank.
    destruct (number_array_index (fst e)) as [z | ] eqn:E; [ | discriminate ].
    now apply number_array_index_Some. }
  exists (map fst sorted). split; [ | split ].
  - unfold clusterCommits. fold o. rewrite map_map. cbn [position].
    unfold Number, Object_entries. fold sorted.
    rewrite <- Hno, <- map_app. apply map_ext. now intros [k v].
  - rewrite <- Hyes. now apply Permutation_map.
  - assert (Hfst : map fst sorted
                   = map of_Z (map (index_rank number_array_index) sorted)).
    { rewrite map_map. now apply map_ext_in. }
    apply StronglySorted_map_in
      with (R := fun a b => (index_rank number_array_index a
                             < index_rank number_array_index b)%Z).
    + intros a b Ha Hb Hlt. rewrite (Hkey a Ha), (Hkey b Hb).
      now apply number_lt_of_Z.
    + apply StronglySorted_strict.
      * apply Array_sort_sorted with (rank := index_rank number_array_index).
        reflexivity.
      * apply NoDup_map_inv with (f := of_Z). rewrite <- Hfst.
        apply Permutation_NoDup
          with (l := map fst (filter (is_index number_array_index) o)).
        -- apply Permutation_sym, Permutation_map, Hperm.
        -- rewrite Hyes. apply NoDup_filter, NoDup_firsts.
Qed.

(** The number of markers of a row: [clusterCommits] returns at most as
    many clusters as it is given commits, and at most 101 when every
    position rounds to a whole number from 0 to 100. *)
Theorem clusterCommits_at_most_101 :
  forall (calculateCommitPosition : Date -> Date -> Date -> TimeScale -> number)
         (st : TimelineState) (cs : list Commit) (g : string),
    (forall c, In c cs ->
       exists z, (0 <= z <= 100)%Z /\
                 roundedPosition calculateCommitPosition st c = of_Z z) ->
    List.length (clusterCommits calculateCommitPosition st cs g)
      <= List.length cs /\
    List.length (clusterCommits calculateCommitPosition st cs g) <= 101.
Proof.
  intros calc st cs g Hgrid.
  assert (Hlen : List.length (clusterCommits calc st cs g)
                 = List.length
                     (firsts number_eq_dec (map (roundedPosition calc st) cs))).
  { rewrite <- (length_map position).
    apply Permutation_length, clusterCommits_positions. }
  rewrite Hlen. split.
  - rewrite <- (length_map (roundedPosition calc st) cs).
    apply NoDup_incl_length; [ apply NoDup_firsts | ].
    intros x Hx. now apply in_firsts in Hx.
  - change 101 with (List.length (map of_Z (map Z.of_nat (seq 0 101)))).
    apply NoDup_incl_length; [ apply NoDup_firsts | ].
    intros x Hx. apply in_firsts, in_map_iff in Hx.
    destruct Hx as (c & <- & Hc). destruct (Hgrid c Hc) as (z & Hz & ->).
    apply in_map, in_map_iff. exists (Z.to_nat z). split; [ lia | ].
    apply in_seq. lia.
Qed.

Lemma clusterCommits_at_most_101_witness :
  List.length
    (clusterCommits calculateCommitPosition_spec (state_over 0 100 day)
       [commit_of_type 50 FEATURE; commit_of_type 10 BUG;
        commit_of_type 50 BUG] EmptyString)
  <= 101.
Proof.
  apply clusterCommits_at_most_101.
  intros c [<- | [<- | [<- | []]]].
  - exists 50%Z. split; [ lia | reflexivity ].
  - exists 10%Z. split; [ lia | reflexivity ].
  - exists 50%Z. split; [ lia | reflexivity ].
Defined.

Lemma filter_perm (A : Type) (f : A -> bool) (l l' : list A) :
  Permutation l l' -> Permutation (filter f l) (filter f l').
Proof.
  induction 1 as [ | x l l' _ IH | x y l | l l' l'' _ IH1 _ IH2]; simpl.
  - constructor.
  - destruct (f x); [ now apply perm_skip | exact IH ].
  - destruct (f x), (f y); try apply Permutation_refl. apply perm_swap.
  - eapply perm_trans; eassumption.
Qed.

(** The clusters do not depend on the order in which the commits arrive:
    for two orders of the same commits, [clusterCommits] returns clusters
    at the same positions, and the cluster at a position has the same
    members up to their order. *)
Theorem clusterCommits_order_independent :
  forall (calculateCommitPosition : Date -> Date -> Date -> TimeScale -> number)
         (st : TimelineState) (cs cs' : list Commit) (g g' : string),
    Permutation cs cs' ->
    Permutation
      (map position (clusterCommits calculateCommitPosition st cs g))
      (map position (clusterCommits calculateCommitPosition st cs' g')) /\
    forall cl,
      In cl (clusterCommits calculateCommitPosition st cs g) ->
      exists cl',
        In cl' (clusterCommits calculateCommitPosition st cs' g') /\
        position cl' = position cl /\
        Permutation (commits cl) (commits cl').
Proof.
  intros calc st cs cs' g g' Hperm.
  assert (Hpos : Permutation (map (roundedPosition calc st) cs)
                   (map (roundedPosition calc st) cs'))
    by now apply Permutation_map.
  split.
  - eapply perm_trans; [ apply clusterCommits_positions | ].
    eapply perm_trans; [ | apply Permutation_sym, clusterCommits_positions ].
    apply NoDup_Permutation; try apply NoDup_firsts.
    intros x. rewrite !in_firsts. split; apply Permutation_in;
      [ exact Hpos | now apply Permutation_sym ].
  - intros cl Hcl. apply in_clusterCommits in Hcl. destruct Hcl as [Hin Hmem].
    exists {| position := position cl;
              commits := at_position (roundedPosition calc st)
                           (position cl) cs' |}.
    split; [ | split; [ reflexivity | ] ].
    + apply in_clusterCommits. cbn [position commits].
      split; [ | reflexivity ]. now apply (Permutation_in _ Hpos).
    + rewrite Hmem. cbn [commits]. now apply filter_perm.
Qed.

Lemma clusterCommits_order_independent_witness :
  Permutation
    (map position
       (clusterCommits calculateCommitPosition_spec (state_over 0 100 day)
          [commit_of_type 50 FEATURE; commit_of_type 10 BUG] EmptyString))
    (map position
       (clusterCommits calculateCommitPosition_spec (state_over 0 100 day)
          [commit_of_type 10 BUG; commit_of_type 50 FEATURE] EmptyString)).
Proof.
  apply (proj1 (@clusterCommits_order_independent calculateCommitPosition_spec
                  (state_over 0 100 day)
                  [commit_of_type 50 FEATURE; commit_of_type 10 BUG]
                  [commit_of_type 10 BUG; commit_of_type 50 FEATURE]
                  EmptyString EmptyString (perm_swap _ _ _))).
Defined.

Lemma frequency_disjoint (d t : CommitType) (l : list CommitType) :
  d <> t -> frequency d l + frequency t l <= List.length l.
Proof.
  intros Hne. unfold frequency. induction l as [ | x l IH]; simpl; [ lia | ].
  destruct (CommitType_eq_dec x d); destruct (CommitType_eq_dec x t);
    try congruence; lia.
Qed.

(** A category that more than half of the members of a cluster have is the
    dominant one, whatever the order of the members. *)
Theorem dominantType_majority :
  forall (cluster : ClusteredCommit) (t : CommitType),
    List.length (commits cluster)
      < 2 * frequency t (map effectiveCategory (commits cluster)) ->
    dominantType cluster = Some t.
Proof.
  intros cluster t Hmaj. rewrite <- commitTypes_effective in Hmaj.
  assert (Hlen : List.length (commitTypes cluster)
                 = List.length (commits cluster))
    by (unfold commitTypes; apply length_map).
  assert (Hne : commitTypes cluster <> []).
  { intros Hnil. rewrite Hnil in Hmaj. simpl in Hmaj. lia. }
  destruct (dominantType_of_spec Hne) as (d & _ & _ & Hd & _ & _ & Hmax & _).
  unfold dominantType. rewrite Hd. f_equal.
  destruct (CommitType_eq_dec d t) as [Heq | Hdiff]; [ exact Heq | ].
  pose proof (frequency_disjoint (commitTypes cluster) Hdiff) as Hsum.
  specialize (Hmax t). lia.
Qed.

Lemma dominantType_majority_witness :
  dominantType
    {| position := of_Z 7;
       commits := [commit_of_type 1 BUG; commit_of_type 2 WARNING;
                   commit_of_type 3 WARNING] |}
  = Some WARNING.
Proof.
  apply dominantType_majority. simpl. lia.
Defined.

(** ** The tooltip of a single commit *)

Lemma str_take_length (n : nat) (s : string) :
  String.length (str_take n s) = Nat.min n (String.length s).
Proof.
  revert s. induction n as [ | n IH]; intros [ | a s]; simpl; auto.
Qed.

Lemma str_take_whole (n : nat) (s : string) :
  str_take n s = s <-> String.length s <= n.
Proof.
  split.
  - intros H. rewrite <- H, str_take_length. lia.
  - revert s. induction n as [ | n IH]; intros [ | a s]; simpl; intros H;
      try reflexivity; try lia.
    f_equal. apply IH. lia.
Qed.

(** The lower part of the tooltip.  Without a first analysis, or when its
    idea is empty, it shows the description cut to its first 100
    characters, and the dots appear exactly when something was cut; a
    non-empty idea is shown in full, however long, and the dots then only
    tell that it is longer than 100 characters. *)
Theorem commitTooltip_body :
  forall commit : Commit,
    (forall d,
       description commit = Some d ->
       (nth_error (analyses_of commit) 0 = None \/
        exists a, nth_error (analyses_of commit) 0 = Some a /\
                  idea a = EmptyString) ->
       tooltip_body (commitTooltip commit) = Some (str_take 100 d) /\
       String.length (str_take 100 d) <= 100 /\
       (tooltip_ellipsis (commitTooltip commit) = true
        <-> str_take 100 d <> d)) /\
    (forall a,
       nth_error (analyses_of commit) 0 = Some a ->
       idea a <> EmptyString ->
       tooltip_body (commitTooltip commit) = Some (idea a) /\
       (tooltip_ellipsis (commitTooltip commit) = true
        <-> 100 < String.length (idea a))) /\
    (description commit = None ->
     (nth_error (analyses_of commit) 0 = None \/
      exists a, nth_error (analyses_of commit) 0 = Some a /\
                idea a = EmptyString) ->
     tooltip_text (commitTooltip commit) = EmptyString).
Proof.
  intros commit. unfold commitTooltip, tooltip_text.
  cbn [tooltip_body tooltip_ellipsis]. split; [ | split ].
  - intros d Hd Hidea. rewrite Hd.
    assert (Hcut : Nat.ltb 100 (String.length d) = true <-> str_take 100 d <> d).
    { rewrite Nat.ltb_lt, str_take_whole. lia. }
    assert (Hlen : String.length (str_take 100 d) <= 100)
      by (rewrite str_take_length; lia).
    destruct Hidea as [-> | (a & -> & Ha)]; cbn [option_map or_string].
    + cbn [or_length over_100]. auto.
    + rewrite Ha. cbn [or_string String.length or_length over_100]. auto.
  - intros a -> Ha. cbn [option_map].
    destruct (idea a) as [ | x i] eqn:E; [ congruence | ].
    cbn [or_string or_length String.length over_100].
    split; [ reflexivity | ]. now rewrite Nat.ltb_lt.
  - intros Hd Hidea. rewrite Hd.
    destruct Hidea as [-> | (a & -> & Ha)]; cbn [option_map or_string].
    + reflexivity.
    + now rewrite Ha.
Qed.

Lemma commitTooltip_body_witness :
  tooltip_body (commitTooltip
     {| sha := EmptyString; date := 0; author := EmptyString;
        message := EmptyString; description := Some "fix"%string;
        commit_analyses := None; commit_analises := None |})
  = Some "fix"%string.
Proof.
  apply (proj1 (commitTooltip_body _) "fix"%string); [ reflexivity | ].
  left. reflexivity.
Defined.

(** ** The repository input form, continued *)

Lemma handleSubmit_cases (env : FormEnv) (url : string) :
  handleSubmit env url =
  PreventDefault ::
  if falsy (String_trim url) then
    [ToastError "Please enter a repository URL"]
  else if negb (validateUrl url) then
    [ToastError "Please enter a valid GitHub repository URL"]
  else
    ConsoleLog "Extracted repo name:" (repo_name_of url) ::
    if falsy (repo_name_of url) then
      [ToastError "Could not extract repository name from URL"]
    else
      SetCheckingRepo true :: CheckRepoExists (repo_name_of url) ::
      match checkRepoExists env (repo_name_of url) with
      | Some b =>
          SetCheckingRepo false ::
          ConsoleLog "Repository exists:" (string_of_bool b) ::
          OnSubmit url (repo_name_of url) b ::
          if onSubmit_resolves env url (repo_name_of url) b then []
          else [ConsoleError "Error submitting repository URL:";
                ToastError "Failed to process repository. Please try again.";
                SetCheckingRepo false]
      | None =>
          [ConsoleError "Error submitting repository URL:";
           ToastError "Failed to process repository. Please try again.";
           SetCheckingRepo false]
      end.
Proof.
  unfold handleSubmit. rewrite extractRepoNameFromUrl_returns.
  destruct (falsy (String_trim url)); [ reflexivity | ].
  destruct (negb (validateUrl url)); [ reflexivity | ].
  destruct (repo_name_of url); reflexivity.
Qed.

(** One outcome per submission: [handleSubmit] shows at most one error
    toast, asks [checkRepoExists] at most once and calls [onSubmit] at
    most once; it shows no toast exactly when [onSubmit] was called and
    resolved. *)
Theorem handleSubmit_one_outcome :
  forall (env : FormEnv) (url : string),
    let trace := handleSubmit env url in
    List.length (filter is_ToastError trace) <= 1 /\
    List.length (filter is_CheckRepoExists trace) <= 1 /\
    List.length (filter is_OnSubmit trace) <= 1 /\
    (filter is_ToastError trace = [] <->
     exists name b,
       In (OnSubmit url name b) trace /\
       onSubmit_resolves env url name b = true).
Proof.
  intros env url trace. unfold trace. rewrite handleSubmit_cases.
  destruct (falsy (String_trim url)).
  { cbn. repeat split; try lia; try discriminate.
    intros (n & b & [H | [H | []]] & _); discriminate. }
  destruct (negb (validateUrl url)).
  { cbn. repeat split; try lia; try discriminate.
    intros (n & b & [H | [H | []]] & _); discriminate. }
  destruct (falsy (repo_name_of url)).
  { cbn. repeat split; try lia; try discriminate.
    intros (n & b & [H | [H | [H | []]]] & _); discriminate. }
  destruct (checkRepoExists env (repo_name_of url)) as [b | ].
  2:{ cbn. repeat split; try lia; try discriminate.
      intros (n & b & H & _).
      repeat (destruct H as [H | H]; try discriminate). contradiction. }
  destruct (onSubmit_resolves env url (repo_name_of url) b) eqn:Eres.
  - cbn. repeat split; try lia.
    intros _. exists (repo_name_of url), b. split; [ | exact Eres ].
    do 6 right. now left.
  - cbn. repeat split; try lia; try discriminate.
    intros (n & b' & H & Hres).
    repeat (destruct H as [H | H]; try discriminate); try contradiction.
    injection H as <- <-. congruence.
Qed.

Lemma handleSubmit_one_outcome_witness :
  filter is_ToastError
    (handleSubmit accepting_env "https://github.com/owner/repo") = [].
Proof.
  apply (proj2 (proj2 (proj2 (proj2
           (handleSubmit_one_outcome accepting_env
              "https://github.com/owner/repo"))))).
  exists "owner/repo"%string, true. split; [ | reflexivity ].
  vm_compute. do 6 right. left. reflexivity.
Defined.

(** The busy flag: in every run of [handleSubmit], [checkRepoExists] is
    called while [checkingRepo] is set, [onSubmit] is called after it has
    been cleared, and the flag is clear again when the handler ends,
    also when one of the two calls fails. *)
Theorem handleSubmit_busy_flag :
  forall (env : FormEnv) (url : string),
    busy_protocol false (handleSubmit env url) = true /\
    checkingRepo_after false (handleSubmit env url) = false.
Proof.
  intros env url. rewrite handleSubmit_cases.
  destruct (falsy (String_trim url)); [ split; reflexivity | ].
  destruct (negb (validateUrl url)); [ split; reflexivity | ].
  destruct (falsy (repo_name_of url)); [ split; reflexivity | ].
  destruct (checkRepoExists env (repo_name_of url)) as [b | ];
    [ | split; reflexivity ].
  destruct (onSubmit_resolves env url (repo_name_of url) b); split; reflexivity.
Qed.

(** [checkRepoExists] and the form together: when [onSubmit] is called,
    the count query for the extracted name returned no error and the flag
    passed on tells whether the count is a number above zero (a [null]
    count gives [false]); when the query returns an error, [onSubmit] is
    not called and the failure toast is shown. *)
Theorem handleSubmit_with_checkRepoExists :
  forall (query : string -> CountResponse)
         (resolves : string -> string -> bool -> bool) (url : string),
    (forall u name b,
       In (OnSubmit u name b) (handleSubmit (supabase_env query resolves) url) ->
       error (query name) = None /\
       (b = true <-> exists n, count (query name) = Some n /\ (0 < n)%Z)) /\
    (forall e,
       falsy (String_trim url) = false -> validateUrl url = true ->
       repo_name_of url <> EmptyString ->
       error (query (repo_name_of url)) = Some e ->
       calls_onSubmit (handleSubmit (supabase_env query resolves) url) = false /\
       In (ToastError "Failed to process repository. Please try again.")
          (handleSubmit (supabase_env query resolves) url)).
Proof.
  intros query resolves url. rewrite handleSubmit_cases. split.
  - intros u name b.
    destruct (falsy (String_trim url)).
    { intros [H | [H | []]]; discriminate. }
    destruct (negb (validateUrl url)).
    { intros [H | [H | []]]; discriminate. }
    destruct (falsy (repo_name_of url)).
    { intros [H | [H | [H | []]]]; discriminate. }
    cbn [supabase_env checkRepoExists onSubmit_resolves].
    unfold checkRepoExists_on.
    destruct (error (query (repo_name_of url))) as [e | ] eqn:Eerr;
      cbn [snd].
    { intros H. repeat (destruct H as [H | H]; try discriminate).
      contradiction. }
    assert (Hflag : forall c,
              count_positive c = true <-> exists n, c = Some n /\ (0 < n)%Z).
    { intros [n | ]; simpl.
      - rewrite Z.ltb_lt. split.
        + intros Hn. now exists n.
        + now intros (m & [= <-] & Hm).
      - split; [ discriminate | now intros (m & Hm & _) ]. }
    destruct (resolves url (repo_name_of url)
                (count_positive (count (query (repo_name_of url)))));
      intros H; repeat (destruct H as [H | H]; try discriminate);
      try contradiction; injection H as <- <- <-;
      (split; [ exact Eerr | apply Hflag ]).
  - intros e Htrim Hvalid Hname Herr. rewrite Htrim, Hvalid. cbn [negb].
    destruct (repo_name_of url) as [ | a s] eqn:En; [ congruence | ].
    cbn [falsy supabase_env checkRepoExists onSubmit_resolves].
    unfold checkRepoExists_on. rewrite Herr. cbn [snd].
    split; [ reflexivity | ]. do 5 right. now left.
Qed.

Lemma handleSubmit_with_checkRepoExists_witness :
  error {| count := Some 3%Z; error := None |} = None /\
  (true = true <->
   exists n, count {| count := Some 3%Z; error := None |} = Some n /\ (0 < n)%Z).
Proof.
  apply (proj1 (handleSubmit_with_checkRepoExists
                  (fun _ => {| count := Some 3%Z; error := None |})
                  (fun _ _ _ => true)
                  "https://github.com/owner/repo")
           "https://github.com/owner/repo"%string "owner/repo"%string true).
  vm_compute. do 6 right. left. reflexivity.
Defined.

(** ** The matcher and the strings a pattern accepts *)

Section AcceptsFacts.
Variable R : Type.

Lemma star_accepts_matcher (p : ascii -> bool) (k : mstate -> option R)
    (f : nat -> string -> bool) :
  (forall st, is_some (k st) = f (pos st) (rest st)) ->
  forall s i c, is_some (star p k i c s) = star_accepts f p i s.
Proof.
  intros Hk. induction s as [ | a s IH]; intros i c; cbn [star star_accepts].
  - apply (Hk {| pos := i; rest := EmptyString; cap := c |}).
  - pose proof (Hk {| pos := i; rest := String a s; cap := c |}) as Hhere.
    cbn [pos rest] in Hhere.
    destruct (p a); cbn [andb orb]; [ | exact Hhere ].
    rewrite <- (IH (S i) c), <- Hhere.
    now destruct (star p k (S i) c s).
Qed.

(** The backtracking matcher finds a match exactly on the strings the
    pattern accepts. *)
Lemma matcher_accepts (r : regex) :
  forall (k : mstate -> option R) (f : nat -> string -> bool),
    (forall st, is_some (k st) = f (pos st) (rest st)) ->
    forall st, is_some (matcher r k st) = accepts r f (pos st) (rest st).
Proof.
  induction r as [l | p | r1 IH1 r2 IH2 | r1 IH1 | p | p | r1 IH1 | | ];
    intros k f Hk st; cbn [matcher accepts].
  - destruct (strip_prefix l (rest st)); [ | reflexivity ]. apply Hk.
  - destruct (rest st) as [ | a s]; [ reflexivity | ].
    destruct (p a); [ apply Hk | reflexivity ].
  - apply IH1. intros st'. now apply IH2.
  - rewrite <- (IH1 k f Hk st), <- Hk.
    now destruct (matcher r1 k st).
  - now apply star_accepts_matcher.
  - destruct (rest st) as [ | a s]; [ reflexivity | ].
    destruct (p a); [ now apply star_accepts_matcher | reflexivity ].
  - apply IH1. intros st'.
    apply (Hk {| pos := pos st'; rest := rest st';
                 cap := Some (str_take (pos st' - pos st) (rest st)) |}).
  - destruct (Nat.eqb (pos st) 0); [ apply Hk | reflexivity ].
  - destruct (rest st) eqn:E; [ rewrite <- E; apply Hk | reflexivity ].
Qed.
End AcceptsFacts.

Lemma exec_from_Bol (r : regex) (s : string) (i : nat) :
  exec_from (Cat Bol r) (S i) s = None.
Proof.
  revert i. induction s as [ | a s IH]; intros i; cbn; [ reflexivity | ].
  apply IH.
Qed.

Lemma RegExp_test_anchored (r : regex) (s : string) :
  RegExp_test (Cat Bol r) s = accepts r (fun _ _ => true) 0 s.
Proof.
  unfold RegExp_test, RegExp_exec.
  pose proof (matcher_accepts r (fun st => Some st) (fun _ _ => true)
                (fun _ => eq_refl) {| pos := 0; rest := s; cap := None |})
    as Hm.
  cbn [pos rest] in Hm. rewrite <- Hm.
  destruct s as [ | a s]; cbn [exec_from matcher pos Nat.eqb].
  - now destruct (matcher r _ _).
  - destruct (matcher r _ _); [ reflexivity | ]. now rewrite exec_from_Bol.
Qed.

Lemma star_accepts_blocked (f : nat -> string -> bool) (p : ascii -> bool) :
  (forall i a t, p a = true -> f i (String a t) = false) ->
  forall s i,
    star_accepts f p i s
    = f (i + String.length (take_while p s)) (drop_while p s).
Proof.
  intros Hblocked. induction s as [ | a s IH]; intros i;
    cbn [star_accepts take_while drop_while].
  - cbn. now rewrite Nat.add_0_r.
  - destruct (p a) eqn:E; cbn [andb String.length].
    + rewrite IH, (Hblocked i a s E), orb_false_r. f_equal. lia.
    + cbn. now rewrite Nat.add_0_r.
Qed.

Lemma star_accepts_absorbed (f : nat -> string -> bool) (p q : ascii -> bool) :
  (forall i s, f i s = all_chars q s) ->
  (forall a, p a = true -> q a = true) ->
  forall s i, star_accepts f p i s = all_chars q s.
Proof.
  intros Hf Hpq. induction s as [ | a s IH]; intros i; cbn [star_accepts].
  - apply Hf.
  - rewrite IH, Hf. cbn [all_chars].
    destruct (p a) eqn:E; cbn [andb orb]; [ | reflexivity ].
    rewrite (Hpq a E). cbn [andb]. apply orb_diag.
Qed.

Lemma class_inclusions (a : ascii) :
  (owner_class a = true -> repo_class a = true) /\
  (repo_class a = true ->
   is_dot a = true /\ not_slash a = true /\ params_class a = false /\
   is_white_space a = false).
Proof.
  destruct a as [[] [] [] [] [] [] [] []]; vm_compute; intuition congruence.
Qed.

Lemma accepts_dots (i : nat) (s : string) :
  accepts (Cat (Opt (Lit "/")) (Cat (Star is_dot) Eol)) (fun _ _ => true) i s
  = all_chars is_dot s.
Proof.
  assert (Hdots : forall j t,
            star_accepts (accepts Eol (fun _ _ => true)) is_dot j t
            = all_chars is_dot t).
  { intros j t. revert j. induction t as [ | a t IH]; intros j;
      cbn [star_accepts accepts all_chars]; [ reflexivity | ].
    rewrite IH. now rewrite orb_false_r. }
  cbn [accepts]. rewrite Hdots.
  destruct s as [ | a s]; [ reflexivity | ].
  cbn [strip_prefix]. destruct (Ascii.eqb_spec "/"%char a) as [<- | _].
  - rewrite Hdots. cbn [all_chars]. apply orb_diag.
  - reflexivity.
Qed.

Lemma accepts_Lit_Cat (l : string) (r : regex) (f : nat -> string -> bool)
    (i : nat) (s : string) :
  accepts (Cat (Lit l) r) f i s
  = match strip_prefix l s with
    | Some s' => accepts r f (i + String.length l) s'
    | None => false
    end.
Proof. reflexivity. Qed.

Lemma accepts_Plus_Cat (p : ascii -> bool) (r : regex)
    (f : nat -> string -> bool) (i : nat) (s : string) :
  accepts (Cat (Plus p) r) f i s
  = match s with
    | String a s' => p a && star_accepts (accepts r f) p (S i) s'
    | EmptyString => false
    end.
Proof. reflexivity. Qed.

Lemma accepts_Opt_Cat (r1 r : regex) (f : nat -> string -> bool)
    (i : nat) (s : string) :
  accepts (Cat (Opt r1) r) f i s
  = accepts r1 (accepts r f) i s || accepts r f i s.
Proof. reflexivity. Qed.

Lemma accepts_host_path (i : nat) (s : string) :
  accepts
    (Cat (Lit "github.com/")
    (Cat (Plus (fun a => is_word a || is_char "-" a))
    (Cat (Lit "/")
    (Cat (Plus (fun a => is_word a || is_char "." a || is_char "-" a))
    (Cat (Opt (Lit "/"))
    (Cat (Star is_dot)
         Eol))))))
    (fun _ _ => true) i s
  = host_path_ok s.
Proof.
  unfold host_path_ok.
  change (fun a => is_word a || is_char "-" a) with owner_class.
  change (fun a => is_word a || is_char "." a || is_char "-" a) with repo_class.
  rewrite accepts_Lit_Cat.
  destruct (strip_prefix "github.com/" s) as [r | ]; [ | reflexivity ].
  rewrite accepts_Plus_Cat.
  destruct r as [ | a r]; [ reflexivity | ].
  cbn [take_while drop_while].
  destruct (owner_class a) eqn:Ea; cbn [andb].
  2:{ cbn [nonempty andb]. reflexivity. }
  rewrite star_accepts_blocked.
  2:{ intros j b t Hb. rewrite accepts_Lit_Cat. cbn [strip_prefix].
      destruct (Ascii.eqb_spec "/"%char b) as [<- | _]; [ | reflexivity ].
      discriminate. }
  destruct (drop_while owner_class r) as [ | b rest] eqn:Edrop;
    [ reflexivity | ].
  rewrite accepts_Lit_Cat.
  cbn [nonempty andb strip_prefix]. unfold is_char at 1.
  rewrite (Ascii.eqb_sym b "/"%char).
  destruct (Ascii.eqb "/"%char b); [ | reflexivity ].
  cbn [andb]. rewrite accepts_Plus_Cat.
  destruct rest as [ | c rest']; [ reflexivity | ].
  rewrite (star_accepts_absorbed
             (accepts (Cat (Opt (Lit "/")) (Cat (Star is_dot) Eol))
                (fun _ _ => true)) repo_class is_dot).
  - cbn [all_chars]. destruct (repo_class c) eqn:Ec; [ | reflexivity ].
    now rewrite (proj1 (proj2 (class_inclusions c) Ec)).
  - intros j t. apply accepts_dots.
  - intros x Hx. apply (proj2 (class_inclusions x) Hx).
Qed.

Lemma take_while_all_id (p : ascii -> bool) (s : string) :
  all_chars p s = true -> take_while p s = s.
Proof.
  induction s as [ | a s IH]; cbn [all_chars take_while]; [ reflexivity | ].
  intros H. apply andb_prop in H. destruct H as [-> H]. now rewrite IH.
Qed.

Lemma take_while_stop (p : ascii -> bool) (x : string) (b : ascii) (y : string) :
  all_chars p x = true -> p b = false ->
  take_while p (x ++ String b y) = x /\
  drop_while p (x ++ String b y) = String b y.
Proof.
  intros Hx Hb. induction x as [ | a x IH];
    cbn [append take_while drop_while all_chars] in *.
  - now rewrite Hb.
  - apply andb_prop in Hx. destruct Hx as [-> Hx].
    destruct (IH Hx) as [-> ->]. auto.
Qed.

Lemma all_chars_app (p : ascii -> bool) (x y : string) :
  all_chars p (x ++ y) = all_chars p x && all_chars p y.
Proof.
  induction x as [ | a x IH]; cbn [append all_chars]; [ reflexivity | ].
  now rewrite IH, andb_assoc.
Qed.

Lemma host_path_ok_iff (s : string) :
  host_path_ok s = true <->
  exists owner rest,
    s = ("github.com/" ++ owner ++ "/" ++ rest)%string /\
    owner <> EmptyString /\ all_chars owner_class owner = true /\
    (exists a r, rest = String a r /\ repo_class a = true) /\
    all_chars is_dot rest = true.
Proof.
  unfold host_path_ok. split.
  - destruct (strip_prefix "github.com/" s) as [r | ] eqn:Es; [ | discriminate ].
    apply strip_prefix_append in Es.
    destruct (drop_while owner_class r) as [ | b rest] eqn:Edrop;
      [ discriminate | ].
    intros H. apply andb_prop in H. destruct H as [H Hdots].
    apply andb_prop in H. destruct H as [H Hrepo].
    apply andb_prop in H. destruct H as [Howner Hslash].
    apply Ascii.eqb_eq in Hslash. subst b.
    exists (take_while owner_class r), rest. repeat split.
    + rewrite Es. f_equal. rewrite (take_drop_while owner_class r) at 1.
      now rewrite Edrop.
    + intros Hnil. rewrite Hnil in Howner. discriminate.
    + apply take_while_all.
    + destruct rest as [ | a r']; [ discriminate | ]. now exists a, r'.
    + exact Hdots.
  - intros (owner & rest & -> & Howner & Hclass & (a & r & -> & Ha) & Hdots).
    rewrite (proj2 (strip_prefix_append "github.com/" _ _) eq_refl).
    destruct (@take_while_stop owner_class owner "/"%char (String a r)
                Hclass eq_refl)
      as [Htake Hdrop].
    change (owner ++ "/" ++ String a r)%string
      with (owner ++ String "/" (String a r))%string.
    rewrite Htake, Hdrop, Ha, Hdots.
    destruct owner; [ congruence | reflexivity ].
Qed.

Lemma accepts_after_scheme (i : nat) (s : string) :
  accepts
    (Cat (Lit "://")
    (Cat (Opt (Capture (Lit "www.")))
    (Cat (Lit "github.com/")
    (Cat (Plus (fun a => is_word a || is_char "-" a))
    (Cat (Lit "/")
    (Cat (Plus (fun a => is_word a || is_char "." a || is_char "-" a))
    (Cat (Opt (Lit "/"))
    (Cat (Star is_dot)
         Eol))))))))
    (fun _ _ => true) i s = true
  <-> exists www tail,
        s = ("://" ++ www ++ tail)%string /\
        (www = EmptyString \/ www = "www."%string) /\
        host_path_ok tail = true.
Proof.
  rewrite accepts_Lit_Cat. split.
  - destruct (strip_prefix "://" s) as [s3 | ] eqn:E3; [ | discriminate ].
    apply strip_prefix_append in E3. rewrite accepts_Opt_Cat.
    intros H. apply orb_true_iff in H. destruct H as [H | H].
    + cbn [accepts] in H.
      destruct (strip_prefix "www." s3) as [s4 | ] eqn:E4; [ | discriminate ].
      apply strip_prefix_append in E4.
      change (accepts
                (Cat (Lit "github.com/")
                (Cat (Plus (fun a => is_word a || is_char "-" a))
                (Cat (Lit "/")
                (Cat (Plus (fun a => is_word a || is_char "." a || is_char "-" a))
                (Cat (Opt (Lit "/"))
                (Cat (Star is_dot) Eol))))))
                (fun _ _ => true)
                (i + String.length "://" + String.length "www.") s4 = true)
        in H.
      rewrite accepts_host_path in H.
      exists "www."%string, s4. subst. auto.
    + rewrite accepts_host_path in H. exists EmptyString, s3. subst. auto.
  - intros (www & tail & -> & Hwww & Htail).
    rewrite (proj2 (strip_prefix_append "://" _ _) eq_refl).
    rewrite accepts_Opt_Cat. apply orb_true_iff.
    destruct Hwww as [-> | ->].
    + right. now rewrite accepts_host_path.
    + left. cbn [accepts].
      rewrite (proj2 (strip_prefix_append "www." _ _) eq_refl).
      change (accepts
                (Cat (Lit "github.com/")
                (Cat (Plus (fun a => is_word a || is_char "-" a))
                (Cat (Lit "/")
                (Cat (Plus (fun a => is_word a || is_char "." a || is_char "-" a))
                (Cat (Opt (Lit "/"))
                (Cat (Star is_dot) Eol))))))
                (fun _ _ => true)
                (i + String.length "://" + String.length "www.") tail = true).
      now rewrite accepts_host_path.
Qed.

Lemma validateUrl_sound (url : string) :
  validateUrl url = true -> repository_url_shape url.
Proof.
  unfold validateUrl, githubRegex, repository_url_shape.
  rewrite RegExp_test_anchored, accepts_Lit_Cat.
  destruct (strip_prefix "http" url) as [s1 | ] eqn:E1; [ | discriminate ].
  apply strip_prefix_append in E1. rewrite accepts_Opt_Cat.
  intros H. apply orb_true_iff in H. destruct H as [H | H].
  - cbn [accepts] in H.
    destruct (strip_prefix "s" s1) as [s2 | ] eqn:E2; [ | discriminate ].
    apply strip_prefix_append in E2.
    apply accepts_after_scheme in H.
    destruct H as (www & tail & -> & Hwww & Htail).
    apply host_path_ok_iff in Htail.
    destruct Htail as (owner & rest & -> & Hrest).
    exists "https"%string, www, owner, rest. subst. auto.
  - apply accepts_after_scheme in H.
    destruct H as (www & tail & -> & Hwww & Htail).
    apply host_path_ok_iff in Htail.
    destruct Htail as (owner & rest & -> & Hrest).
    exists "http"%string, www, owner, rest. subst. auto.
Qed.

Lemma validateUrl_complete (url : string) :
  repository_url_shape url -> validateUrl url = true.
Proof.
  unfold validateUrl, githubRegex, repository_url_shape.
  rewrite RegExp_test_anchored, accepts_Lit_Cat.
  intros (scheme & www & owner & rest & -> & Hscheme & Hwww & Hrest).
  assert (Htail : host_path_ok ("github.com/" ++ owner ++ "/" ++ rest) = true).
  { apply host_path_ok_iff. exists owner, rest. auto. }
  destruct Hscheme as [-> | ->].
  - rewrite (proj2 (strip_prefix_append "http" _ _) eq_refl).
    rewrite accepts_Opt_Cat. apply orb_true_iff. right.
    apply accepts_after_scheme.
    exists www, ("github.com/" ++ owner ++ "/" ++ rest)%string. auto.
  - change ("https" ++ "://" ++ www ++ "github.com/" ++ owner ++ "/" ++ rest)%string
      with ("http" ++ "s" ++ "://" ++ www ++ "github.com/" ++ owner ++ "/" ++ rest)%string.
    rewrite (proj2 (strip_prefix_append "http" _ _) eq_refl).
    rewrite accepts_Opt_Cat. apply orb_true_iff. left.
    cbn [accepts].
    rewrite (proj2 (strip_prefix_append "s" _ _) eq_refl).
    apply accepts_after_scheme.
    exists www, ("github.com/" ++ owner ++ "/" ++ rest)%string. auto.
Qed.

(** [validateUrl] accepts exactly the strings that consist of [http] or
    [https], [://], an optional [www.], [github.com/], an owner made of
    one or more word characters and hyphens, a slash, and a rest that
    starts with a word character, a dot or a hyphen and holds no line
    terminator; anything else may follow the first character of the
    rest, spaces included. *)
Theorem validateUrl_shape :
  forall url : string, validateUrl url = true <-> repository_url_shape url.
Proof.
  intros url. split.
  - apply validateUrl_sound.
  - apply validateUrl_complete.
Qed.

Lemma validateUrl_shape_witness :
  repository_url_shape "https://www.github.com/own-er/re.po/tree/main".
Proof.
  apply (proj1 (validateUrl_shape
                  "https://www.github.com/own-er/re.po/tree/main")).
  reflexivity.
Defined.

(** ** [extractRepoNameFromUrl] on the forms of a repository URL *)

Lemma str_append_assoc (a b c : string) :
  ((a ++ b) ++ c)%string = (a ++ b ++ c)%string.
Proof. induction a as [ | x a IH]; simpl; [ reflexivity | now rewrite IH ]. Qed.

Lemma before_params_app (x y : string) :
  all_chars (fun a => negb (params_class a)) x = true ->
  before_params (x ++ y) = (x ++ before_params y)%string.
Proof.
  unfold before_params. induction x as [ | a x IH];
    cbn [append all_chars take_while]; [ reflexivity | ].
  intros H. apply andb_prop in H. destruct H as [-> H]. now rewrite IH.
Qed.

Lemma before_params_of_params (q : string) :
  is_params q -> before_params q = EmptyString.
Proof.
  unfold before_params. intros [-> | (c & r & -> & Hc)]; [ reflexivity | ].
  cbn [take_while]. now rewrite Hc.
Qed.

Lemma before_params_idempotent (url : string) :
  before_params (before_params url) = before_params url.
Proof. unfold before_params. apply take_while_all_id, take_while_all. Qed.

Lemma repo_name_of_before_params (url : string) :
  repo_name_of url = repo_name_of (before_params url).
Proof. unfold repo_name_of. now rewrite before_params_idempotent. Qed.

Lemma drop_trailing_after_slash (x y : string) :
  drop_trailing ".git" (x ++ String "/" y)
  = (x ++ String "/" (drop_trailing ".git" y))%string.
Proof.
  induction x as [ | a x IH]; cbn [append].
  - reflexivity.
  - cbn [drop_trailing].
    destruct (String.eqb_spec (String a (x ++ String "/" y)) ".git")
      as [Heq | _].
    + apply (f_equal (all_chars not_slash)) in Heq.
      cbn [all_chars] in Heq. rewrite all_chars_app in Heq.
      cbn [all_chars] in Heq.
      replace (not_slash "/") with false in Heq by reflexivity.
      rewrite andb_false_r, andb_false_r in Heq.
      vm_compute in Heq. discriminate.
    + now rewrite IH.
Qed.

Lemma all_chars_drop_trailing (p : ascii -> bool) (suffix s : string) :
  all_chars p s = true -> all_chars p (drop_trailing suffix s) = true.
Proof.
  induction s as [ | a s IH]; cbn [drop_trailing all_chars].
  - now destruct (String.eqb "" suffix).
  - intros H. apply andb_prop in H. destruct H as [Ha H].
    destruct (String.eqb (String a s) suffix); [ reflexivity | ].
    cbn [all_chars]. now rewrite Ha, IH.
Qed.

Lemma owner_repo_pair (owner repo tail : string) :
  owner <> EmptyString -> all_chars not_slash owner = true ->
  repo <> EmptyString -> all_chars not_slash repo = true ->
  (tail = EmptyString \/ exists t, tail = String "/" t) ->
  owner_repo (owner ++ String "/" (repo ++ tail))
  = Some (owner ++ "/" ++ repo)%string.
Proof.
  intros Ho Hoc Hr Hrc Htail. unfold owner_repo.
  destruct (@take_while_stop not_slash owner "/"%char (repo ++ tail) Hoc eq_refl)
    as [-> ->].
  assert (Hrepo : take_while not_slash (repo ++ tail) = repo).
  { destruct Htail as [-> | (t & ->)].
    - rewrite str_append_nil. now apply take_while_all_id.
    - now apply (@take_while_stop not_slash repo "/"%char t). }
  rewrite Hrepo.
  destruct owner; [ congruence | ]. destruct repo; [ congruence | ].
  reflexivity.
Qed.

Lemma origin_cases (scheme www : string) :
  (scheme = "http"%string \/ scheme = "https"%string) ->
  (www = EmptyString \/ www = "www."%string) ->
  all_chars (fun a => negb (params_class a)) (url_origin scheme www) = true /\
  forall r p,
    owner_repo r = Some p ->
    first_github_pair (url_origin scheme www ++ r) = Some p.
Proof.
  intros [-> | ->] [-> | ->]; (split; [ reflexivity | ]); intros r p Hp;
    cbn -[owner_repo]; now rewrite Hp.
Qed.

Section UrlForms.
Variables scheme www owner repo : string.
Hypothesis scheme_ok : scheme = "http"%string \/ scheme = "https"%string.
Hypothesis www_ok : www = EmptyString \/ www = "www."%string.
Hypothesis owner_ok : is_segment owner.
Hypothesis repo_ok : is_segment repo.

Lemma repo_name_of_form (name rest : string) :
  is_segment name ->
  (rest = EmptyString \/ exists t, rest = String "/" t) ->
  first_github_pair
    (url_origin scheme www ++ owner ++ String "/" (name ++ rest))
  = Some (owner ++ "/" ++ name)%string.
Proof.
  intros (Hn & Hnc & _) Hrest. destruct owner_ok as (Ho & Hoc & _).
  apply (proj2 (origin_cases scheme_ok www_ok)).
  now apply owner_repo_pair.
Qed.

Lemma form_without_params (x : string) :
  all_chars (fun a => negb (params_class a)) x = true ->
  all_chars (fun a => negb (params_class a))
    (url_origin scheme www ++ owner ++ String "/" (repo ++ x)) = true.
Proof.
  intros Hx. destruct owner_ok as (_ & _ & Hop). destruct repo_ok as (_ & _ & Hrp).
  rewrite !all_chars_app. cbn [all_chars].
  rewrite all_chars_app, Hop, Hrp, Hx.
  now rewrite (proj1 (origin_cases scheme_ok www_ok)).
Qed.


Lemma repo_name_plain (q : string) :
  is_params q ->
  drop_trailing ".git" repo <> EmptyString ->
  repo_name_of (url_origin scheme www ++ owner ++ String "/" (repo ++ q))
  = (owner ++ "/" ++ drop_trailing ".git" repo)%string.
Proof.
  intros Hq Hrepo. unfold repo_name_of.
  replace (url_origin scheme www ++ owner ++ String "/" (repo ++ q))%string
    with ((url_origin scheme www ++ owner ++ String "/" (repo ++ "")) ++ q)%string.
  2:{ rewrite !str_append_assoc. cbn [append]. rewrite !str_append_assoc.
      reflexivity. }
  rewrite before_params_app by (now apply form_without_params).
  rewrite (before_params_of_params Hq), !str_append_nil.
  rewrite <- str_append_assoc, drop_trailing_after_slash, str_append_assoc.
  rewrite <- (str_append_nil (drop_trailing ".git" repo)) at 1.
  rewrite repo_name_of_form; [ reflexivity | | now left ].
  destruct repo_ok as (_ & Hc & Hp). repeat split; auto;
    now apply all_chars_drop_trailing.
Qed.

End UrlForms.



(** The query and the fragment are ignored: the function gives the same
    on a URL and on the part of it before the first ['?'] or ['#']. *)
Theorem extractRepoNameFromUrl_ignores_params :
  forall url : string,
    extractRepoNameFromUrl url = extractRepoNameFromUrl (before_params url) /\
    forall q,
      is_params q ->
      all_chars (fun a => negb (params_class a)) url = true ->
      extractRepoNameFromUrl (url ++ q) = extractRepoNameFromUrl url.
Proof.
  intros url. split.
  - rewrite !extractRepoNameFromUrl_returns.
    now rewrite (repo_name_of_before_params url).
  - intros q Hq Hurl. rewrite !extractRepoNameFromUrl_returns.
    rewrite (repo_name_of_before_params (url ++ q)).
    rewrite (before_params_app url q Hurl), (before_params_of_params Hq).
    now rewrite str_append_nil.
Qed.

Lemma extractRepoNameFromUrl_ignores_params_witness :
  extractRepoNameFromUrl ("https://github.com/a/b" ++ "?tab=code#L1")
  = extractRepoNameFromUrl "https://github.com/a/b".
Proof.
  apply (proj2 (extractRepoNameFromUrl_ignores_params "https://github.com/a/b")).
  - right. exists "?"%char, "tab=code#L1"%string. split; reflexivity.
  - reflexivity.
Defined.

Lemma first_github_pair_occurs (s p : string) :
  first_github_pair s = Some p ->
  exists pre r, s = (pre ++ "github.com/" ++ r)%string /\ owner_repo r = Some p.
Proof.
  induction s as [ | a s IH]; cbn [first_github_pair].
  - destruct (strip_prefix "github.com/" "") as [r | ] eqn:E; [ | discriminate ].
    discriminate.
  - destruct (strip_prefix "github.com/" (String a s)) as [r | ] eqn:E.
    + apply strip_prefix_append in E.
      destruct (owner_repo r) as [p' | ] eqn:Ep.
      * intros [= <-]. exists EmptyString, r. auto.
      * intros H. destruct (IH H) as (pre & r' & -> & Hr').
        exists (String a pre), r'. auto.
    + intros H. destruct (IH H) as (pre & r' & -> & Hr').
      exists (String a pre), r'. auto.
Qed.

Lemma drop_trailing_prefix (suffix s : string) :
  exists t, s = (drop_trailing suffix s ++ t)%string.
Proof.
  induction s as [ | a s IH]; cbn [drop_trailing].
  - exists EmptyString. now destruct (String.eqb "" suffix).
  - destruct (String.eqb (String a s) suffix).
    + now exists (String a s).
    + destruct IH as (t & Ht). exists t. cbn [append]. now rewrite <- Ht.
Qed.

(** What the function returns: the empty string, or a name made of two
    non-empty parts around its only slash, free of ['?'] and ['#'], that
    stands in the URL right after an occurrence of [github.com/]. *)
Theorem extractRepoNameFromUrl_name :
  forall url : string,
    exists name,
      extractRepoNameFromUrl url = Normal (Some name) /\
      (name = EmptyString \/
       exists owner repo pre post,
         name = (owner ++ "/" ++ repo)%string /\
         owner <> EmptyString /\ repo <> EmptyString /\
         all_chars not_slash owner = true /\
         all_chars not_slash repo = true /\
         all_chars (fun a => negb (params_class a)) name = true /\
         url = (pre ++ "github.com/" ++ name ++ post)%string).
Proof.
  intros url. exists (repo_name_of url).
  split; [ apply extractRepoNameFromUrl_returns | ].
  unfold repo_name_of.
  set (clean := drop_trailing ".git" (before_params url)).
  destruct (first_github_pair clean) as [p | ] eqn:Ep; [ right | now left ].
  destruct (first_github_pair_occurs _ Ep) as (pre & r & Hclean & Hr).
  destruct (owner_repo_spec _ Hr)
    as (owner & repo & tail & -> & -> & Ho & Hrp & Hoc & Hrc & _).
  destruct (drop_trailing_prefix ".git" (before_params url)) as (t1 & Ht1).
  fold clean in Ht1.
  assert (Hclean_ok : all_chars (fun a => negb (params_class a)) clean = true).
  { apply all_chars_drop_trailing, take_while_all. }
  exists owner, repo, pre,
    (tail ++ t1 ++ drop_while (fun a => negb (params_class a)) url)%string.
  repeat split; auto.
  - rewrite Hclean in Hclean_ok.
    rewrite !all_chars_app in Hclean_ok.
    apply andb_prop in Hclean_ok. destruct Hclean_ok as [_ H].
    apply andb_prop in H. destruct H as [_ H].
    apply andb_prop in H. destruct H as [Ha H].
    apply andb_prop in H. destruct H as [Hb H].
    apply andb_prop in H. destruct H as [Hc _].
    rewrite !all_chars_app. now rewrite Ha, Hb, Hc.
  - rewrite (take_drop_while (fun a => negb (params_class a)) url) at 1.
    fold (before_params url). rewrite Ht1, Hclean.
    rewrite !str_append_assoc. reflexivity.
Qed.

(** ** The form on repository URLs *)

Lemma all_chars_impl (p q : ascii -> bool) (s : string) :
  (forall a, p a = true -> q a = true) ->
  all_chars p s = true -> all_chars q s = true.
Proof.
  intros Hpq. induction s as [ | a s IH]; cbn [all_chars]; [ reflexivity | ].
  intros H. apply andb_prop in H. destruct H as [Ha H].
  now rewrite (Hpq a Ha), IH.
Qed.

Lemma shape_not_blank (url : string) :
  repository_url_shape url -> falsy (String_trim url) = false.
Proof.
  intros (scheme & www & owner & rest & -> & Hscheme & _).
  unfold String_trim.
  destruct Hscheme as [-> | ->]; cbn [append trim_start];
    (replace (is_white_space "h") with false by reflexivity);
    cbn [trim_end]; (replace (is_white_space "h") with false by reflexivity);
    now destruct (trim_end _).
Qed.

(** Which message the form shows.  The first toast appears exactly for
    blank input, the second exactly for input that is not blank and not
    of the shape of a repository URL, the third exactly for input of that
    shape from which no name is extracted; every input [validateUrl]
    accepts is non-blank, so the order of the first two checks does not
    matter. *)
Theorem handleSubmit_messages :
  forall (env : FormEnv) (url : string),
    let trace := handleSubmit env url in
    (In (ToastError "Please enter a repository URL") trace
     <-> String_trim url = EmptyString) /\
    (In (ToastError "Please enter a valid GitHub repository URL") trace
     <-> String_trim url <> EmptyString /\ ~ repository_url_shape url) /\
    (In (ToastError "Could not extract repository name from URL") trace
     <-> repository_url_shape url /\ repo_name_of url = EmptyString) /\
    (repository_url_shape url -> String_trim url <> EmptyString).
Proof.
  intros env url trace. unfold trace. rewrite handleSubmit_cases.
  assert (Hblank : repository_url_shape url -> String_trim url <> EmptyString).
  { intros Hshape Hnil. apply shape_not_blank in Hshape.
    rewrite Hnil in Hshape. discriminate. }
  destruct (falsy (String_trim url)) eqn:Etrim.
  { apply falsy_empty in Etrim.
    cbn; intuition (try discriminate; try congruence). }
  assert (Hne : String_trim url <> EmptyString).
  { intros Hnil. rewrite Hnil in Etrim. discriminate. }
  destruct (validateUrl url) eqn:Evalid; cbn [negb].
  2:{ assert (Hno : ~ repository_url_shape url).
      { intros Hs. apply validateUrl_complete in Hs. congruence. }
      cbn; intuition (try discriminate; try congruence). }
  apply validateUrl_sound in Evalid.
  destruct (falsy (repo_name_of url)) eqn:Ename.
  { apply falsy_empty in Ename.
    cbn; intuition (try discriminate; try congruence). }
  assert (Hname : repo_name_of url <> EmptyString).
  { intros Hnil. rewrite Hnil in Ename. discriminate. }
  destruct (checkRepoExists env (repo_name_of url)) as [b | ];
    [ destruct (onSubmit_resolves env url (repo_name_of url) b) | ];
    cbn; intuition (try discriminate; try congruence).
Qed.

Lemma handleSubmit_messages_witness :
  In (ToastError "Please enter a repository URL")
     (handleSubmit accepting_env "   ").
Proof.
  apply (proj2 (proj1 (handleSubmit_messages accepting_env "   "))).
  reflexivity.
Defined.

(** A plain repository URL goes through: for
    [http(s)://(www.)github.com/owner/repo], with an owner of word
    characters and hyphens and a repository of word characters, dots and
    hyphens that is more than a [.git], the form asks [checkRepoExists]
    for [owner/repo] without a trailing [.git] and, when that call
    resolves, calls [onSubmit] with the URL, that name and the answer. *)
Theorem handleSubmit_plain_url :
  forall (env : FormEnv) (scheme www owner repo : string),
    (scheme = "http"%string \/ scheme = "https"%string) ->
    (www = EmptyString \/ www = "www."%string) ->
    owner <> EmptyString -> all_chars owner_class owner = true ->
    repo <> EmptyString -> all_chars repo_class repo = true ->
    drop_trailing ".git" repo <> EmptyString ->
    let url := (url_origin scheme www ++ owner ++ "/" ++ repo)%string in
    let name := (owner ++ "/" ++ drop_trailing ".git" repo)%string in
    In (CheckRepoExists name) (handleSubmit env url) /\
    calls_onSubmit (handleSubmit env url)
      = is_some (checkRepoExists env name) /\
    forall b,
      checkRepoExists env name = Some b ->
      In (OnSubmit url name b) (handleSubmit env url).
Proof.
  intros env scheme www owner repo Hs Hw Ho Hoc Hr Hrc Hgit url name.
  assert (Hshape : repository_url_shape url).
  { exists scheme, www, owner, repo. repeat split; auto.
    - unfold url, url_origin. now rewrite !str_append_assoc.
    - destruct repo as [ | a r]; [ congruence | ]. exists a, r.
      cbn [all_chars] in Hrc. apply andb_prop in Hrc. tauto.
    - revert Hrc. apply all_chars_impl. intros a Ha.
      apply (proj2 (class_inclusions a) Ha). }
  assert (Hseg : forall s, s <> EmptyString -> all_chars repo_class s = true ->
                           is_segment s).
  { intros s Hne Hc. repeat split; auto.
    - revert Hc. apply all_chars_impl. intros a Ha.
      apply (proj2 (class_inclusions a) Ha).
    - revert Hc. apply all_chars_impl. intros a Ha.
      now rewrite (proj1 (proj2 (proj2 (proj2 (class_inclusions a) Ha)))). }
  assert (Howner : is_segment owner).
  { apply Hseg; auto. revert Hoc. apply all_chars_impl. intros a Ha.
    apply (proj1 (class_inclusions a) Ha). }
  assert (Hname : repo_name_of url = name).
  { unfold url. rewrite <- (str_append_nil repo) at 1.
    apply (repo_name_plain Hs Hw Howner (Hseg repo Hr Hrc) (or_introl eq_refl)
             Hgit). }
  rewrite handleSubmit_cases, Hname.
  rewrite (shape_not_blank Hshape), (validateUrl_complete Hshape).
  cbn [negb].
  assert (Hfalsy : falsy name = false).
  { unfold name. destruct owner; [ congruence | reflexivity ]. }
  rewrite Hfalsy.
  destruct (checkRepoExists env name) as [e | ]; cbn [is_some].
  - destruct (onSubmit_resolves env url name e);
      (split; [ cbn; auto | split; [ reflexivity | ] ]);
      intros b [= <-]; cbn; auto 10.
  - split; [ cbn; auto | split; [ reflexivity | discriminate ] ].
Qed.

Lemma handleSubmit_plain_url_witness :
  In (OnSubmit (url_origin "https" "" ++ "rocq-prover" ++ "/" ++ "rocq.git")
        ("rocq-prover" ++ "/" ++ "rocq") true)
     (handleSubmit accepting_env
        (url_origin "https" "" ++ "rocq-prover" ++ "/" ++ "rocq.git")).
Proof.
  apply (proj2 (proj2 (@handleSubmit_plain_url accepting_env
                         "https" "" "rocq-prover" "rocq.git"
                         (or_intror eq_refl) (or_introl eq_refl)
                         ltac:(discriminate) eq_refl
                         ltac:(discriminate) eq_refl
                         ltac:(discriminate)))
           true eq_refl).
Defined.
